(** * RobinHood 4: URI parser, iterator combinators and the mongo backend

    A shallow embedding of [src/uri.c] (the raw URI parser), of the iterator
    combinators [rbh_iter_array], [rbh_iter_chunkify] and [rbh_iter_tee], and
    of the update / root operations of the mongo backend
    ([src/backends/mongo/mongo.c]), together with the properties the
    specification states about them.

    Also embedded, with properties read off the code: the destructor of a
    tee, the constructor, the destructor and the query path of the mongo
    backend, the loader of plugins ([rbh_plugin_import]), the operator
    tests of [robinhood/filter.h] and the command line predicates of
    rbh-find-lustre.

    Conventions of the embedding:
    - [errno] and the other process-wide variables live in a [world] record
      that every function receives and returns;
    - a [const void *] that an iterator yields is an [option A]: [None] is
      [NULL], [Some x] a reference to the element [x];
    - a [size_t] is a [Z] in [0, 2^64) and its arithmetic wraps;
    - the outcome of a library call that may fail for lack of resources
      ([malloc], [rbh_queue_push], the [bson_append_*] family, ...) is read
      from the [faults] script of the world, one decision per call, in
      program order. *)

From Stdlib Require Import List ZArith Lia Bool Ascii String Arith.
Import ListNotations.

Set Implicit Arguments.

(* ------------------------------------------------------------------------ *)
(** ** errno values (Linux, <errno.h>) *)

Module Errno.
Definition ENOENT : Z := 2.
Definition EAGAIN : Z := 11.
Definition ENOMEM : Z := 12.
Definition EINVAL : Z := 22.
Definition ENODATA : Z := 61.
Definition ENOBUFS : Z := 105.
End Errno.
Import Errno.

(* ------------------------------------------------------------------------ *)
(** ** Process-wide state *)

Record world : Type := World {
  errno : Z;                      (* the thread's errno *)
  faults : list bool;             (* outcomes of the fallible library calls
                                     still to come, [true] = success; calls
                                     succeed once the script is used up *)
  rbh_backend_error : string      (* the last-error buffer of backend.h *)
}.

Definition set_errno (e : Z) (w : world) : world :=
  World e (faults w) (rbh_backend_error w).

Definition set_backend_error (s : string) (w : world) : world :=
  World (errno w) (faults w) s.

(** One fallible library call: pops the next decision of the script. *)
Definition attempt (w : world) : bool * world :=
  match faults w with
  | [] => (true, w)
  | b :: fs => (b, World (errno w) fs (rbh_backend_error w))
  end.

(** [n] fallible calls chained with [&&]: the first that fails ends the
    chain. *)
Fixpoint attempts (n : nat) (w : world) : bool * world :=
  match n with
  | O => (true, w)
  | S n' =>
      let (ok, w1) := attempt w in
      if ok then attempts n' w1 else (false, w1)
  end.

(** [malloc(3)]: sets [ENOMEM] when it fails. *)
Definition malloc (w : world) : bool * world :=
  let (ok, w1) := attempt w in
  if ok then (true, w1) else (false, set_errno ENOMEM w1).

(** A world in which no library call fails any more. *)
Definition reliable (w : world) : Prop :=
  Forall (fun b => b = true) (faults w).

(** [size_t] arithmetic. *)
Definition SIZE_MOD : Z := 2 ^ 64.
Definition size_t (z : Z) : Z := z mod SIZE_MOD.

(* ------------------------------------------------------------------------ *)
(** ** rbh_parse_raw_uri *)

Module Uri.

(** The parser works in place on a mutable, NUL-terminated buffer; a
    [char *] into it is an offset. Reading past the buffer gives NUL. *)
Definition NUL : ascii := Ascii.zero.
Definition buffer := list ascii.

Definition load (m : buffer) (p : nat) : ascii := nth p m NUL.

Fixpoint store (m : buffer) (p : nat) (c : ascii) : buffer :=
  match m, p with
  | [], _ => []
  | _ :: m', O => c :: m'
  | x :: m', S p' => x :: store m' p' c
  end.

Fixpoint write (m : buffer) (p : nat) (bytes : list ascii) : buffer :=
  match bytes with
  | [] => m
  | b :: bs => write (store m p b) (S p) bs
  end.

(** <ctype.h>, "C" locale *)
Definition in_range (lo hi : nat) (c : ascii) : bool :=
  let n := nat_of_ascii c in (lo <=? n) && (n <=? hi).
Definition isalpha (c : ascii) : bool := in_range 65 90 c || in_range 97 122 c.
Definition isdigit (c : ascii) : bool := in_range 48 57 c.
Definition isalnum (c : ascii) : bool := isalpha c || isdigit c.

(** <string.h> *)
Fixpoint find_first (c : ascii) (l : list ascii) (p : nat) : option nat :=
  match l with
  | [] => if Ascii.eqb c NUL then Some p else None
  | x :: l' =>
      if Ascii.eqb x c then Some p
      else if Ascii.eqb x NUL then None
      else find_first c l' (S p)
  end.

Fixpoint find_last (c : ascii) (l : list ascii) (p : nat) (acc : option nat)
  : option nat :=
  match l with
  | [] => if Ascii.eqb c NUL then Some p else acc
  | x :: l' =>
      let acc' := if Ascii.eqb x c then Some p else acc in
      if Ascii.eqb x NUL then acc' else find_last c l' (S p) acc'
  end.

Definition strchr (m : buffer) (s : nat) (c : ascii) : option nat :=
  find_first c (skipn s m) s.

Definition strrchr (m : buffer) (s : nat) (c : ascii) : option nat :=
  find_last c (skipn s m) s None.

Fixpoint cstrlen (l : list ascii) : nat :=
  match l with
  | [] => 0
  | x :: l' => if Ascii.eqb x NUL then 0 else S (cstrlen l')
  end.

Definition strlen (m : buffer) (s : nat) : nat := cstrlen (skipn s m).

Definition strchrnul (m : buffer) (s : nat) (c : ascii) : nat :=
  match strchr m s c with
  | Some p => p
  | None => s + strlen m s
  end.

Definition memmove (m : buffer) (dst src n : nat) : buffer :=
  write m dst (map (load m) (seq src n)).

Definition memset (m : buffer) (p : nat) (c : ascii) (n : nat) : buffer :=
  write m p (repeat c n).

(** struct rbh_raw_uri: every member is a [char *] into the buffer, or
    NULL. *)
Record rbh_raw_uri : Type := RawUri {
  scheme : option nat;
  userinfo : option nat;
  host : option nat;
  port : option nat;
  path : option nat;
  query : option nat;
  fragment : option nat
}.

Definition zero_uri : rbh_raw_uri :=
  RawUri None None None None None None None.

(** scheme = ALPHA *( ALPHA / DIGIT / "+" / "-" / "." ) *)
Definition scheme_char (c : ascii) : bool :=
  isalnum c || Ascii.eqb c "+" || Ascii.eqb c "-" || Ascii.eqb c ".".

Fixpoint span (f : ascii -> bool) (l : list ascii) : nat :=
  match l with
  | [] => 0
  | x :: l' => if f x then S (span f l') else 0
  end.

(** [*p++ = '\0'] for an optional pointer [p]: cuts the buffer at [p] and
    steps over the cut. *)
Definition cut (m : buffer) (p : option nat) : buffer * option nat :=
  match p with
  | Some q => (store m q NUL, Some (S q))
  | None => (m, None)
  end.

Definition rbh_parse_raw_uri (uri : rbh_raw_uri) (m : buffer) (string : nat)
    (w : world) : Z * rbh_raw_uri * buffer * world :=
  if negb (isalpha (load m string)) then
    ((-1)%Z, uri, m, set_errno EINVAL w)
  else
    (* the members of uri are zeroed; uri->scheme = string; *)
    let uri_scheme := Some string in
    (* do { string++; } while (...); *)
    let string := S string + span scheme_char (skipn (S string) m) in
    if negb (Ascii.eqb (load m string) ":") then
      ((-1)%Z, RawUri uri_scheme None None None None None None, m,
       set_errno EINVAL w)
    else
      let m := store m string NUL in
      let string := S string in
      (* string = [//authority]path[?query][#fragment] *)
      let '(m, uri_fragment) := cut m (strrchr m string "#") in
      (* string = [//authority]path[?query] *)
      let '(m, uri_query) := cut m (strrchr m string "?") in
      (* string = [//authority]path *)
      if negb (Ascii.eqb (load m string) "/")
         || negb (Ascii.eqb (load m (S string)) "/") then
        (0%Z, RawUri uri_scheme None None None (Some string) uri_query
                   uri_fragment, m, w)
      else
        let uri_path := strchrnul m (string + 2) "/" in
        if uri_path =? string + 2 then
          (* authority is empty *)
          (0%Z, RawUri uri_scheme None None None (Some uri_path) uri_query
                     uri_fragment, m, w)
        else
          let m := memmove m string (string + 2) (uri_path - string - 2) in
          let m := memset m (uri_path - 2) NUL 2 in
          (* string = [userinfo@]host[:port] *)
          let '(m, uri_userinfo, string) :=
            match strchr m string "@" with
            | Some at_ => (store m at_ NUL, Some string, S at_)
            | None => (m, None, string)
            end in
          (* string = host[:port] *)
          let '(m, uri_port) := cut m (strrchr m string ":") in
          (* string = host *)
          let uri_host :=
            if Ascii.eqb (load m string) NUL then None else Some string in
          (0%Z, RawUri uri_scheme uri_userinfo uri_host uri_port
                     (Some uri_path) uri_query uri_fragment, m, w).

(** The C string a member of the parsed URI points at. *)
Fixpoint cstring (l : list ascii) : string :=
  match l with
  | [] => EmptyString
  | x :: l' => if Ascii.eqb x NUL then EmptyString else String x (cstring l')
  end.

Definition component (m : buffer) (p : option nat) : option string :=
  option_map (fun q => cstring (skipn q m)) p.

(** A C string literal as a buffer, with its terminator. *)
Definition buffer_of (s : string) : buffer :=
  list_ascii_of_string s ++ [NUL].

(** Does [s] occur in [m] at offset [q], followed by a terminator? *)
Definition clean_substring (m : buffer) (q : nat) (s : string) : bool :=
  let bytes := list_ascii_of_string s in
  (q + List.length bytes <? List.length m)
  && forallb (fun c => negb (Ascii.eqb c NUL)) bytes
  && String.eqb (string_of_list_ascii (firstn (List.length bytes) (skipn q m))) s
  && Ascii.eqb (load m (q + List.length bytes)) NUL.

(** *** Reading a parsed URI back *)

Section Recomposition.
Local Open Scope string_scope.

(** The text of a member of a parsed URI; NULL reads as the empty text. *)
Definition text (m : buffer) (p : option nat) : string :=
  match component m p with
  | Some s => s
  | None => EmptyString
  end.

(** [prefix ++ text] when the member is there, nothing when it is NULL. *)
Definition before (m : buffer) (prefix : string) (p : option nat) : string :=
  match p with
  | Some _ => prefix ++ text m p
  | None => EmptyString
  end.

Definition after (m : buffer) (p : option nat) (suffix : string) : string :=
  match p with
  | Some _ => text m p ++ suffix
  | None => EmptyString
  end.

(** Does the URI have any member of an authority? *)
Definition has_authority (uri : rbh_raw_uri) : bool :=
  match userinfo uri, host uri, port uri with
  | None, None, None => false
  | _, _, _ => true
  end.

(** The generic syntax the parser is written against, read from the
    members back to a text:
    scheme:[//[userinfo@]host[:port]]path[?query][#fragment] *)
Definition recompose (slashes : bool) (m : buffer) (uri : rbh_raw_uri)
  : string :=
  text m (scheme uri) ++ ":"
  ++ (if slashes then
        "//" ++ after m (userinfo uri) "@" ++ text m (host uri)
        ++ before m ":" (port uri)
      else EmptyString)
  ++ text m (path uri)
  ++ before m "?" (query uri)
  ++ before m "#" (fragment uri).

(** A text without NUL. *)
Definition nul_free (l : list ascii) : bool :=
  forallb (fun c => negb (Ascii.eqb c NUL)) l.

(** The character [c] does not occur in the text. *)
Definition absent (c : ascii) (l : list ascii) : Prop :=
  forallb (fun x => negb (Ascii.eqb x c)) l = true.

(** The text starts with a scheme and its colon:
    ALPHA *( ALPHA / DIGIT / "+" / "-" / "." ) ":" *)
Definition scheme_form (s : list ascii) : Prop :=
  exists (c : ascii) (a body : list ascii),
    s = (c :: a ++ ":"%char :: body)%list
    /\ isalpha c = true /\ forallb scheme_char a = true.

End Recomposition.

End Uri.

(* ------------------------------------------------------------------------ *)
(** ** Iterator combinators (itertools.c) *)

Module Itertools.

Local Open Scope Z_scope.

Section Combinators.

(** The type of the elements the iterators hand out references to. *)
Variable A : Type.

Definition ptr := option A.

Definition is_null (p : ptr) : bool :=
  match p with None => true | Some _ => false end.

(** *** rbh_iter_array() *)

(** [array + size * index] is a reference to the [index]-th element of
    the region; the region is the list of its elements. *)
Record array_iterator : Type := ArrayIterator {
  array : list A;
  size : Z;
  count : Z;
  index : Z
}.

Definition array_iter_next (it : array_iterator) (w : world)
  : ptr * array_iterator * world :=
  if index it <? count it then
    (nth_error (array it) (Z.to_nat (index it)),
     ArrayIterator (array it) (size it) (count it) (size_t (index it + 1)),
     w)
  else
    (None, it, set_errno ENODATA w).

Definition rbh_iter_array (arr : list A) (element_size element_count : Z)
    (w : world) : option array_iterator * world :=
  let (ok, w1) := malloc w in
  if ok then (Some (ArrayIterator arr element_size element_count 0), w1)
  else (None, w1).

(** *** The iterator a combinator wraps

    [rbh_iter_next(subiter)] on an iterator whose private state has type
    [S]: it returns the element or NULL, the new state, and the world
    (with errno as the iterator left it). Several objects may hold the
    same [subiter] pointer; its state is therefore kept beside them, in
    one place, and passed to whichever of them runs. *)
Variable S : Type.
Variable rbh_iter_next : S -> world -> ptr * S * world.

(** *** rbh_iter_chunkify() *)

Record chunk_iterator : Type := ChunkIterator {
  chunk_first : ptr;
  chunk_count : Z;
  chunk_once : bool
}.

Definition chunk_iter_next (chunk : chunk_iterator) (subiter : S)
    (w : world) : ptr * chunk_iterator * S * world :=
  if negb (chunk_once chunk) then
    (chunk_first chunk,
     ChunkIterator (chunk_first chunk) (chunk_count chunk) true,
     subiter, w)
  else if chunk_count chunk =? 0 then
    (None, chunk, subiter, set_errno ENODATA w)
  else
    let save_errno := errno w in
    let '(next, subiter1, w1) := rbh_iter_next subiter (set_errno 0 w) in
    let chunk1 :=
      if negb (is_null next) || (errno w1 =? 0) then
        ChunkIterator (chunk_first chunk) (size_t (chunk_count chunk - 1))
                      (chunk_once chunk)
      else chunk in
    (* errno = errno ? : save_errno; *)
    let w2 :=
      set_errno (if errno w1 =? 0 then save_errno else errno w1) w1 in
    (next, chunk1, subiter1, w2).

Record chunkify_iterator : Type := ChunkifyIterator {
  chunkify_chunk : Z
}.

Definition chunkify_iter_next (chunkify : chunkify_iterator) (subiter : S)
    (w : world) : option chunk_iterator * S * world :=
  let save_errno := errno w in
  let '(first, subiter1, w1) := rbh_iter_next subiter (set_errno 0 w) in
  if is_null first && negb (errno w1 =? 0) then
    (None, subiter1, w1)
  else
    let w2 := set_errno save_errno w1 in
    let (ok, w3) := malloc w2 in
    if negb ok then (None, subiter1, w3)
    else
      (Some (ChunkIterator first (size_t (chunkify_chunk chunkify - 1))
                           false),
       subiter1, w3).

Definition rbh_iter_chunkify (chunk : Z) (w : world)
  : option chunkify_iterator * world :=
  if chunk =? 0 then (None, set_errno EINVAL w)
  else
    let (ok, w1) := malloc w in
    if negb ok then (None, set_errno ENOMEM w1)
    else (Some (ChunkifyIterator chunk), w1).

(** *** rbh_iter_tee() *)

(** The two tee iterators point at each other through [clone]; both live
    in one heap, next to the state of the iterator they share. *)
Inductive side : Type := Tee0 | Tee1.

Record tee_iterator : Type := TeeIterator {
  tee_clone : option side;
  tee_queue : list ptr;
  tee_next : ptr
}.

Record tee_heap : Type := TeeHeap {
  tee_subiter : S;
  tee_0 : tee_iterator;
  tee_1 : tee_iterator
}.

Definition deref (h : tee_heap) (t : side) : tee_iterator :=
  match t with Tee0 => tee_0 h | Tee1 => tee_1 h end.

Definition assign (h : tee_heap) (t : side) (v : tee_iterator) : tee_heap :=
  match t with
  | Tee0 => TeeHeap (tee_subiter h) v (tee_1 h)
  | Tee1 => TeeHeap (tee_subiter h) (tee_0 h) v
  end.

Definition assign_subiter (h : tee_heap) (s : S) : tee_heap :=
  TeeHeap s (tee_0 h) (tee_1 h).

(** Modelled from the spec: the queue of robinhood/queue.h is not among
    the sources. It is the FIFO buffer of section 4.2: a push appends one
    pointer at the tail or fails for lack of memory (errno = ENOMEM,
    queue unchanged), peek shows the head, pop removes it. *)
Definition rbh_queue_push (q : list ptr) (x : ptr) (w : world)
  : option (list ptr) * world :=
  let (ok, w1) := malloc w in
  if ok then (Some (q ++ [x]), w1) else (None, w1).

Definition tee_iter_share (tee : tee_iterator) (element : ptr) (w : world)
  : Z * tee_iterator * world :=
  match rbh_queue_push (tee_queue tee) element w with
  | (Some q, w1) => (0, TeeIterator (tee_clone tee) q (tee_next tee), w1)
  | (None, w1) => (-1, tee, w1)
  end.

Definition _tee_iter_next (tee : tee_iterator) (subiter : S) (w : world)
  : ptr * tee_iterator * S * world :=
  match tee_next tee with
  | Some element =>
      (Some element, TeeIterator (tee_clone tee) (tee_queue tee) None,
       subiter, w)
  | None =>
      let '(element, subiter1, w1) := rbh_iter_next subiter w in
      (element, tee, subiter1, w1)
  end.

(** The part of [tee_iter_next] after the retry of a failed share. *)
Definition tee_iter_next_read (t : side) (h : tee_heap) (save_errno : Z)
    (w : world) : ptr * tee_heap * world :=
  let '(element, tee1, subiter1, w1) :=
    _tee_iter_next (deref h t) (tee_subiter h) (set_errno 0 w) in
  let h1 := assign (assign_subiter h subiter1) t tee1 in
  if is_null element && negb (errno w1 =? 0) then
    (None, h1, w1)
  else
    match tee_clone tee1 with
    | Some c =>
        (* Share this element for the other iterator *)
        let '(rc, clone1, w2) := tee_iter_share (deref h1 c) element w1 in
        let clone2 :=
          if rc =? 0 then clone1
          else TeeIterator (tee_clone clone1) (tee_queue clone1) element in
        (element, assign h1 c clone2, set_errno save_errno w2)
    | None =>
        (element, h1, set_errno save_errno w1)
    end.

Definition tee_iter_next (t : side) (h : tee_heap) (w : world)
  : ptr * tee_heap * world :=
  let tee := deref h t in
  let save_errno := errno w in
  match tee_queue tee with
  | element :: readable =>
      (element,
       assign h t (TeeIterator (tee_clone tee) readable (tee_next tee)),
       w)
  | [] =>
      (* If the last share failed, retry it now *)
      match tee_clone tee with
      | Some c =>
          match tee_next (deref h c) with
          | Some pending =>
              let '(rc, clone1, w1) :=
                tee_iter_share (deref h c) (Some pending) w in
              if rc =? 0 then
                tee_iter_next_read t
                  (assign h c (TeeIterator (tee_clone clone1)
                                           (tee_queue clone1) None))
                  save_errno w1
              else
                (* Cannot go any further without losing elements *)
                (None, h, w1)
          | None => tee_iter_next_read t h save_errno w
          end
      | None => tee_iter_next_read t h save_errno w
      end
  end.

Definition tee_iter_new (w : world) : option tee_iterator * world :=
  let (queue_ok, w1) := attempt w in       (* rbh_queue_new(page_size) *)
  if negb queue_ok then (None, set_errno ENOMEM w1)
  else
    let (ok, w2) := malloc w1 in
    if negb ok then (None, set_errno ENOMEM w2)
    else (Some (TeeIterator None [] None), w2).

Definition rbh_iter_tee (iterator : S) (w : world)
  : Z * option tee_heap * world :=
  match tee_iter_new w with
  | (None, w1) => (-1, None, w1)
  | (Some t0, w1) =>
      match tee_iter_new w1 with
      | (None, w2) => (-1, None, w2)
      | (Some t1, w2) =>
          (* Link both tee_iterator with each other *)
          (0,
           Some (TeeHeap iterator
                   (TeeIterator (Some Tee1) (tee_queue t0) (tee_next t0))
                   (TeeIterator (Some Tee0) (tee_queue t1) (tee_next t1))),
           w2)
      end
  end.

(** *** Clients *)

(** Calls [next] on a chunk until it returns NULL and collects what it
    yielded (at most [fuel] calls). *)
Fixpoint drain_chunk (fuel : nat) (chunk : chunk_iterator) (subiter : S)
    (w : world) : option (list A * S * world) :=
  match fuel with
  | O => None
  | Datatypes.S fuel' =>
      match chunk_iter_next chunk subiter w with
      | (None, _, subiter1, w1) => Some ([], subiter1, w1)
      | (Some x, chunk1, subiter1, w1) =>
          match drain_chunk fuel' chunk1 subiter1 w1 with
          | Some (xs, subiter2, w2) => Some (x :: xs, subiter2, w2)
          | None => None
          end
      end
  end.

(** Advances the outer iterator until it returns NULL, exhausting every
    chunk before asking for the next one. *)
Fixpoint collect_chunks (fuel : nat) (chunkify : chunkify_iterator)
    (subiter : S) (w : world) : option (list (list A) * S * world) :=
  match fuel with
  | O => None
  | Datatypes.S fuel' =>
      match chunkify_iter_next chunkify subiter w with
      | (None, subiter1, w1) => Some ([], subiter1, w1)
      | (Some chunk, subiter1, w1) =>
          match drain_chunk (Datatypes.S fuel') chunk subiter1 w1 with
          | Some (xs, subiter2, w2) =>
              match collect_chunks fuel' chunkify subiter2 w2 with
              | Some (xss, subiter3, w3) => Some (xs :: xss, subiter3, w3)
              | None => None
              end
          | None => None
          end
      end
  end.

(** Calls [next] on a chunk [n] times and returns the results. *)
Fixpoint chunk_take (n : nat) (chunk : chunk_iterator) (subiter : S)
    (w : world) : list ptr * chunk_iterator * S * world :=
  match n with
  | O => ([], chunk, subiter, w)
  | Datatypes.S n' =>
      let '(p, chunk1, subiter1, w1) := chunk_iter_next chunk subiter w in
      let '(ps, chunk2, subiter2, w2) :=
        chunk_take n' chunk1 subiter1 w1 in
      (p :: ps, chunk2, subiter2, w2)
  end.

(** Runs a schedule of [next] calls on the two siblings of a tee; the
    trace records who called and what the call returned. *)
Fixpoint tee_run (schedule : list side) (h : tee_heap) (w : world)
  : list (side * ptr) * tee_heap * world :=
  match schedule with
  | [] => ([], h, w)
  | t :: rest =>
      let '(p, h1, w1) := tee_iter_next t h w in
      let '(trace, h2, w2) := tee_run rest h1 w1 in
      ((t, p) :: trace, h2, w2)
  end.

Definition side_eqb (a b : side) : bool :=
  match a, b with
  | Tee0, Tee0 | Tee1, Tee1 => true
  | _, _ => false
  end.

Definition other (t : side) : side :=
  match t with Tee0 => Tee1 | Tee1 => Tee0 end.

(** What sibling [t] has observed along a trace: the elements its calls
    returned, in order. *)
Fixpoint observed (t : side) (trace : list (side * ptr)) : list A :=
  match trace with
  | [] => []
  | (t', Some x) :: trace' =>
      if side_eqb t t' then x :: observed t trace' else observed t trace'
  | (_, None) :: trace' => observed t trace'
  end.

(** The element parked in the [next] slot of a tee iterator, if any. *)
Definition pending (tee : tee_iterator) : list ptr :=
  match tee_next tee with
  | Some x => [Some x]
  | None => []
  end.

(** What is in store for a sibling: its queue, then its pending element. *)
Definition in_store (h : tee_heap) (t : side) : list ptr :=
  tee_queue (deref h t) ++ pending (deref h t).

(** The call [tee_iter_next t] is about to take the element parked in the
    caller's own slot: its queue is empty and its slot is not. *)
Definition takes_own_slot (h : tee_heap) (t : side) : bool :=
  match tee_queue (deref h t), tee_next (deref h t) with
  | [], Some _ => true
  | _, _ => false
  end.

(** No call of the schedule takes the element parked in the caller's own
    slot: a failed share is always retried by the sibling that produced the
    element. *)
Fixpoint retried_by_producer (schedule : list side) (h : tee_heap)
    (w : world) : bool :=
  match schedule with
  | [] => true
  | t :: rest =>
      negb (takes_own_slot h t)
      && let '(_, h1, w1) := tee_iter_next t h w in
         retried_by_producer rest h1 w1
  end.

(** The chunks of section 4.2, in the specification's words: cut the
    stream into runs of [k] elements, the last one possibly shorter (at most
    [fuel] of them). *)
Fixpoint chunked (fuel k : nat) (l : list A) : list (list A) :=
  match fuel with
  | O => []
  | Datatypes.S fuel' =>
      match l with
      | [] => []
      | _ :: _ => firstn k l :: chunked fuel' k (skipn k l)
      end
  end.

(** *** What a well-behaved iterator is *)

(** The stream of an iterator in state [s] is the list [l]: it yields the
    elements of [l] one by one, leaving errno alone, and then keeps
    answering no-more-data. *)
Fixpoint yields (s : S) (l : list A) : Prop :=
  match l with
  | [] => forall w, rbh_iter_next s w = (None, s, set_errno ENODATA w)
  | x :: l' =>
      exists s', (forall w, rbh_iter_next s w = (Some x, s', w))
                 /\ yields s' l'
  end.

(** The errno contract of [next] (section 4.2), for an iterator whose
    private state has type [St] and satisfies [inv]: a call that yields an
    element leaves errno as the caller had it; a call that yields nothing
    leaves an errno that is not 0 and that is the one this very call
    produces from a clean errno, not a value the caller held. *)
Definition lawful (St : Type) (inv : St -> Prop)
    (next : St -> world -> ptr * St * world) : Prop :=
  forall (st : St) (w : world),
    inv st ->
    let '(p, st', w') := next st w in
    inv st'
    /\ match p with
       | Some _ => errno w' = errno w
       | None =>
           errno w' <> 0
           /\ errno w' = errno (snd (next st (set_errno 0 w)))
       end.

(** An array iterator over a region that does hold [count] elements. *)
Definition array_wf (it : array_iterator) : Prop :=
  0 <= index it /\ count it <= Z.of_nat (List.length (array it)).

(** A chunk iterator next to the iterator it reads from. *)
Definition chunk_step (st : chunk_iterator * S) (w : world)
  : ptr * (chunk_iterator * S) * world :=
  let '(p, chunk, subiter, w') := chunk_iter_next (fst st) (snd st) w in
  (p, (chunk, subiter), w').

Definition chunk_wf (inv : S -> Prop) (st : chunk_iterator * S) : Prop :=
  (chunk_once (fst st) = true \/ chunk_first (fst st) <> None)
  /\ inv (snd st).

(** A tee whose queues hold no NULL. *)
Definition tee_wf (inv : S -> Prop) (h : tee_heap) : Prop :=
  Forall (fun p : ptr => p <> None) (tee_queue (tee_0 h))
  /\ Forall (fun p : ptr => p <> None) (tee_queue (tee_1 h))
  /\ inv (tee_subiter h).

(** The two siblings of a tee point at each other. *)
Definition linked (h : tee_heap) : Prop :=
  tee_clone (tee_0 h) = Some Tee1 /\ tee_clone (tee_1 h) = Some Tee0.

(** The invariant of a tee over the stream [l], after the calls of [trace]:
    [n] elements of the stream were read so far, and for each sibling what
    it has observed, followed by what is in store for it, is these [n]
    elements, in order; nothing is in store for the sibling that is
    ahead. *)
Definition tee_invariant (l : list A) (h : tee_heap)
    (trace : list (side * ptr)) : Prop :=
  linked h
  /\ (in_store h Tee0 = [] \/ in_store h Tee1 = [])
  /\ exists n : nat,
      (n <= List.length l)%nat
      /\ yields (tee_subiter h) (skipn n l)
      /\ forall t : side,
          map Some (observed t trace) ++ in_store h t
          = map Some (firstn n l).

(** *** tee_iter_destroy()

    The destructor of a sibling, on the heap the two siblings live in. The
    sibling that stays alive loses its clone; the iterator the two shared
    is destroyed with the last of them, which the boolean reports. The
    destroyed sibling and its queue are freed: its entry in the heap is
    from then on freed memory, which the sibling that stays never reads. *)
Definition tee_iter_destroy (t : side) (h : tee_heap)
  : tee_heap * bool :=
  match tee_clone (deref h t) with
  | Some c =>
      let clone := deref h c in
      (assign h c (TeeIterator None (tee_queue clone) (tee_next clone)),
       false)
  | None => (h, true)
  end.

(** *** The mutable variants: the same iterators behind a cast *)

Definition rbh_mut_iter_array := rbh_iter_array.
Definition rbh_mut_iter_chunkify := rbh_iter_chunkify.
Definition rbh_mut_iter_tee := rbh_iter_tee.

(** The number of elements among the results of a series of calls. *)
Definition elements (results : list ptr) : nat :=
  List.length (filter (fun p => negb (is_null p)) results).

(** An iterator in state [s] that yields the elements of [l] and then
    fails with the error [e], and keeps failing. *)
Fixpoint fails_after (s : S) (l : list A) (e : Z) : Prop :=
  match l with
  | [] => forall w, rbh_iter_next s w = (None, s, set_errno e w)
  | x :: l' =>
      exists s', (forall w, rbh_iter_next s w = (Some x, s', w))
                 /\ fails_after s' l' e
  end.

End Combinators.

End Itertools.

(* ------------------------------------------------------------------------ *)
(** ** The mongo backend (backends/mongo/mongo.c) *)

Module Mongo.

Local Open Scope Z_scope.
#[local] Set Warnings "-register-all".

(** struct rbh_id: a size and that many bytes; the root's parent is the
    identifier of size 0. *)
Definition rbh_id := list Byte.byte.

(** Modelled from the spec: robinhood/backend.h is not among the sources.
    [RBH_BACKEND_ERROR] is the errno value a backend reports for a failure
    of its own driver (section 7, backend-error), outside the range of the
    system's errno values; [rbh_backend_error] is a buffer of this many
    characters. *)
Definition RBH_BACKEND_ERROR : Z := 1024.
Definition RBH_BACKEND_ERROR_SIZE : nat := 512.

(** [snprintf(buf, size, "mongoc: %s", message)]: at most [size - 1]
    characters are kept. *)
Definition snprintf_mongoc (size : nat) (message : string) : string :=
  substring 0 (size - 1) ("mongoc: " ++ message).

(** The libmongoc this file is compiled against, and
    [MONGOC_CHECK_VERSION(major, minor, micro)]. *)
Definition version := (nat * nat * nat)%type.

Definition check_version (v : version) (major minor micro : nat) : bool :=
  let '(a, b, c) := v in
  ((major <? a) || ((major =? a) && ((minor <? b)
                    || ((minor =? b) && (micro <=? c)))))%nat.

Section Backend.

Variable MONGOC_VERSION : version.

Definition MONGOC_CHECK_VERSION := check_version MONGOC_VERSION.

(** Payload of the events the lowering never looks into (the statx of an
    upsert, the map of an xattr event). *)
Variable payload : Type.

(** Modelled from the spec: robinhood/fsevent.h is not among the sources.
    The event kinds are those of section 3; each event carries the id of
    its target, link and unlink events a namespace edge. *)
Inductive rbh_fsevent_type : Type :=
| RBH_FET_UPSERT
| RBH_FET_LINK
| RBH_FET_UNLINK
| RBH_FET_DELETE
| RBH_FET_NS_XATTR
| RBH_FET_INODE_XATTR.

Inductive rbh_fsevent_data : Type :=
| fsevent_upsert (statx : payload)
| fsevent_link (parent_id : rbh_id) (name : string)
| fsevent_unlink (parent_id : rbh_id) (name : string)
| fsevent_delete
| fsevent_ns_xattr (xattrs : payload)
| fsevent_inode_xattr (xattrs : payload).

Record rbh_fsevent : Type := Fsevent {
  fsevent_id : rbh_id;
  fsevent_data : rbh_fsevent_data
}.

Definition fsevent_type (fsevent : rbh_fsevent) : rbh_fsevent_type :=
  match fsevent_data fsevent with
  | fsevent_upsert _ => RBH_FET_UPSERT
  | fsevent_link _ _ => RBH_FET_LINK
  | fsevent_unlink _ _ => RBH_FET_UNLINK
  | fsevent_delete => RBH_FET_DELETE
  | fsevent_ns_xattr _ => RBH_FET_NS_XATTR
  | fsevent_inode_xattr _ => RBH_FET_INODE_XATTR
  end.

(** *** BSON documents

    Modelled from the spec: the helpers of the backend's mongo.h
    ([BSON_APPEND_RBH_ID_FILTER], [bson_from_unlink],
    [bson_update_from_fsevent]) are not among the sources. A document is
    represented by the request it encodes (section 4.5): the selector of
    an entry by id; the update that removes the namespace edge
    (parent_id, name); the update that applies an event (for a link
    event: adds its namespace edge). Building a document may fail. *)
Inductive bson_selector : Type :=
| id_filter (id : rbh_id).

Inductive bson_update : Type :=
| unlink_update (parent_id : rbh_id) (name : string)
| fsevent_update (fsevent : rbh_fsevent).

Definition BSON_APPEND_RBH_ID_FILTER (id : rbh_id) (w : world)
  : option bson_selector * world :=
  let (ok, w1) := attempt w in
  if ok then (Some (id_filter id), w1) else (None, w1).

Definition bson_from_unlink (parent_id : rbh_id) (name : string)
    (w : world) : option bson_update * world :=
  let (ok, w1) := attempt w in
  if ok then (Some (unlink_update parent_id name), w1) else (None, w1).

Definition bson_update_from_fsevent (fsevent : rbh_fsevent) (w : world)
  : option bson_update * world :=
  let (ok, w1) := attempt w in
  if ok then (Some (fsevent_update fsevent), w1) else (None, w1).

(** *** The driver's bulk operation *)

Inductive bulk_op : Type :=
| remove_one (selector : bson_selector)
| update_one (selector : bson_selector) (update : bson_update)
             (upsert : bool).

Record mongoc_bulk_operation_t : Type := Bulk {
  bulk_ordered : bool;
  bulk_ops : list bulk_op
}.

Definition bulk_append (bulk : mongoc_bulk_operation_t) (op : bulk_op)
  : mongoc_bulk_operation_t :=
  Bulk (bulk_ordered bulk) (bulk_ops bulk ++ [op]).

(** What the server answers when a bulk is executed. *)
Inductive exec_reply : Type :=
| exec_ok
| exec_error (message : string) (labels : list string).

(** An entry as the collection stores it, and a row of the unwound
    collection: one per namespace edge. *)
Record entry_doc : Type := EntryDoc {
  doc_id : rbh_id;
  doc_ns : list (rbh_id * string)
}.

Record rbh_fsentry : Type := Fsentry {
  fsentry_id : rbh_id;
  fsentry_parent_id : rbh_id;
  fsentry_name : string
}.

(** *** Filters (robinhood/filter.h) *)

Inductive rbh_filter_operator : Type :=
| RBH_FOP_EQUAL
| RBH_FOP_STRICTLY_LOWER
| RBH_FOP_LOWER_OR_EQUAL
| RBH_FOP_STRICTLY_GREATER
| RBH_FOP_GREATER_OR_EQUAL
| RBH_FOP_REGEX
| RBH_FOP_IN
| RBH_FOP_BITS_ANY_SET
| RBH_FOP_BITS_ALL_SET
| RBH_FOP_BITS_ANY_CLEAR
| RBH_FOP_BITS_ALL_CLEAR
| RBH_FOP_AND
| RBH_FOP_OR
| RBH_FOP_NOT.

Inductive rbh_fsentry_property : Type :=
| RBH_FP_ID
| RBH_FP_PARENT_ID
| RBH_FP_NAME
| RBH_FP_STATX
| RBH_FP_SYMLINK
| RBH_FP_NAMESPACE_XATTRS
| RBH_FP_INODE_XATTRS.

Inductive rbh_value : Type :=
| RBH_VT_BINARY (data : list Byte.byte)
| RBH_VT_INT32 (i : Z)
| RBH_VT_UINT32 (u : Z)
| RBH_VT_INT64 (i : Z)
| RBH_VT_UINT64 (u : Z)
| RBH_VT_STRING (s : string)
| RBH_VT_REGEX (s : string) (options : Z)
| RBH_VT_SEQUENCE (values : list rbh_value)
| RBH_VT_MAP (pairs : list (string * rbh_value)).

(** A [const struct rbh_filter *] is an [option rbh_filter]: NULL is the
    filter that matches everything. *)
Inductive rbh_filter : Type :=
| filter_compare (op : rbh_filter_operator) (field : rbh_fsentry_property)
                 (value : rbh_value)
| filter_logical (op : rbh_filter_operator)
                 (filters : list (option rbh_filter)).

(** The aggregation pipeline of [bson_pipeline_from_filter]. *)
Inductive pipeline_stage : Type :=
| stage_unwind (path : string)
| stage_match (filter : option rbh_filter).

Definition MFF_NAMESPACE : string := "ns".

(** *** The collection

    The remote collection is the documents it held when the backend was
    opened and the journal of the bulks it was asked to execute since.
    How the server behaves is a parameter of the backend: its answer to a
    bulk, the rows it finds for a pipeline (NULL cursor: [None]), the
    errno a cursor leaves when it runs dry (0 for a clean end). *)
Record mongoc_collection_t : Type := Collection {
  documents : list entry_doc;
  journal : list (list bulk_op);
  server_execute : list bulk_op -> exec_reply;
  server_aggregate : list entry_doc -> list pipeline_stage
                     -> option (list rbh_fsentry);
  server_cursor_errno : Z
}.

Record mongo_backend : Type := MongoBackend {
  entries : mongoc_collection_t
}.

Record mongoc_cursor_t : Type := Cursor {
  cursor_rows : list rbh_fsentry;
  cursor_errno : Z
}.

(** *** mongo_iterator *)

(** Modelled from the spec: [fsentry_from_bson] (backend's mongo.h) is
    not among the sources; it allocates the entry a document encodes. *)
Definition fsentry_from_bson (doc : rbh_fsentry) (w : world)
  : option rbh_fsentry * world :=
  let (ok, w1) := malloc w in
  if ok then (Some doc, w1) else (None, w1).

Definition mongoc_cursor_next (cursor : mongoc_cursor_t) (w : world)
  : option rbh_fsentry * mongoc_cursor_t * world :=
  match cursor_rows cursor with
  | doc :: rows => (Some doc, Cursor rows (cursor_errno cursor), w)
  | [] =>
      (None, cursor,
       if cursor_errno cursor =? 0 then w
       else set_errno (cursor_errno cursor) w)
  end.

Definition mongo_iter_next (mongo_iter : mongoc_cursor_t) (w : world)
  : option rbh_fsentry * mongoc_cursor_t * world :=
  let save_errno := errno w in
  match mongoc_cursor_next mongo_iter (set_errno 0 w) with
  | (Some doc, cursor1, w1) =>
      let '(fsentry, w2) := fsentry_from_bson doc (set_errno save_errno w1)
      in (fsentry, cursor1, w2)
  | (None, cursor1, w1) =>
      (None, cursor1,
       set_errno (if errno w1 =? 0 then ENODATA else errno w1) w1)
  end.

Definition mongo_iterator_new (cursor : mongoc_cursor_t) (w : world)
  : option mongoc_cursor_t * world :=
  let (ok, w1) := malloc w in
  if ok then (Some cursor, w1) else (None, w1).

(** *** update *)

Definition _mongoc_collection_create_bulk_operation
    (collection : mongoc_collection_t) (ordered : bool)
    (write_concern : option unit) (w : world)
  : option mongoc_bulk_operation_t * world :=
  if MONGOC_CHECK_VERSION 1 9 0 then
    let (appended, w1) := attempt w in   (* BSON_APPEND_BOOL(&opts, ...) *)
    if negb appended then (None, set_errno ENOBUFS w1)
    else
      let (concern_ok, w2) :=
        match write_concern with
        | Some _ => attempt w1           (* mongoc_write_concern_append *)
        | None => (true, w1)
        end in
      if negb concern_ok then (None, set_errno EINVAL w2)
      else
        let (created, w3) := attempt w2 in
        if created then (Some (Bulk ordered []), w3) else (None, w3)
  else
    let (created, w1) := attempt w in
    if created then (Some (Bulk ordered []), w1) else (None, w1).

Definition _mongoc_bulk_operation_update_one
    (bulk : mongoc_bulk_operation_t) (selector : bson_selector)
    (update : bson_update) (upsert : bool) (w : world)
  : bool * mongoc_bulk_operation_t * world :=
  if MONGOC_CHECK_VERSION 1 7 0 then
    let (appended, w1) := attempt w in   (* BSON_APPEND_BOOL(&opts, ...) *)
    if negb appended then (false, bulk, set_errno ENOBUFS w1)
    else
      (* mongoc_bulk_operation_update_one_with_opts() *)
      let (accepted, w2) := attempt w1 in
      if accepted then
        (true, bulk_append bulk (update_one selector update upsert), w2)
      else (false, bulk, w2)
  else
    (true, bulk_append bulk (update_one selector update upsert), w).

Definition _mongoc_bulk_operation_remove_one
    (bulk : mongoc_bulk_operation_t) (selector : bson_selector) (w : world)
  : bool * mongoc_bulk_operation_t * world :=
  if MONGOC_CHECK_VERSION 1 7 0 then
    (* mongoc_bulk_operation_remove_one_with_opts() *)
    let (accepted, w1) := attempt w in
    if accepted then (true, bulk_append bulk (remove_one selector), w1)
    else (false, bulk, w1)
  else
    (true, bulk_append bulk (remove_one selector), w).

(** The [default:] block of the switch in [mongo_bulk_append_fsevent].
    [None] is its [return false]; [Some success] leaves the switch. *)
Definition append_update (bulk : mongoc_bulk_operation_t)
    (selector : bson_selector) (fsevent : rbh_fsevent) (w : world)
  : option bool * mongoc_bulk_operation_t * world :=
  match bson_update_from_fsevent fsevent w with
  | (None, w1) => (None, bulk, w1)
  | (Some update, w1) =>
      let '(success, bulk1, w2) :=
        _mongoc_bulk_operation_update_one bulk selector update
          (match fsevent_type fsevent with
           | RBH_FET_UNLINK => false
           | _ => true
           end) w1 in
      (Some success, bulk1, w2)
  end.

Definition mongo_bulk_append_fsevent (bulk : mongoc_bulk_operation_t)
    (fsevent : rbh_fsevent) (w : world)
  : bool * mongoc_bulk_operation_t * world :=
  match BSON_APPEND_RBH_ID_FILTER (fsevent_id fsevent) w with
  | (None, w1) => (false, bulk, w1)
  | (Some selector, w1) =>
      let '(success, bulk1, w2) :=
        match fsevent_data fsevent with
        | fsevent_delete =>
            let '(success, bulk1, w2) :=
              _mongoc_bulk_operation_remove_one bulk selector w1 in
            (Some success, bulk1, w2)
        | fsevent_link parent_id name =>
            (* Unlink first, then link *)
            match bson_from_unlink parent_id name w1 with
            | (None, w2) => (None, bulk, w2)
            | (Some update, w2) =>
                let '(success, bulk1, w3) :=
                  _mongoc_bulk_operation_update_one bulk selector update
                                                    false w2 in
                if negb success then (Some false, bulk1, w3)
                else append_update bulk1 selector fsevent w3
            end
        | _ => append_update bulk selector fsevent w1
        end in
      match success with
      | None => (false, bulk1, w2)
      | Some false =>
          (* > returns false if passed invalid arguments *)
          (false, bulk1, set_errno EINVAL w2)
      | Some true => (true, bulk1, w2)
      end
  end.

(** The sub-operations one event adds to the bulk, when all of them are
    accepted. *)
Definition lowering (ev : rbh_fsevent) : list bulk_op :=
  let selector := id_filter (fsevent_id ev) in
  match fsevent_data ev with
  | fsevent_delete => [remove_one selector]
  | fsevent_link parent_id name =>
      [update_one selector (unlink_update parent_id name) false;
       update_one selector (fsevent_update ev) true]
  | fsevent_unlink _ _ => [update_one selector (fsevent_update ev) false]
  | _ => [update_one selector (fsevent_update ev) true]
  end.

(** Lowering a whole list of events, in order, up to the first event
    whose lowering fails. *)
Fixpoint lower_stream (fsevents : list rbh_fsevent)
    (bulk : mongoc_bulk_operation_t) (w : world)
  : bool * mongoc_bulk_operation_t * world :=
  match fsevents with
  | [] => (true, bulk, w)
  | fsevent :: rest =>
      let '(ok, bulk1, w1) := mongo_bulk_append_fsevent bulk fsevent w in
      if negb ok then (false, bulk1, w1) else lower_stream rest bulk1 w1
  end.

(** The iterator of events handed to [update]. *)
Variable S : Type.
Variable rbh_iter_next : S -> world -> option rbh_fsevent * S * world.

Definition fsevent_iter_next (fsevents : S) (w : world)
  : option rbh_fsevent * S * world :=
  let save_errno := errno w in
  let '(fsevent, fsevents1, w1) := rbh_iter_next fsevents (set_errno 0 w) in
  (fsevent, fsevents1,
   if (errno w1 =? 0) || (errno w1 =? ENODATA) then set_errno save_errno w1
   else w1).

(** [ssize_t] value of a [size_t]. *)
Definition ssize_t (z : Z) : Z :=
  if z <? 2 ^ 63 then z else z - 2 ^ 64.

(** The [fsevent_for_each] loop of [mongo_bulk_init_from_fsevents] and
    what follows it; at most [fuel] events are read. *)
Fixpoint fsevent_for_each (fuel : nat) (bulk : mongoc_bulk_operation_t)
    (fsevents : S) (save_errno count : Z) (w : world)
  : option (Z * mongoc_bulk_operation_t * S * world) :=
  match fuel with
  | O => None
  | Datatypes.S fuel' =>
      match fsevent_iter_next fsevents w with
      | (Some fsevent, fsevents1, w1) =>
          let '(ok, bulk1, w2) :=
            mongo_bulk_append_fsevent bulk fsevent w1 in
          if negb ok then Some (-1, bulk1, fsevents1, w2)
          else fsevent_for_each fuel' bulk1 fsevents1 save_errno
                                (size_t (count + 1)) w2
      | (None, fsevents1, w1) =>
          if negb (errno w1 =? 0) then Some (-1, bulk, fsevents1, w1)
          else
            Some (ssize_t count, bulk, fsevents1, set_errno save_errno w1)
      end
  end.

Definition mongo_bulk_init_from_fsevents (fuel : nat)
    (bulk : mongoc_bulk_operation_t) (fsevents : S) (w : world)
  : option (Z * mongoc_bulk_operation_t * S * world) :=
  fsevent_for_each fuel bulk fsevents (errno w) 0 (set_errno 0 w).

(** [mongoc_bulk_operation_execute]: the bulk reaches the server, which
    answers. *)
Definition mongoc_bulk_operation_execute (collection : mongoc_collection_t)
    (bulk : mongoc_bulk_operation_t)
  : exec_reply * mongoc_collection_t :=
  (server_execute collection (bulk_ops bulk),
   Collection (documents collection)
              (journal collection ++ [bulk_ops bulk])
              (server_execute collection) (server_aggregate collection)
              (server_cursor_errno collection)).

Definition mongoc_error_has_label (labels : list string) (label : string)
  : bool :=
  existsb (String.eqb label) labels.

Definition mongo_backend_update (fuel : nat) (mongo : mongo_backend)
    (fsevents : S) (w : world)
  : option (Z * mongo_backend * S * world) :=
  match _mongoc_collection_create_bulk_operation (entries mongo) false
                                                 None w with
  | (None, w1) => Some (-1, mongo, fsevents, set_errno ENOMEM w1)
  | (Some bulk, w1) =>
      match mongo_bulk_init_from_fsevents fuel bulk fsevents w1 with
      | None => None
      | Some (count, bulk1, fsevents1, w2) =>
          if count <=? 0 then
            (* Executing an empty bulk operation is considered an error
               by mongoc, which is why we return early in this case too *)
            Some (count, mongo, fsevents1, w2)
          else
            match mongoc_bulk_operation_execute (entries mongo) bulk1 with
            | (exec_error message labels, collection1) =>
                let w3 :=
                  set_backend_error
                    (snprintf_mongoc RBH_BACKEND_ERROR_SIZE message) w2 in
                let errnum :=
                  if MONGOC_CHECK_VERSION 1 11 0
                     && mongoc_error_has_label labels
                                               "TransientTransactionError"
                  then EAGAIN else RBH_BACKEND_ERROR in
                Some (-1, MongoBackend collection1, fsevents1,
                      set_errno errnum w3)
            | (exec_ok, collection1) =>
                Some (count, MongoBackend collection1, fsevents1, w2)
            end
      end
  end.

(** *** root *)

Definition ROOT_FILTER : rbh_filter :=
  filter_compare RBH_FOP_EQUAL RBH_FP_PARENT_ID (RBH_VT_BINARY []).

(** [rbh_filter_validate] (filter.c) is not among the sources: it is a
    parameter of the backend. It returns 0 for a valid filter, -1 and an
    errno otherwise. *)
Variable rbh_filter_validate : option rbh_filter -> world -> Z * world.

Definition bson_pipeline_from_filter (filter : option rbh_filter)
    (w : world) : option (list pipeline_stage) * world :=
  (* eight appends chained with && *)
  let (ok, w1) := attempts 8 w in
  if ok then
    (Some [stage_unwind ("$" ++ MFF_NAMESPACE); stage_match filter], w1)
  else (None, set_errno ENOBUFS w1).

Definition mongoc_collection_aggregate (collection : mongoc_collection_t)
    (pipeline : list pipeline_stage) : option mongoc_cursor_t :=
  match server_aggregate collection (documents collection) pipeline with
  | Some rows => Some (Cursor rows (server_cursor_errno collection))
  | None => None
  end.

Definition mongo_backend_filter_fsentries (mongo : mongo_backend)
    (filter : option rbh_filter) (fsentry_mask statx_mask : Z) (w : world)
  : option mongoc_cursor_t * world :=
  let (rc, w1) := rbh_filter_validate filter w in
  if negb (rc =? 0) then (None, w1)
  else
    match bson_pipeline_from_filter filter w1 with
    | (None, w2) => (None, w2)
    | (Some pipeline, w2) =>
        match mongoc_collection_aggregate (entries mongo) pipeline with
        | None => (None, set_errno EINVAL w2)
        | Some cursor => mongo_iterator_new cursor w2
        end
    end.

(** Modelled from the spec: [rbh_backend_filter_one] (robinhood/backend.h)
    is not among the sources. Section 4.4: it wraps [filter_entries],
    pulls one element, destroys the iterator, and returns no-such-entry
    if the iterator is empty. *)
Definition rbh_backend_filter_one (mongo : mongo_backend)
    (filter : option rbh_filter) (fsentry_mask statx_mask : Z) (w : world)
  : option rbh_fsentry * world :=
  match mongo_backend_filter_fsentries mongo filter fsentry_mask
                                       statx_mask w with
  | (None, w1) => (None, w1)
  | (Some fsentries, w1) =>
      let '(fsentry, _, w2) := mongo_iter_next fsentries w1 in
      match fsentry with
      | Some _ => (fsentry, w2)
      | None =>
          (None, if errno w2 =? ENODATA then set_errno ENOENT w2 else w2)
      end
  end.

Definition mongo_root (mongo : mongo_backend) (fsentry_mask statx_mask : Z)
    (w : world) : option rbh_fsentry * world :=
  rbh_backend_filter_one mongo (Some ROOT_FILTER) fsentry_mask statx_mask
                         w.

(** Modelled from the spec: what the server finds for the pipeline of
    section 4.6. The namespace of every document is unwound, one row per
    edge; the match stage keeps the rows the filter accepts. For the
    filter of [mongo_root], "=" on a binary compares byte for byte
    (section 4.3) with the zero-length identifier. *)
Definition unwind (docs : list entry_doc) : list rbh_fsentry :=
  flat_map (fun d =>
              map (fun edge => Fsentry (doc_id d) (fst edge) (snd edge))
                  (doc_ns d))
           docs.

Definition is_root_row (row : rbh_fsentry) : bool :=
  match fsentry_parent_id row with
  | [] => true
  | _ :: _ => false
  end.

Definition answers_root_query (collection : mongoc_collection_t) : Prop :=
  server_aggregate collection (documents collection)
    [stage_unwind ("$" ++ MFF_NAMESPACE); stage_match (Some ROOT_FILTER)]
  = Some (filter is_root_row (unwind (documents collection))).

(** *** rbh_mongo_backend_new() and destroy

    What a backend holds: its own memory and four objects of the driver.
    The calls that acquire and release them are recorded in order. *)
Inductive backend_resource : Type :=
| the_backend
| the_uri
| the_client
| the_database
| the_collection.

Inductive resource_call : Type :=
| acquire (r : backend_resource)
| release (r : backend_resource).

(** The collection a client finds at a URI, in a database, under a name. *)
Variable remote_collection :
  string -> string -> string -> mongoc_collection_t.

(** The labels the failure paths of [rbh_mongo_backend_new] jump to: each
    one releases an object and falls through to the next. *)
Definition out_free_mongo : list resource_call := [release the_backend].
Definition out_mongoc_uri_destroy : list resource_call :=
  release the_uri :: out_free_mongo.
Definition out_mongoc_client_destroy : list resource_call :=
  release the_client :: out_mongoc_uri_destroy.
Definition out_mongoc_database_destroy : list resource_call :=
  release the_database :: out_mongoc_client_destroy.

Definition rbh_mongo_backend_new (fsname : string) (w : world)
  : option (mongo_backend) * list resource_call * world :=
  let (allocated, w1) := malloc w in
  if negb allocated then
    (* save_errno = errno; ...; errno = save_errno *)
    (None, [], set_errno (errno w1) w1)
  else
    let calls := [acquire the_backend] in
    let (uri, w2) := attempt w1 in    (* mongoc_uri_new() *)
    if negb uri then (None, calls ++ out_free_mongo, set_errno EINVAL w2)
    else
      let calls := calls ++ [acquire the_uri] in
      let (client, w3) := attempt w2 in (* mongoc_client_new_from_uri() *)
      if negb client then
        (None, calls ++ out_mongoc_uri_destroy, set_errno ENOMEM w3)
      else
        let calls := calls ++ [acquire the_client] in
        let (api, w4) :=
          if MONGOC_CHECK_VERSION 1 4 0 then
            attempt w3                (* mongoc_client_set_error_api() *)
          else (true, w3) in
        if negb api then
          (None, calls ++ out_mongoc_client_destroy, set_errno EINVAL w4)
        else
          let (db, w5) := attempt w4 in (* mongoc_client_get_database() *)
          if negb db then
            (None, calls ++ out_mongoc_client_destroy, set_errno ENOMEM w5)
          else
            let calls := calls ++ [acquire the_database] in
            (* mongoc_database_get_collection() *)
            let (entries, w6) := attempt w5 in
            if negb entries then
              (None, calls ++ out_mongoc_database_destroy,
               set_errno ENOMEM w6)
            else
              (Some (MongoBackend
                       (remote_collection "mongodb://localhost:27017"
                                          fsname "entries")),
               calls ++ [acquire the_collection], w6).

Definition mongo_backend_destroy (mongo : mongo_backend)
  : list resource_call :=
  [release the_collection; release the_database; release the_client;
   release the_uri; release the_backend].

End Backend.

Arguments fsevent_link {payload} parent_id name.
Arguments fsevent_unlink {payload} parent_id name.
Arguments fsevent_delete {payload}.
Arguments unlink_update {payload} parent_id name.
Arguments remove_one {payload} selector.
Arguments Bulk {payload} bulk_ordered bulk_ops.

End Mongo.

(* ------------------------------------------------------------------------ *)
(** ** Filter operators (robinhood/filter.h) *)

Module Filter.
Import Mongo.
Local Open Scope Z_scope.

(** The value of each enumerator of [enum rbh_filter_operator]. *)
Definition fop_value (op : rbh_filter_operator) : Z :=
  match op with
  | RBH_FOP_EQUAL => 0
  | RBH_FOP_STRICTLY_LOWER => 1
  | RBH_FOP_LOWER_OR_EQUAL => 2
  | RBH_FOP_STRICTLY_GREATER => 3
  | RBH_FOP_GREATER_OR_EQUAL => 4
  | RBH_FOP_REGEX => 5
  | RBH_FOP_IN => 6
  | RBH_FOP_BITS_ANY_SET => 7
  | RBH_FOP_BITS_ALL_SET => 8
  | RBH_FOP_BITS_ANY_CLEAR => 9
  | RBH_FOP_BITS_ALL_CLEAR => 10
  | RBH_FOP_AND => 11
  | RBH_FOP_OR => 12
  | RBH_FOP_NOT => 13
  end.

(** Aliases (used to distinguish comparison filters from logical ones) *)
Definition RBH_FOP_COMPARISON_MIN : Z := fop_value RBH_FOP_EQUAL.
Definition RBH_FOP_COMPARISON_MAX : Z := fop_value RBH_FOP_BITS_ALL_CLEAR.
Definition RBH_FOP_LOGICAL_MIN : Z := fop_value RBH_FOP_AND.
Definition RBH_FOP_LOGICAL_MAX : Z := fop_value RBH_FOP_NOT.

(** An [enum rbh_filter_operator] argument is an integer: the functions
    accept any value, not only the enumerators. *)
Definition rbh_is_comparison_operator (op : Z) : bool :=
  (RBH_FOP_COMPARISON_MIN <=? op) && (op <=? RBH_FOP_COMPARISON_MAX).

Definition rbh_is_logical_operator (op : Z) : bool :=
  (RBH_FOP_LOGICAL_MIN <=? op) && (op <=? RBH_FOP_LOGICAL_MAX).

End Filter.

(* ------------------------------------------------------------------------ *)
(** ** Dynamic plugins (plugin.c) *)

Module Plugin.
Local Open Scope string_scope.

Section Loader.

(** The dynamic linker: the libraries it can open, and the symbols each of
    them exports. *)
Variable handle : Type.
Variable address : Type.
Variable dlopen : string -> option handle.
Variable dlsym : handle -> string -> option address.

(** [asprintf(&library, "librbh-%s.so", name)]: allocates the formatted
    string, or fails. *)
Definition asprintf_library (name : string) (w : world)
  : option string * world :=
  let (ok, w1) := attempt w in
  if ok then (Some ("librbh-" ++ name ++ ".so"), w1) else (None, w1).

Definition rbh_plugin_library (name : string) (w : world)
  : option string * world :=
  match asprintf_library name w with
  | (Some library, w1) => (Some library, w1)
  | (None, w1) => (None, set_errno ENOMEM w1)
  end.

Definition rbh_plugin_import (name symbol : string) (w : world)
  : option address * world :=
  match rbh_plugin_library name w with
  | (None, w1) => (None, w1)
  | (Some libname, w1) =>
      match dlopen libname with
      | None => (None, w1)
      | Some dlhandle => (dlsym dlhandle symbol, w1)
      end
  end.

End Loader.

End Plugin.

(* ------------------------------------------------------------------------ *)
(** ** rbh-find-lustre: predicates of the command line *)

Module FindLustre.
Local Open Scope string_scope.
Local Open Scope Z_scope.

(** *** <string.h>

    A [const char *] is the text up to its terminator; the character at
    the index of the terminator is NUL. *)
Local Abbreviation NUL := Uri.NUL.

Definition char_at (s : string) (i : nat) : ascii :=
  match String.get i s with
  | Some c => c
  | None => NUL
  end.

(** [&s[n]] *)
Fixpoint advance (n : nat) (s : string) : string :=
  match n, s with
  | O, _ => s
  | Datatypes.S n', String _ s' => advance n' s'
  | Datatypes.S _, EmptyString => EmptyString
  end.

Definition strcmp (a b : string) : Z :=
  match String.compare a b with
  | Eq => 0
  | Lt => -1
  | Gt => 1
  end.

Definition strncmp (a b : string) (n : nat) : Z :=
  strcmp (substring 0 n a) (substring 0 n b).

Definition strlen (s : string) : nat := String.length s.

(** A text that can be a C string: it holds no NUL. *)
Fixpoint c_string (s : string) : bool :=
  match s with
  | EmptyString => true
  | String c s' => negb (Ascii.eqb c NUL) && c_string s'
  end.

(** The predicates the tool adds to those of rbh-find, as the command line
    spells them. *)
Definition lustre_predicate_names : list string :=
  ["-expired"; "-expired-at"; "-fid"; "-hsm-state"; "-ost"].

Section Parser.

(** [enum lustre_predicate] (the tool's parser.h) and the parser of
    rbh-find are not among the sources: the enumerators and the functions
    the code falls back on are parameters. *)
Variables LPRED_EXPIRED LPRED_EXPIRED_AT LPRED_EXPIRED_ABS LPRED_EXPIRED_REL
          LPRED_FID LPRED_HSM_STATE LPRED_OST_INDEX : Z.
Variables LPRED_MIN LPRED_MAX : Z.
Variable str2predicate : string -> Z.
Variable predicate2str : Z -> option string.

(** An [assert] that fails aborts the program: [None]. *)
Definition str2lustre_predicate (str : string) : option Z :=
  if negb (Ascii.eqb (char_at str 0) "-") then None
  else
    let c := char_at str 1 in
    if Ascii.eqb c "e" then
      if negb (strncmp (advance 2 str) "xpired" (strlen "xpired") =? 0) then
        Some (str2predicate str)
      else if Ascii.eqb (char_at str (strlen "-expired")) NUL then
        Some LPRED_EXPIRED
      else if strcmp (advance (strlen "-expired") str) "-at" =? 0 then
        Some LPRED_EXPIRED_AT
      else Some (str2predicate str)
    else if Ascii.eqb c "f" then
      if strcmp (advance 2 str) "id" =? 0 then Some LPRED_FID
      else Some (str2predicate str)
    else if Ascii.eqb c "h" then
      if strcmp (advance 2 str) "sm-state" =? 0 then Some LPRED_HSM_STATE
      else Some (str2predicate str)
    else if Ascii.eqb c "o" then
      if strcmp (advance 2 str) "st" =? 0 then Some LPRED_OST_INDEX
      else Some (str2predicate str)
    else Some (str2predicate str).

(** The array [__lustre_predicate2str], as its designated initializers
    give it: index and string. The last initializer given for an index
    stands; an index none of them names holds NULL. *)
Definition __lustre_predicate2str : list (Z * string) :=
  [ (LPRED_EXPIRED - LPRED_MIN, "expired");
    (LPRED_EXPIRED_AT - LPRED_MIN, "expired-at");
    (LPRED_EXPIRED_ABS - LPRED_MIN, "expired");
    (LPRED_EXPIRED_REL - LPRED_MIN, "expired");
    (LPRED_FID - LPRED_MIN, "fid");
    (LPRED_HSM_STATE - LPRED_MIN, "hsm-state");
    (LPRED_OST_INDEX - LPRED_MIN, "ost") ].

Fixpoint designated (table : list (Z * string)) (i : Z) : option string :=
  match table with
  | [] => None
  | (j, s) :: rest =>
      match designated rest i with
      | Some s' => Some s'
      | None => if j =? i then Some s else None
      end
  end.

Definition lustre_predicate2str (predicate : Z) : option string :=
  if (LPRED_MIN <=? predicate) && (predicate <? LPRED_MAX) then
    designated __lustre_predicate2str (predicate - LPRED_MIN)
  else predicate2str predicate.

(** [enum command_line_token] (rbh-find) *)
Variable command_line_token : Type.
Variable CLT_PREDICATE : command_line_token.
Variable find_predicate_or_action : string -> command_line_token.

Definition lustre_predicate_or_action (str : string) : command_line_token :=
  if Ascii.eqb (char_at str 0) "-" then
    let c := char_at str 1 in
    if Ascii.eqb c "e" then
      if negb (strncmp (advance 2 str) "xpired" (strlen "xpired") =? 0) then
        find_predicate_or_action str
      else if Ascii.eqb (char_at str (strlen "-expired")) NUL then
        CLT_PREDICATE
      else if strcmp (advance (strlen "-expired") str) "-at" =? 0 then
        CLT_PREDICATE
      else find_predicate_or_action str
    else if Ascii.eqb c "f" then
      if strcmp (advance 2 str) "id" =? 0 then CLT_PREDICATE
      else find_predicate_or_action str
    else if Ascii.eqb c "h" then
      if strcmp (advance 2 str) "sm-state" =? 0 then CLT_PREDICATE
      else find_predicate_or_action str
    else if Ascii.eqb c "o" then
      if strcmp (advance 2 str) "st" =? 0 then CLT_PREDICATE
      else find_predicate_or_action str
    else find_predicate_or_action str
  else find_predicate_or_action str.

Definition predicate_has_argument (predicate : Z) : bool :=
  negb (predicate =? LPRED_EXPIRED).

(** The filter builders of filters.h and [find_parse_predicate] of
    rbh-find: they exit the program themselves on error ([None]). *)
Variable rbh_filter : Type.
Variable expired2filter : option rbh_filter.
Variable expired_at2filter : string -> option rbh_filter.
Variable fid2filter : string -> option rbh_filter.
Variable hsm_state2filter : string -> option rbh_filter.
Variable ost_index2filter : string -> option rbh_filter.
Variable find_parse_predicate :
  list string -> nat -> option (rbh_filter * nat).

(** How a call of [lustre_parse_predicate] ends: it returns a filter and
    the new value of [*arg_idx], or the program is gone ([error(EX_USAGE,
    ...)] with its message, an exit of a builder, a failed assertion). *)
Inductive parse_outcome : Type :=
| parsed (filter : rbh_filter) (arg_idx : nat)
| usage (message : string)
| exited.

Definition argv_at (argv : list string) (i : nat) : string :=
  nth i argv EmptyString.

Definition lustre_parse_predicate (argv : list string) (arg_idx : nat)
  : parse_outcome :=
  let i := arg_idx in
  match str2lustre_predicate (argv_at argv i) with
  | None => exited
  | Some predicate =>
      if predicate_has_argument predicate
         && (List.length argv <=? i + 1)%nat then
        usage ("missing argument to `" ++ argv_at argv i ++ "'")
      else
        let built (filter : option rbh_filter) (i : nat) :=
          match filter with
          | Some f => parsed f i
          | None => exited
          end in
        if predicate =? LPRED_EXPIRED then built expired2filter i
        else if predicate =? LPRED_EXPIRED_AT then
          built (expired_at2filter (argv_at argv (i + 1))) (i + 1)%nat
        else if predicate =? LPRED_FID then
          built (fid2filter (argv_at argv (i + 1))) (i + 1)%nat
        else if predicate =? LPRED_HSM_STATE then
          built (hsm_state2filter (argv_at argv (i + 1))) (i + 1)%nat
        else if predicate =? LPRED_OST_INDEX then
          built (ost_index2filter (argv_at argv (i + 1))) (i + 1)%nat
        else
          match find_parse_predicate argv i with
          | Some (f, i') => parsed f i'
          | None => exited
          end
  end.

End Parser.

End FindLustre.

(* ------------------------------------------------------------------------ *)
(** ** Sample inputs

    The concrete values of the scenarios of section 8 of the
    specification. *)

Module Samples.
Import Itertools Mongo.
Local Open Scope Z_scope.
Local Open Scope string_scope.

(** A world where nothing fails, with a clean errno. *)
Definition quiet : world := World 0 [] "".

(** A world where the next library calls turn out as scripted. *)
Definition scripted (script : list bool) : world := World 0 script "".

(** An array iterator over a list, as [rbh_iter_array] builds it. *)
Definition over (A : Type) (l : list A) : array_iterator A :=
  ArrayIterator l 8 (Z.of_nat (List.length l)) 0.

Definition letters : list string := ["a"; "b"; "c"; "d"; "e"].

(** The heap of a tee over [l], as [rbh_iter_tee] builds it. *)
Definition tee_over (A : Type) (l : list A)
  : tee_heap A (array_iterator A) :=
  TeeHeap (over l) (TeeIterator (Some Tee1) [] None)
          (TeeIterator (Some Tee0) [] None).

(** libmongoc 1.17 *)
Definition mongoc_1_17 : version := (1, 17, 0)%nat.

(** libmongoc 1.10, which has no error labels *)
Definition mongoc_1_10 : version := (1, 10, 0)%nat.

Definition X : rbh_id := [Byte.x78].
Definition P1 : rbh_id := [Byte.x70].

Definition link_X : rbh_fsevent unit := Fsevent X (fsevent_link P1 "a").
Definition unlink_X : rbh_fsevent unit := Fsevent X (fsevent_unlink P1 "a").
Definition delete_X : rbh_fsevent unit := Fsevent X fsevent_delete.

(** An empty collection whose server answers every bulk with [reply]. *)
Definition empty_store (reply : exec_reply) : mongo_backend unit :=
  MongoBackend (Collection [] [] (fun _ => reply) (fun _ _ => None) 0).

(** A collection holding a root R and one child of it, on a server that
    answers the root query. *)
Definition R : rbh_id := [Byte.x72].
Definition C : rbh_id := [Byte.x63].

Definition family : mongo_backend unit :=
  MongoBackend
    (Collection [EntryDoc R [([], "")]; EntryDoc C [(R, "child")]] []
                (fun _ => exec_ok)
                (fun docs _ => Some (filter is_root_row (unwind docs)))
                0).

(** A validator that accepts every filter. *)
Definition accept_all (filter : option rbh_filter) (w : world) : Z * world :=
  (0, w).

(** The heap of a tee over ["a"; "b"] once sibling 0 has read "a" and
    could not share it: the element is parked in the slot of sibling 1. *)
Definition tee_parked : tee_heap string (array_iterator string) :=
  TeeHeap (ArrayIterator ["a"; "b"] 8 2 1)
          (TeeIterator (Some Tee1) [] None)
          (TeeIterator (Some Tee0) [] (Some "a")).

(** An iterator over a list, the list being its state, that fails with
    the error [e] where the list ends. *)
Definition failing (A : Type) (e : Z) (l : list A) (w : world)
  : option A * list A * world :=
  match l with
  | x :: l' => (Some x, l', w)
  | [] => (None, [], set_errno e w)
  end.

(** A text with every member of a URI. *)
Definition full_uri : list ascii :=
  list_ascii_of_string "mongo://user@host:27017/db?q=1#top".

(** Values for [enum lustre_predicate], behind the predicates of
    rbh-find. *)
Definition LPRED_EXPIRED : Z := 32.
Definition LPRED_EXPIRED_AT : Z := 33.
Definition LPRED_EXPIRED_ABS : Z := 34.
Definition LPRED_EXPIRED_REL : Z := 35.
Definition LPRED_FID : Z := 36.
Definition LPRED_HSM_STATE : Z := 37.
Definition LPRED_OST_INDEX : Z := 38.
Definition LPRED_MIN : Z := 32.
Definition LPRED_MAX : Z := 39.

(** An rbh-find that knows the predicate -name alone. *)
Definition PRED_NAME : Z := 7.
Definition str2predicate (s : string) : Z := PRED_NAME.
Definition predicate2str (predicate : Z) : option string :=
  if Z.eqb predicate PRED_NAME then Some "name" else None.

Inductive command_line_token : Type := CLT_URI | CLT_PREDICATE | CLT_ACTION.

Definition find_predicate_or_action (s : string) : command_line_token :=
  if String.eqb s "-name" then CLT_PREDICATE else CLT_ACTION.

(** Filters that show what they were built from. *)
Definition built (kind : string) (argument : string) : option string :=
  Some (kind ++ " " ++ argument).

Definition find_parse_predicate (argv : list string) (i : nat)
  : option (string * nat) :=
  Some ("name " ++ nth (i + 1) argv "", (i + 1)%nat).

End Samples.

(* ======================================================================== *)
(** * Properties *)

(* ------------------------------------------------------------------------ *)
(** ** The world *)

Module WorldFacts.

Lemma attempt_errno : forall w, errno (snd (attempt w)) = errno w.
Proof. intros [e [|b f] s]; reflexivity. Qed.

Lemma attempt_backend_error :
  forall w, rbh_backend_error (snd (attempt w)) = rbh_backend_error w.
Proof. intros [e [|b f] s]; reflexivity. Qed.

Lemma attempt_set_errno :
  forall e w, attempt (set_errno e w)
              = (fst (attempt w), set_errno e (snd (attempt w))).
Proof. intros e [e0 [|b f] s]; reflexivity. Qed.

Lemma attempt_reliable :
  forall w, reliable w -> fst (attempt w) = true /\ reliable (snd (attempt w)).
Proof.
  intros [e [|b f] s] H; unfold reliable in *; simpl in *.
  - split; auto.
  - inversion H; subst. split; auto.
Qed.

Lemma malloc_reliable :
  forall w, reliable w ->
            exists w', malloc w = (true, w') /\ reliable w' /\ errno w' = errno w
                       /\ rbh_backend_error w' = rbh_backend_error w.
Proof.
  intros w H. unfold malloc.
  destruct (attempt_reliable H) as [Ht Hr].
  pose proof (attempt_errno w) as He.
  pose proof (attempt_backend_error w) as Hb.
  destruct (attempt w) as [ok w1]; simpl in *; subst ok.
  exists w1; auto.
Qed.

Lemma size_t_small : forall z, (0 <= z < 2 ^ 64)%Z -> size_t z = z.
Proof. intros z Hz. unfold size_t, SIZE_MOD. apply Z.mod_small. lia. Qed.

End WorldFacts.

Import WorldFacts.

(* ------------------------------------------------------------------------ *)
(** ** The URI parser *)

Module UriFacts.
Import Uri.

Local Open Scope string_scope.

(** Scenario S2 of the specification: a URI without authority. *)
Example parse_file_uri :
  forall w,
    let '(rc, uri, m, w') :=
      rbh_parse_raw_uri zero_uri (buffer_of "file:/tmp/x") 0 w in
    rc = 0%Z /\ w' = w
    /\ map (component m)
           [scheme uri; userinfo uri; host uri; port uri; path uri;
            query uri; fragment uri]
       = [Some "file"; None; None; None; Some "/tmp/x"; None; None].
Proof. intros w. cbv. auto. Qed.

(** A scheme must start with a letter and be followed by a colon. *)
Example parse_rejects_bad_scheme :
  forall w,
    let '(rc, _, m, w') :=
      rbh_parse_raw_uri zero_uri (buffer_of "1mongo:foo") 0 w in
    rc = (-1)%Z /\ errno w' = EINVAL /\ m = buffer_of "1mongo:foo".
Proof. intros w. cbv. auto. Qed.

(** C8: parsing "mongo://user:pw@db.example:27017/rbh?x=1#f" succeeds
    (returns 0, errno untouched) and yields scheme "mongo", userinfo
    "user:pw", host "db.example", port "27017", path "/rbh", query "x=1"
    and fragment "f"; every member of the result points into the mutated
    input buffer, at a copy of the component that is followed by a
    terminator. *)
Theorem parse_mongo_uri_scenario :
  forall (uri0 : rbh_raw_uri) (w : world),
  exists (uri : rbh_raw_uri) (m : buffer),
    rbh_parse_raw_uri uri0
      (buffer_of "mongo://user:pw@db.example:27017/rbh?x=1#f") 0 w
    = (0%Z, uri, m, w)
    /\ List.length m
       = List.length (buffer_of "mongo://user:pw@db.example:27017/rbh?x=1#f")
    /\ component m (scheme uri) = Some "mongo"
    /\ component m (userinfo uri) = Some "user:pw"
    /\ component m (host uri) = Some "db.example"
    /\ component m (port uri) = Some "27017"
    /\ component m (path uri) = Some "/rbh"
    /\ component m (query uri) = Some "x=1"
    /\ component m (fragment uri) = Some "f"
    /\ (exists p, scheme uri = Some p /\ clean_substring m p "mongo" = true)
    /\ (exists p, userinfo uri = Some p
                  /\ clean_substring m p "user:pw" = true)
    /\ (exists p, host uri = Some p
                  /\ clean_substring m p "db.example" = true)
    /\ (exists p, port uri = Some p /\ clean_substring m p "27017" = true)
    /\ (exists p, path uri = Some p /\ clean_substring m p "/rbh" = true)
    /\ (exists p, query uri = Some p /\ clean_substring m p "x=1" = true)
    /\ (exists p, fragment uri = Some p /\ clean_substring m p "f" = true).
Proof.
  intros uri0 w.
  eexists. eexists.
  split; [ vm_compute; reflexivity | ].
  repeat split; try (vm_compute; reflexivity);
    eexists; (split; [ reflexivity | vm_compute; reflexivity ]).
Qed.

(** ** The parser on every text *)

Section EveryText.
Local Open Scope list_scope.

(** *** Buffers as lists *)

Lemma load_app :
  forall (P R : list ascii) (p i : nat),
    p = List.length P -> load (P ++ R) (p + i) = load R i.
Proof.
  intros P R p i ->. unfold load.
  rewrite app_nth2 by lia. f_equal. lia.
Qed.

Lemma load_at :
  forall (P R : list ascii) (p : nat),
    p = List.length P -> load (P ++ R) p = load R 0.
Proof.
  intros P R p Hp. rewrite <- (Nat.add_0_r p) at 1.
  apply load_app. exact Hp.
Qed.

Lemma skipn_at :
  forall (P R : list ascii) (p : nat),
    p = List.length P -> skipn p (P ++ R) = R.
Proof.
  intros P R p ->. rewrite skipn_app, skipn_all, Nat.sub_diag. reflexivity.
Qed.

Lemma store_at :
  forall (P R : list ascii) (x c : ascii) (p : nat),
    p = List.length P -> store (P ++ x :: R) p c = P ++ c :: R.
Proof.
  induction P as [|y P IH]; intros R x c p ->; cbn.
  - reflexivity.
  - f_equal. apply IH. reflexivity.
Qed.

Lemma write_at :
  forall (Y X P R : list ascii) (p : nat),
    p = List.length P ->
    List.length X = List.length Y ->
    write (P ++ X ++ R) p Y = P ++ Y ++ R.
Proof.
  induction Y as [|y Y IH]; intros [|x X] P R p Hp Hlen; cbn in Hlen;
    try discriminate; cbn [write app].
  - reflexivity.
  - rewrite store_at by exact Hp.
    replace (P ++ y :: X ++ R) with ((P ++ [y]) ++ X ++ R)
      by (rewrite <- app_assoc; reflexivity).
    rewrite IH; [ rewrite <- app_assoc; reflexivity | | lia ].
    rewrite length_app. cbn. lia.
Qed.

Lemma loads_at :
  forall (X P R : list ascii) (p : nat),
    p = List.length P ->
    map (load (P ++ X ++ R)) (seq p (List.length X)) = X.
Proof.
  induction X as [|x X IH]; intros P R p Hp; cbn [List.length seq map].
  - reflexivity.
  - f_equal.
    + rewrite load_at by exact Hp. reflexivity.
    + replace (P ++ (x :: X) ++ R) with ((P ++ [x]) ++ X ++ R)
        by (rewrite <- app_assoc; reflexivity).
      apply IH. rewrite length_app. cbn. lia.
Qed.

(** *** <string.h> on a text followed by its terminator *)

Lemma nul_free_app :
  forall a b, nul_free (a ++ b) = nul_free a && nul_free b.
Proof. intros a b. apply forallb_app. Qed.

Lemma nul_free_cons :
  forall x a, nul_free (x :: a) = negb (Ascii.eqb x NUL) && nul_free a.
Proof. reflexivity. Qed.

Lemma cstrlen_text :
  forall (t Q : list ascii),
    nul_free t = true -> cstrlen (t ++ NUL :: Q) = List.length t.
Proof.
  induction t as [|x t IH]; intros Q H; cbn [app cstrlen List.length].
  - rewrite Ascii.eqb_refl. reflexivity.
  - rewrite nul_free_cons in H. apply andb_prop in H. destruct H as [Hx Ht].
    apply negb_true_iff in Hx. rewrite Hx. f_equal. apply IH. exact Ht.
Qed.

Lemma cstring_text :
  forall (t Q : list ascii),
    nul_free t = true ->
    cstring (t ++ NUL :: Q) = string_of_list_ascii t.
Proof.
  induction t as [|x t IH]; intros Q H;
    cbn [app cstring string_of_list_ascii].
  - rewrite Ascii.eqb_refl. reflexivity.
  - rewrite nul_free_cons in H. apply andb_prop in H. destruct H as [Hx Ht].
    apply negb_true_iff in Hx. rewrite Hx. f_equal. apply IH. exact Ht.
Qed.

(** The member at [p] reads the text [t] when the buffer holds [t] and a
    terminator there. *)
Lemma component_at :
  forall (m X t Y : list ascii) (p : nat),
    m = X ++ t ++ NUL :: Y ->
    p = List.length X ->
    nul_free t = true ->
    component m (Some p) = Some (string_of_list_ascii t).
Proof.
  intros m X t Y p -> Hp Ht. unfold component. cbn [option_map].
  rewrite skipn_at by exact Hp. rewrite cstring_text by exact Ht.
  reflexivity.
Qed.

Lemma absent_app :
  forall c a b, absent c (a ++ b) <-> absent c a /\ absent c b.
Proof.
  intros c a b. unfold absent. rewrite forallb_app.
  split; [ apply andb_prop | intros [-> ->]; reflexivity ].
Qed.

Lemma absent_cons :
  forall c x a, absent c (x :: a) <-> Ascii.eqb x c = false /\ absent c a.
Proof.
  intros c x a. unfold absent. cbn [forallb].
  split.
  - intros H. apply andb_prop in H. destruct H as [Hx Ha].
    apply negb_true_iff in Hx. auto.
  - intros [-> ->]. reflexivity.
Qed.

(** Every text either has no [c], or splits at its last [c], or at its
    first [c]. *)
Lemma split_last :
  forall (c : ascii) (l : list ascii),
    absent c l
    \/ exists u f, l = u ++ c :: f /\ absent c f.
Proof.
  intros c. induction l as [|x l IH].
  - left. reflexivity.
  - destruct IH as [Habs | (u & f & -> & Hf)].
    + destruct (Ascii.eqb x c) eqn:E.
      * apply Ascii.eqb_eq in E. subst x. right. exists [], l. auto.
      * left. apply absent_cons. auto.
    + right. exists (x :: u), f. auto.
Qed.

Lemma split_first :
  forall (c : ascii) (l : list ascii),
    absent c l
    \/ exists u f, l = u ++ c :: f /\ absent c u.
Proof.
  intros c. induction l as [|x l IH].
  - left. reflexivity.
  - destruct (Ascii.eqb x c) eqn:E.
    + apply Ascii.eqb_eq in E. subst x. right. exists [], l.
      split; reflexivity.
    + destruct IH as [Habs | (u & f & -> & Hu)].
      * left. apply absent_cons. auto.
      * right. exists (x :: u), f. split; [ reflexivity | ].
        apply absent_cons. auto.
Qed.

Lemma find_last_absent :
  forall (c : ascii) (t Q : list ascii) (p : nat) (acc : option nat),
    c <> NUL -> nul_free t = true -> absent c t ->
    find_last c (t ++ NUL :: Q) p acc = acc.
Proof.
  intros c t Q. induction t as [|x t IH]; intros p acc Hc Ht Ha;
    cbn [app find_last].
  - rewrite Ascii.eqb_refl.
    destruct (Ascii.eqb NUL c) eqn:E.
    + apply Ascii.eqb_eq in E. congruence.
    + reflexivity.
  - rewrite nul_free_cons in Ht. apply andb_prop in Ht.
    destruct Ht as [Hx Ht]. apply negb_true_iff in Hx.
    apply absent_cons in Ha. destruct Ha as [Hxc Ha].
    rewrite Hxc, Hx. apply IH; assumption.
Qed.

Lemma find_last_found :
  forall (c : ascii) (u f Q : list ascii) (p : nat) (acc : option nat),
    c <> NUL -> nul_free u = true -> nul_free f = true -> absent c f ->
    find_last c ((u ++ c :: f) ++ NUL :: Q) p acc
    = Some (p + List.length u).
Proof.
  intros c u f Q. induction u as [|x u IH]; intros p acc Hc Hu Hf Ha.
  - cbn [app List.length]. cbn [find_last].
    rewrite Ascii.eqb_refl.
    destruct (Ascii.eqb c NUL) eqn:E.
    + apply Ascii.eqb_eq in E. congruence.
    + rewrite find_last_absent by assumption. f_equal. lia.
  - cbn [app List.length find_last].
    rewrite nul_free_cons in Hu. apply andb_prop in Hu.
    destruct Hu as [Hx Hu]. apply negb_true_iff in Hx. rewrite Hx.
    replace (p + Datatypes.S (List.length u))%nat
      with (Datatypes.S p + List.length u)%nat by lia.
    apply IH; assumption.
Qed.

Lemma find_first_absent :
  forall (c : ascii) (t Q : list ascii) (p : nat),
    c <> NUL -> nul_free t = true -> absent c t ->
    find_first c (t ++ NUL :: Q) p = None.
Proof.
  intros c t Q. induction t as [|x t IH]; intros p Hc Ht Ha;
    cbn [app find_first].
  - destruct (Ascii.eqb NUL c) eqn:E.
    + apply Ascii.eqb_eq in E. congruence.
    + rewrite Ascii.eqb_refl. reflexivity.
  - rewrite nul_free_cons in Ht. apply andb_prop in Ht.
    destruct Ht as [Hx Ht]. apply negb_true_iff in Hx.
    apply absent_cons in Ha. destruct Ha as [Hxc Ha].
    rewrite Hxc, Hx. apply IH; assumption.
Qed.

Lemma find_first_found :
  forall (c : ascii) (u R : list ascii) (p : nat),
    nul_free u = true -> absent c u ->
    find_first c (u ++ c :: R) p = Some (p + List.length u).
Proof.
  intros c u R. induction u as [|x u IH]; intros p Hu Ha.
  - cbn [app List.length find_first]. rewrite Ascii.eqb_refl. f_equal. lia.
  - cbn [app List.length find_first].
    rewrite nul_free_cons in Hu. apply andb_prop in Hu.
    destruct Hu as [Hx Hu]. apply negb_true_iff in Hx.
    apply absent_cons in Ha. destruct Ha as [Hxc Ha].
    rewrite Hxc, Hx.
    replace (p + Datatypes.S (List.length u))%nat
      with (Datatypes.S p + List.length u)%nat by lia.
    apply IH; assumption.
Qed.

Lemma span_stops :
  forall (f : ascii -> bool) (a R : list ascii) (x : ascii),
    forallb f a = true -> f x = false ->
    span f (a ++ x :: R) = List.length a.
Proof.
  intros f a R x. induction a as [|y a IH]; intros Ha Hx; cbn.
  - rewrite Hx. reflexivity.
  - cbn in Ha. apply andb_prop in Ha. destruct Ha as [Hy Ha].
    rewrite Hy. f_equal. apply IH; assumption.
Qed.

Lemma span_split :
  forall (f : ascii -> bool) (l : list ascii),
    exists a r, l = a ++ r /\ forallb f a = true /\ span f l = List.length a
                /\ match r with [] => True | x :: _ => f x = false end.
Proof.
  intros f. induction l as [|y l IH].
  - exists [], []. cbn. auto.
  - destruct (f y) eqn:E.
    + destruct IH as (a & r & -> & Ha & Hs & Hr).
      exists (y :: a), r. cbn. rewrite E, Ha, Hs. auto.
    + exists [], (y :: l). cbn. rewrite E. auto.
Qed.

Lemma cut_last_char :
  forall (c : ascii) (P t Q : list ascii) (p : nat),
    c <> NUL -> nul_free t = true -> p = List.length P ->
    (absent c t
     /\ cut (P ++ t ++ NUL :: Q) (strrchr (P ++ t ++ NUL :: Q) p c)
        = (P ++ t ++ NUL :: Q, None))
    \/ (exists u f,
           t = u ++ c :: f /\ absent c f
           /\ cut (P ++ t ++ NUL :: Q) (strrchr (P ++ t ++ NUL :: Q) p c)
              = (P ++ u ++ NUL :: f ++ NUL :: Q,
                 Some (Datatypes.S (p + List.length u)))).
Proof.
  intros c P t Q p Hc Ht Hp. unfold strrchr.
  rewrite skipn_at by exact Hp.
  destruct (split_last c t) as [Ha | (u & f & -> & Hf)].
  - left. split; [ exact Ha | ].
    rewrite find_last_absent by assumption. reflexivity.
  - right. exists u, f. split; [ reflexivity | ]. split; [ exact Hf | ].
    rewrite nul_free_app, nul_free_cons in Ht.
    apply andb_prop in Ht. destruct Ht as [Hu Ht].
    apply andb_prop in Ht. destruct Ht as [_ Hf'].
    rewrite find_last_found by assumption.
    cbn [cut]. f_equal.
    replace (P ++ (u ++ c :: f) ++ NUL :: Q)
      with ((P ++ u) ++ c :: f ++ NUL :: Q)
      by (repeat rewrite <- app_assoc; reflexivity).
    rewrite store_at by (rewrite length_app; lia).
    rewrite <- app_assoc. reflexivity.
Qed.

Lemma scheme_char_colon : scheme_char ":" = false.
Proof. reflexivity. Qed.

Lemma scheme_char_nul : scheme_char NUL = false.
Proof. reflexivity. Qed.

Lemma string_of_app :
  forall a b : list ascii,
    string_of_list_ascii (a ++ b)
    = (string_of_list_ascii a ++ string_of_list_ascii b)%string.
Proof.
  induction a as [|x a IH]; intros b; cbn; [ | rewrite IH ]; reflexivity.
Qed.

Lemma append_empty_r : forall s : string, String.append s EmptyString = s.
Proof. induction s as [|x s IH]; cbn; [ | rewrite IH ]; reflexivity. Qed.

Lemma nul_free_split :
  forall a b, nul_free (a ++ b) = true ->
              nul_free a = true /\ nul_free b = true.
Proof. intros a b H. rewrite nul_free_app in H. apply andb_prop. exact H. Qed.

Lemma nul_free_tail :
  forall x a, nul_free (x :: a) = true ->
              Ascii.eqb x NUL = false /\ nul_free a = true.
Proof.
  intros x a H. rewrite nul_free_cons in H. apply andb_prop in H.
  destruct H as [Hx Ha]. apply negb_true_iff in Hx. auto.
Qed.

(** A member that points right behind the text [t'] reads what follows
    the terminator of [t'], whatever [t'] holds. *)
Lemma component_behind :
  forall (P t' f Q : list ascii) (q : nat),
    q = Datatypes.S (List.length P + List.length t') ->
    nul_free f = true ->
    component (P ++ t' ++ NUL :: f ++ NUL :: Q) (Some q)
    = Some (string_of_list_ascii f).
Proof.
  intros P t' f Q q Hq Hf.
  apply (@component_at _ (P ++ t' ++ [NUL]) f Q).
  - repeat rewrite <- app_assoc. reflexivity.
  - rewrite !length_app. cbn. lia.
  - exact Hf.
Qed.

(** The two cuts at the last '#' and at the last '?' of what is left. *)
Lemma tail_stage :
  forall (P body post : list ascii) (p : nat)
         (m1 m2 : buffer) (uf uq : option nat),
    nul_free body = true ->
    p = List.length P ->
    cut (P ++ body ++ NUL :: post) (strrchr (P ++ body ++ NUL :: post) p "#")
    = (m1, uf) ->
    cut m1 (strrchr m1 p "?") = (m2, uq) ->
    exists t T Q rest,
      m2 = P ++ t ++ NUL :: Q
      /\ body = t ++ T
      /\ nul_free t = true
      /\ NUL :: Q = rest ++ NUL :: post
      /\ (List.length t + List.length rest = List.length body)%nat
      /\ forall t' : list ascii,
          List.length t' = List.length t ->
          String.append (before (P ++ t' ++ NUL :: Q) "?" uq)
                        (before (P ++ t' ++ NUL :: Q) "#" uf)
          = string_of_list_ascii T.
Proof.
  intros P body post p m1 m2 uf uq Hb Hp E1 E2.
  assert (Hhash : "#"%char <> NUL) by discriminate.
  assert (Hqm : "?"%char <> NUL) by discriminate.
  destruct (@cut_last_char "#" P body post p Hhash Hb Hp)
    as [(Ha & E) | (u & f & -> & Hf & E)];
    rewrite E in E1; injection E1 as <- <-.
  - destruct (@cut_last_char "?" P body post p Hqm Hb Hp)
      as [(Ha' & E') | (u & q & -> & Hq & E')];
      rewrite E' in E2; injection E2 as <- <-.
    + exists body, [], post, []. rewrite app_nil_r.
      repeat split; auto.
    + apply nul_free_split in Hb. destruct Hb as [Hu Hq'].
      apply nul_free_tail in Hq'. destruct Hq' as [_ Hq'].
      exists u, ("?"%char :: q), (q ++ NUL :: post), (NUL :: q).
      split; [ reflexivity | ]. split; [ reflexivity | ].
      split; [ exact Hu | ]. split; [ reflexivity | ].
      split; [ rewrite length_app; cbn; lia | ].
      intros t' Hlen. unfold before, text.
      rewrite component_behind by (auto; lia).
      cbn. rewrite append_empty_r. reflexivity.
  - apply nul_free_split in Hb. destruct Hb as [Hu Hf'].
    apply nul_free_tail in Hf'. destruct Hf' as [_ Hf'].
    destruct (@cut_last_char "?" P u (f ++ NUL :: post) p Hqm Hu Hp)
      as [(Ha' & E') | (u' & q & -> & Hq & E')];
      rewrite E' in E2; injection E2 as <- <-.
    + exists u, ("#"%char :: f), (f ++ NUL :: post), (NUL :: f).
      split; [ reflexivity | ]. split; [ reflexivity | ].
      split; [ exact Hu | ]. split; [ reflexivity | ].
      split; [ rewrite length_app; cbn; lia | ].
      intros t' Hlen. unfold before, text.
      rewrite component_behind by (auto; lia).
      reflexivity.
    + apply nul_free_split in Hu. destruct Hu as [Hu' Hq'].
      apply nul_free_tail in Hq'. destruct Hq' as [_ Hq'].
      exists u', ("?"%char :: q ++ "#"%char :: f),
             (q ++ NUL :: f ++ NUL :: post), (NUL :: q ++ NUL :: f).
      split; [ reflexivity | ].
      split; [ rewrite <- app_assoc; reflexivity | ].
      split; [ exact Hu' | ].
      split; [ cbn; rewrite <- app_assoc; reflexivity | ].
      split; [ rewrite !length_app; cbn; rewrite !length_app; cbn; lia | ].
      intros t' Hlen. unfold before, text.
      rewrite component_behind by (auto; lia).
      replace (P ++ t' ++ NUL :: q ++ NUL :: f ++ NUL :: post)
        with (P ++ (t' ++ NUL :: q) ++ NUL :: f ++ NUL :: post)
        by (rewrite <- app_assoc; reflexivity).
      rewrite component_behind
        by first [ assumption
                 | rewrite ?length_app; cbn [List.length];
                   rewrite ?length_app; cbn [List.length]; lia ].
      cbn. rewrite string_of_app. reflexivity.
Qed.

Lemma strchrnul_text :
  forall (c : ascii) (P t Q : list ascii) (p : nat),
    c <> NUL -> nul_free t = true -> p = List.length P ->
    exists u f,
      t = u ++ f /\ absent c u
      /\ strchrnul (P ++ t ++ NUL :: Q) p c = (p + List.length u)%nat
      /\ (f = [] \/ exists f', f = c :: f').
Proof.
  intros c P t Q p Hc Ht Hp. unfold strchrnul, strchr, strlen.
  rewrite skipn_at by exact Hp.
  destruct (split_first c t) as [Ha | (u & f & -> & Hu)].
  - exists t, []. rewrite app_nil_r.
    rewrite find_first_absent by assumption.
    rewrite cstrlen_text by assumption. auto.
  - exists u, (c :: f).
    apply nul_free_split in Ht. destruct Ht as [Hnu _].
    rewrite <- app_assoc. cbn [app].
    rewrite find_first_found by assumption.
    repeat split; eauto.
Qed.

Lemma shift_authority :
  forall (P au R : list ascii) (p : nat),
    p = List.length P ->
    memset (memmove (P ++ "/"%char :: "/"%char :: au ++ R) p (p + 2)
                    (List.length au))
           (p + List.length au) NUL 2
    = P ++ au ++ NUL :: NUL :: R.
Proof.
  intros P au R p Hp. unfold memmove, memset.
  replace (P ++ "/"%char :: "/"%char :: au ++ R)
    with ((P ++ ["/"%char; "/"%char]) ++ au ++ R) at 2
    by (rewrite <- app_assoc; reflexivity).
  rewrite loads_at by (rewrite length_app; cbn; lia).
  set (head := "/"%char :: "/"%char :: au).
  replace (P ++ "/"%char :: "/"%char :: au ++ R)
    with (P ++ firstn (List.length au) head
            ++ (skipn (List.length au) head ++ R)).
  2: { rewrite (app_assoc (firstn _ _)), firstn_skipn. reflexivity. }
  rewrite write_at;
    [ | exact Hp
      | subst head; rewrite length_firstn; cbn [List.length];
        apply Nat.min_l; lia ].
  replace (P ++ au ++ skipn (List.length au) head ++ R)
    with ((P ++ au) ++ skipn (List.length au) head ++ R)
    by (rewrite <- app_assoc; reflexivity).
  rewrite write_at;
    [ rewrite <- app_assoc; reflexivity
    | rewrite length_app; lia
    | subst head; rewrite length_skipn; cbn [List.length repeat]; lia ].
Qed.

Lemma not_scheme_form_nil : ~ scheme_form [].
Proof. intros (c & a & body & H & _). discriminate H. Qed.

Lemma length_of_string :
  forall l : list ascii,
    String.length (string_of_list_ascii l) = List.length l.
Proof. induction l as [|x l IH]; cbn; [ | rewrite IH ]; reflexivity. Qed.

Lemma app_same_length :
  forall (a a' b b' : list ascii),
    a ++ b = a' ++ b' -> List.length a = List.length a' ->
    a = a' /\ b = b'.
Proof.
  induction a as [|x a IH]; intros [|y a'] b b' H Hl; cbn in *;
    try discriminate; auto.
  injection H as -> H. injection Hl as Hl.
  destruct (IH a' b b' H Hl) as [-> ->]. auto.
Qed.

Ltac flat := repeat first [ rewrite <- app_assoc | progress cbn [app] ].

Ltac lengths :=
  repeat first [ rewrite length_app | progress cbn [List.length] ];
  try lia.

Lemma append_assoc_string :
  forall a b c : string,
    String.append (String.append a b) c
    = String.append a (String.append b c).
Proof.
  induction a as [|x a IH]; intros b c; cbn; [ | rewrite IH ]; reflexivity.
Qed.

(** Puts the pieces of a successful parse together. *)
Lemma assemble :
  forall (pre : list ascii) (c : ascii) (a t T t' Q rest post : list ascii)
         (uq uf ui h po : option nat) (pathpos : nat) (slashes : bool),
    Ascii.eqb c NUL = false -> nul_free a = true ->
    NUL :: Q = rest ++ NUL :: post ->
    (List.length t + List.length rest = List.length (t ++ T))%nat ->
    List.length t' = List.length t ->
    let m' := (pre ++ c :: a ++ [NUL]) ++ t' ++ NUL :: Q in
    String.append (before m' "?" uq) (before m' "#" uf)
    = string_of_list_ascii T ->
    String.append
      (if slashes then
         String.append "//"
           (String.append (after m' ui "@")
              (String.append (text m' h) (before m' ":" po)))
       else EmptyString)
      (text m' (Some pathpos))
    = string_of_list_ascii t ->
    (exists s', m' = pre ++ s' ++ NUL :: post
                /\ List.length s'
                   = List.length (c :: a ++ ":"%char :: t ++ T))
    /\ string_of_list_ascii (c :: a ++ ":"%char :: t ++ T)
       = recompose slashes m'
           (RawUri (Some (List.length pre)) ui h po (Some pathpos) uq uf).
Proof.
  intros pre c a t T t' Q rest post uq uf ui h po pathpos slashes
         Hc Ha HQ Hlen Hlen' m' Htail Hauth.
  split.
  - exists (c :: a ++ NUL :: t' ++ rest). split.
    + subst m'. flat. do 3 f_equal.
      change (NUL :: t' ++ NUL :: Q) with ([NUL] ++ t' ++ NUL :: Q).
      rewrite HQ. flat. reflexivity.
    + rewrite length_app in Hlen. lengths.
  - unfold recompose.
    cbn [scheme userinfo host port path query fragment].
    assert (Hsch : text m' (Some (List.length pre))
                   = string_of_list_ascii (c :: a)).
    { unfold text.
      rewrite (@component_at m' pre (c :: a) (t' ++ NUL :: Q));
        [ reflexivity | subst m'; flat; reflexivity | reflexivity | ].
      rewrite nul_free_cons, Hc, Ha. reflexivity. }
    rewrite Hsch.
    change (c :: a ++ ":"%char :: t ++ T)
      with ((c :: a) ++ ":"%char :: t ++ T).
    rewrite string_of_app. f_equal.
    cbn [string_of_list_ascii String.append]. f_equal.
    rewrite string_of_app, <- Hauth, <- Htail.
    rewrite !append_assoc_string.
    destruct slashes; cbn [String.append]; reflexivity.
Qed.

Ltac texts :=
  repeat first [ rewrite string_of_app
               | rewrite append_assoc_string
               | rewrite append_empty_r
               | progress cbn [string_of_list_ascii String.append] ];
  reflexivity.

Ltac nf_break :=
  repeat match goal with
         | H : nul_free (_ ++ _) = true |- _ =>
             apply nul_free_split in H; destruct H
         | H : nul_free (_ :: _) = true |- _ =>
             apply nul_free_tail in H; destruct H
         end.

(** Reads the member at the end of [X] in a buffer laid out as
    [X ++ t ++ NUL :: Y]. *)
Ltac member X t Y :=
  rewrite (@component_at _ X t Y);
  [ | flat; reflexivity | lengths | first [ assumption | reflexivity ] ].

Lemma host_member :
  forall (X h Y : list ascii) (pos : nat),
    pos = List.length X -> nul_free h = true ->
    let host := if Ascii.eqb (load (X ++ h ++ NUL :: Y) pos) NUL
                then None else Some pos in
    text (X ++ h ++ NUL :: Y) host = string_of_list_ascii h
    /\ (h <> [] -> host <> None).
Proof.
  intros X h Y pos Hpos Hh host. subst host.
  rewrite load_at by exact Hpos.
  destruct h as [|x h]; cbn [app load nth].
  - rewrite Ascii.eqb_refl. split; [ reflexivity | congruence ].
  - pose proof Hh as Hh'. apply nul_free_tail in Hh'.
    destruct Hh' as [Hx _]. rewrite Hx. split; [ | discriminate ].
    unfold text. rewrite (@component_at _ X (x :: h) Y); auto.
Qed.

Lemma parse_master :
  forall (uri0 : rbh_raw_uri) (pre s post : list ascii) (w : world)
         (rc : Z) (uri : rbh_raw_uri) (m' : buffer) (w' : world),
    nul_free s = true ->
    rbh_parse_raw_uri uri0 (pre ++ s ++ NUL :: post) (List.length pre) w
    = (rc, uri, m', w') ->
    (rc = (-1)%Z /\ m' = pre ++ s ++ NUL :: post
     /\ w' = set_errno EINVAL w /\ ~ scheme_form s)
    \/ (rc = 0%Z /\ w' = w /\ scheme_form s
        /\ scheme uri = Some (List.length pre) /\ path uri <> None
        /\ (exists s', m' = pre ++ s' ++ NUL :: post
                       /\ List.length s' = List.length s)
        /\ (string_of_list_ascii s = recompose (has_authority uri) m' uri
            \/ (has_authority uri = false
                /\ string_of_list_ascii s = recompose true m' uri))).
Proof.
  intros uri0 pre s post w rc uri m' w' Hs H.
  unfold rbh_parse_raw_uri in H.
  rewrite load_at in H by reflexivity.
  destruct s as [|c s1].
  { cbn in H. injection H as <- _ <- <-. left.
    repeat split; auto. apply not_scheme_form_nil. }
  cbn [app load nth] in H.
  destruct (isalpha c) eqn:Ealpha; cbn [negb] in H.
  2: { injection H as <- _ <- <-. left. repeat split; auto.
       intros (c' & a & body & Heq & Hal & _). injection Heq as <- _.
       congruence. }
  apply nul_free_tail in Hs. destruct Hs as [Hc Hs1].
  replace (pre ++ c :: s1 ++ NUL :: post)
    with ((pre ++ [c]) ++ s1 ++ NUL :: post) in H
    by (rewrite <- app_assoc; reflexivity).
  rewrite (@skipn_at (pre ++ [c])) in H by lengths.
  destruct (span_split scheme_char s1) as (a & r & -> & Ha & Hspan & Hr).
  assert (Hsp : span scheme_char ((a ++ r) ++ NUL :: post) = List.length a).
  { rewrite <- app_assoc. destruct r as [|x r]; cbn [app].
    - apply span_stops; [ exact Ha | reflexivity ].
    - apply span_stops; assumption. }
  rewrite Hsp in H.
  replace ((pre ++ [c]) ++ (a ++ r) ++ NUL :: post)
    with ((pre ++ c :: a) ++ r ++ NUL :: post) in H
    by (repeat rewrite <- app_assoc; reflexivity).
  rewrite load_at in H by lengths.
  destruct (Ascii.eqb (load (r ++ NUL :: post) 0) ":") eqn:Ecolon;
    cbn [negb] in H.
  2: { injection H as <- _ <- <-. left.
       split; [ reflexivity | ].
       split; [ flat; reflexivity | ].
       split; [ reflexivity | ].
       intros (c' & a' & body & Heq & _ & Ha').
       injection Heq as <- Heq.
       assert (Hlen : List.length a = List.length a').
       { rewrite <- Hspan.
         rewrite Heq. apply span_stops; [ exact Ha' | reflexivity ]. }
       destruct (app_same_length _ _ _ _ Heq Hlen) as [_ ->].
       cbn in Ecolon. discriminate Ecolon. }
  destruct r as [|x body]; [ cbn in Ecolon; discriminate Ecolon | ].
  cbn [app load nth] in Ecolon. apply Ascii.eqb_eq in Ecolon. subst x.
  clear Hr Hsp Hspan.
  apply nul_free_split in Hs1. destruct Hs1 as [Hna Hbody].
  apply nul_free_tail in Hbody. destruct Hbody as [_ Hbody].
  cbn [app] in H.
  rewrite store_at in H by lengths.
  replace ((pre ++ c :: a) ++ NUL :: body ++ NUL :: post)
    with ((pre ++ c :: a ++ [NUL]) ++ body ++ NUL :: post) in H
    by (repeat (rewrite <- app_assoc; cbn [app]); reflexivity).
  set (P := pre ++ c :: a ++ [NUL]) in *.
  set (p := Datatypes.S (Datatypes.S (List.length pre) + List.length a))
    in *.
  assert (Hp : p = List.length P) by (subst p P; lengths).
  clearbody p.
  destruct (cut (P ++ body ++ NUL :: post)
                (strrchr (P ++ body ++ NUL :: post) p "#"))
    as [m1 uf] eqn:E1.
  destruct (cut m1 (strrchr m1 p "?")) as [m2 uq] eqn:E2.
  destruct (tail_stage P body post Hbody Hp E1 E2)
    as (t & T & Q & rest & -> & -> & Ht & HQ & Hlen & Htail).
  clear E1 E2.
  assert (Hform : scheme_form (c :: a ++ ":"%char :: t ++ T))
    by (exists c, a, (t ++ T); auto).
  right.
  rewrite load_at in H by exact Hp.
  replace (Datatypes.S p) with (p + 1)%nat in H by lia.
  rewrite load_app in H by exact Hp.
  destruct (negb (Ascii.eqb (load (t ++ NUL :: Q) 0) "/")
            || negb (Ascii.eqb (load (t ++ NUL :: Q) 1) "/")) eqn:Eslash.
  { (* no authority *)
    injection H as <- <- <- <-.
    destruct (@assemble pre c a t T t Q rest post uq uf None None None p
                false Hc Hna HQ Hlen eq_refl (Htail t eq_refl))
      as [Hs' Hrt].
    { cbn [String.append]. unfold text. fold P.
      rewrite (@component_at _ P t Q); auto. }
    fold P in Hs', Hrt.
    repeat split; auto; try discriminate. }
  apply orb_false_elim in Eslash. destruct Eslash as [Es0 Es1].
  apply negb_false_iff in Es0, Es1.
  destruct t as [|x0 [|x1 t2]]; cbn [app load nth] in Es0, Es1;
    try discriminate.
  apply Ascii.eqb_eq in Es0, Es1. subst x0 x1.
  assert (Hslash : "/"%char <> NUL) by discriminate.
  pose proof Ht as Ht2. nf_break.
  match goal with
  | Hn : nul_free t2 = true |- _ =>
      destruct (@strchrnul_text "/" (P ++ ["/"%char; "/"%char]) t2 Q
                  (p + 2) Hslash Hn ltac:(lengths))
        as (au & pa & -> & Hau & Epath & Hpa)
  end.
  replace ((P ++ ["/"%char; "/"%char]) ++ (au ++ pa) ++ NUL :: Q)
    with (P ++ ("/"%char :: "/"%char :: au ++ pa) ++ NUL :: Q) in Epath
    by (flat; reflexivity).
  rewrite Epath in H.
  nf_break.
  destruct (Nat.eq_dec (List.length au) 0) as [Hz | Hnz].
  { (* the authority is empty *)
    apply length_zero_iff_nil in Hz. subst au.
    cbn [List.length app] in H. rewrite Nat.add_0_r, Nat.eqb_refl in H.
    injection H as <- <- <- <-.
    destruct (@assemble pre c a ("/"%char :: "/"%char :: pa) T
                ("/"%char :: "/"%char :: pa) Q rest post uq uf
                None None None (p + 2) true Hc Hna HQ Hlen eq_refl
                (Htail _ eq_refl))
      as [Hs' Hrt].
    { cbn [String.append after before].
      fold P. unfold text.
      member (P ++ ["/"%char; "/"%char]) pa Q.
      reflexivity. }
    fold P in Hs', Hrt. cbn [app] in *.
    repeat split; auto; try discriminate. }
  (* there is an authority *)
  replace (p + 2 + List.length au =? p + 2)%nat with false in H
    by (symmetry; apply Nat.eqb_neq; lia).
  replace (p + 2 + List.length au - p - 2)%nat with (List.length au) in H
    by lia.
  replace (p + 2 + List.length au - 2)%nat with (p + List.length au)%nat
    in H by lia.
  replace (P ++ ("/"%char :: "/"%char :: au ++ pa) ++ NUL :: Q)
    with (P ++ "/"%char :: "/"%char :: au ++ pa ++ NUL :: Q) in H
    by (flat; reflexivity).
  rewrite shift_authority in H by exact Hp.
  assert (Hat : "@"%char <> NUL) by discriminate.
  assert (Hco : ":"%char <> NUL) by discriminate.
  set (R := NUL :: pa ++ NUL :: Q) in *.
  unfold strchr in H. rewrite skipn_at in H by exact Hp.
  destruct (split_first "@" au) as [Hno | (ui & hp & -> & Hui)].
  - (* no userinfo *)
    rewrite find_first_absent in H by assumption.
    destruct (@cut_last_char ":" P au R p Hco ltac:(assumption) Hp)
      as [(Hnc & E) | (h & po & -> & Hpo & E)];
      rewrite E in H; injection H as <- <- <- <-.
    + (* no port *)
      destruct (@host_member P au R p Hp ltac:(assumption)) as [Hh Hsome].
      specialize (Hsome ltac:(intros ->; apply Hnz; reflexivity)).
      set (host := if Ascii.eqb (load (P ++ au ++ NUL :: R) p) NUL
                   then None else Some p) in *.
      assert (Hm : P ++ au ++ NUL :: R
                   = P ++ (au ++ NUL :: NUL :: pa) ++ NUL :: Q)
        by (subst R; flat; reflexivity).
      destruct (@assemble pre c a ("/"%char :: "/"%char :: au ++ pa) T
                  (au ++ NUL :: NUL :: pa) Q rest post uq uf
                  None host None (p + 2 + List.length au) true Hc Hna HQ
                  Hlen ltac:(lengths)
                  (Htail (au ++ NUL :: NUL :: pa) ltac:(lengths)))
        as [Hs' Hrt].
      { fold P. rewrite <- Hm.
        cbn [String.append after before]. rewrite Hh.
        unfold text. subst R.
        member (P ++ au ++ [NUL; NUL]) pa Q.
        texts. }
      fold P in Hs', Hrt. rewrite <- Hm in Hs', Hrt.
      assert (Hauth : has_authority
                        (RawUri (Some (List.length pre)) None host None
                                (Some (p + 2 + List.length au)) uq uf)
                      = true).
      { unfold has_authority. cbn [userinfo host port Uri.host].
        destruct host; [ reflexivity | congruence ]. }
      rewrite Hauth.
      repeat split; auto; try discriminate.
    + (* a port *)
      nf_break.
      destruct (@host_member P h (po ++ NUL :: R) p Hp ltac:(assumption))
        as [Hh _].
      set (host := if Ascii.eqb (load (P ++ h ++ NUL :: po ++ NUL :: R) p)
                                NUL
                   then None else Some p) in *.
      assert (Hm : P ++ h ++ NUL :: po ++ NUL :: R
                   = P ++ (h ++ NUL :: po ++ NUL :: NUL :: pa) ++ NUL :: Q)
        by (subst R; flat; reflexivity).
      destruct (@assemble pre c a
                  ("/"%char :: "/"%char :: (h ++ ":"%char :: po) ++ pa) T
                  (h ++ NUL :: po ++ NUL :: NUL :: pa) Q rest post uq uf
                  None host (Some (Datatypes.S (p + List.length h)))
                  (p + 2 + List.length (h ++ ":"%char :: po)) true Hc Hna
                  HQ Hlen ltac:(lengths)
                  (Htail (h ++ NUL :: po ++ NUL :: NUL :: pa)
                         ltac:(lengths)))
        as [Hs' Hrt].
      { fold P. rewrite <- Hm.
        cbn [String.append after before]. rewrite Hh.
        unfold text. subst R.
        member (P ++ h ++ [NUL]) po (NUL :: pa ++ NUL :: Q).
        member (P ++ h ++ NUL :: po ++ [NUL; NUL]) pa Q.
        texts. }
      fold P in Hs', Hrt. rewrite <- Hm in Hs', Hrt.
      assert (Hauth : has_authority
                        (RawUri (Some (List.length pre)) None host
                           (Some (Datatypes.S (p + List.length h)))
                           (Some (p + 2
                                  + List.length (h ++ ":"%char :: po)))
                           uq uf)
                      = true).
      { unfold has_authority. cbn [userinfo Uri.host port].
        destruct host; reflexivity. }
      rewrite Hauth.
      repeat split; auto; try discriminate.
  - (* a userinfo *)
    nf_break.
    replace ((ui ++ "@"%char :: hp) ++ NUL :: R)
      with (ui ++ "@"%char :: hp ++ NUL :: R) in H by (flat; reflexivity).
    rewrite find_first_found in H by assumption.
    cbv beta iota zeta in H.
    replace (P ++ ui ++ "@"%char :: hp ++ NUL :: R)
      with ((P ++ ui) ++ "@"%char :: hp ++ NUL :: R) in H
      by (flat; reflexivity).
    rewrite store_at in H by lengths.
    replace ((P ++ ui) ++ NUL :: hp ++ NUL :: R)
      with ((P ++ ui ++ [NUL]) ++ hp ++ NUL :: R) in H
      by (flat; reflexivity).
    destruct (@cut_last_char ":" (P ++ ui ++ [NUL]) hp R
                (Datatypes.S (p + List.length ui)) Hco ltac:(assumption)
                ltac:(lengths))
      as [(Hnc & E) | (h & po & -> & Hpo & E)];
      rewrite E in H; injection H as <- <- <- <-.
    + (* no port *)
      destruct (@host_member (P ++ ui ++ [NUL]) hp R
                  (Datatypes.S (p + List.length ui)) ltac:(lengths)
                  ltac:(assumption)) as [Hh _].
      set (host := if Ascii.eqb
                        (load ((P ++ ui ++ [NUL]) ++ hp ++ NUL :: R)
                              (Datatypes.S (p + List.length ui))) NUL
                   then None
                   else Some (Datatypes.S (p + List.length ui))) in *.
      assert (Hm : (P ++ ui ++ [NUL]) ++ hp ++ NUL :: R
                   = P ++ (ui ++ NUL :: hp ++ NUL :: NUL :: pa) ++ NUL :: Q)
        by (subst R; flat; reflexivity).
      destruct (@assemble pre c a
                  ("/"%char :: "/"%char :: (ui ++ "@"%char :: hp) ++ pa) T
                  (ui ++ NUL :: hp ++ NUL :: NUL :: pa) Q rest post uq uf
                  (Some p) host None
                  (p + 2 + List.length (ui ++ "@"%char :: hp)) true Hc Hna
                  HQ Hlen ltac:(lengths)
                  (Htail (ui ++ NUL :: hp ++ NUL :: NUL :: pa)
                         ltac:(lengths)))
        as [Hs' Hrt].
      { fold P. rewrite <- Hm.
        cbn [String.append after before]. rewrite Hh.
        unfold text. subst R.
        member P ui (hp ++ NUL :: NUL :: pa ++ NUL :: Q).
        member (P ++ ui ++ NUL :: hp ++ [NUL; NUL]) pa Q.
        texts. }
      fold P in Hs', Hrt. rewrite <- Hm in Hs', Hrt.
      repeat split; auto; try discriminate.
    + (* a port *)
      nf_break.
      destruct (@host_member (P ++ ui ++ [NUL]) h (po ++ NUL :: R)
                  (Datatypes.S (p + List.length ui)) ltac:(lengths)
                  ltac:(assumption)) as [Hh _].
      set (host := if Ascii.eqb
                        (load ((P ++ ui ++ [NUL]) ++ h ++ NUL :: po
                                 ++ NUL :: R)
                              (Datatypes.S (p + List.length ui))) NUL
                   then None
                   else Some (Datatypes.S (p + List.length ui))) in *.
      assert (Hm : (P ++ ui ++ [NUL]) ++ h ++ NUL :: po ++ NUL :: R
                   = P ++ (ui ++ NUL :: h ++ NUL :: po ++ NUL :: NUL :: pa)
                       ++ NUL :: Q)
        by (subst R; flat; reflexivity).
      destruct (@assemble pre c a
                  ("/"%char :: "/"%char
                     :: (ui ++ "@"%char :: h ++ ":"%char :: po) ++ pa) T
                  (ui ++ NUL :: h ++ NUL :: po ++ NUL :: NUL :: pa) Q rest
                  post uq uf
                  (Some p) host
                  (Some (Datatypes.S
                           (Datatypes.S (p + List.length ui)
                            + List.length h)))
                  (p + 2
                   + List.length (ui ++ "@"%char :: h ++ ":"%char :: po))
                  true Hc Hna HQ Hlen ltac:(lengths)
                  (Htail (ui ++ NUL :: h ++ NUL :: po ++ NUL :: NUL :: pa)
                         ltac:(lengths)))
        as [Hs' Hrt].
      { fold P. rewrite <- Hm.
        cbn [String.append after before]. rewrite Hh.
        unfold text. subst R.
        member P ui (h ++ NUL :: po ++ NUL :: NUL :: pa ++ NUL :: Q).
        member (P ++ ui ++ NUL :: h ++ [NUL]) po (NUL :: pa ++ NUL :: Q).
        member (P ++ ui ++ NUL :: h ++ NUL :: po ++ [NUL; NUL]) pa Q.
        texts. }
      fold P in Hs', Hrt. rewrite <- Hm in Hs', Hrt.
      repeat split; auto; try discriminate.
Qed.

(** X1: the parser accepts exactly the texts that start with a scheme and
    its colon. It then returns 0 and leaves errno alone, with the scheme
    member at the start of the text and a path member that is never NULL.
    Otherwise it returns -1 with errno EINVAL and the buffer is as it was. *)
Theorem parse_raw_uri_accepts_exactly_a_scheme :
  forall (uri0 : rbh_raw_uri) (pre s post : list ascii) (w : world),
    nul_free s = true ->
    let '(rc, uri, m', w') :=
      rbh_parse_raw_uri uri0 (pre ++ s ++ NUL :: post) (List.length pre) w in
    (scheme_form s /\ rc = 0%Z /\ w' = w
     /\ scheme uri = Some (List.length pre) /\ path uri <> None)
    \/ (~ scheme_form s /\ rc = (-1)%Z /\ w' = set_errno EINVAL w
        /\ m' = pre ++ s ++ NUL :: post).
Proof.
  intros uri0 pre s post w Hs.
  destruct (rbh_parse_raw_uri uri0 (pre ++ s ++ NUL :: post)
                              (List.length pre) w)
    as [[[rc uri] m'] w'] eqn:H.
  destruct (parse_master _ _ _ _ _ Hs H)
    as [(-> & -> & -> & Hno) | (-> & -> & Hform & Hsch & Hpath & _)];
    [ right | left ]; auto.
Qed.

(** X2: the parser works inside the text it is given: whatever it finds, the
    bytes before the text, the terminator of the text and the bytes behind
    it are untouched, and the buffer keeps its length. *)
Theorem parse_raw_uri_stays_inside_the_text :
  forall (uri0 : rbh_raw_uri) (pre s post : list ascii) (w : world),
    nul_free s = true ->
    exists s' : list ascii,
      snd (fst (rbh_parse_raw_uri uri0 (pre ++ s ++ NUL :: post)
                                  (List.length pre) w))
      = pre ++ s' ++ NUL :: post
      /\ List.length s' = List.length s.
Proof.
  intros uri0 pre s post w Hs.
  destruct (rbh_parse_raw_uri uri0 (pre ++ s ++ NUL :: post)
                              (List.length pre) w)
    as [[[rc uri] m'] w'] eqn:H.
  cbn [fst snd].
  destruct (parse_master _ _ _ _ _ Hs H)
    as [(_ & -> & _) | (_ & _ & _ & _ & _ & Hs' & _)].
  - exists s. auto.
  - exact Hs'.
Qed.

(** X3: nothing of an accepted text is lost but the difference between an
    empty authority and none: writing the members back in the generic syntax
    scheme:[//[userinfo@]host[:port]]path[?query][#fragment], with the two
    slashes when a member of the authority is there, gives the text that was
    parsed; or no member of the authority is there and the text is the one
    with the two slashes. *)
Theorem parse_raw_uri_round_trip :
  forall (uri0 : rbh_raw_uri) (pre s post : list ascii) (w : world)
         (uri : rbh_raw_uri) (m' : buffer) (w' : world),
    nul_free s = true ->
    rbh_parse_raw_uri uri0 (pre ++ s ++ NUL :: post) (List.length pre) w
    = (0%Z, uri, m', w') ->
    recompose (has_authority uri) m' uri = string_of_list_ascii s
    \/ (has_authority uri = false
        /\ recompose true m' uri = string_of_list_ascii s).
Proof.
  intros uri0 pre s post w uri m' w' Hs H.
  destruct (parse_master _ _ _ _ _ Hs H)
    as [(Hrc & _) | (_ & _ & _ & _ & _ & _ & [Hrt | [Hno Hrt]])].
  - discriminate Hrc.
  - left. symmetry. exact Hrt.
  - right. split; [ exact Hno | symmetry; exact Hrt ].
Qed.

End EveryText.

End UriFacts.

(* ------------------------------------------------------------------------ *)
(** ** The iterator combinators *)

Module ItertoolsFacts.
Import Itertools.
Local Open Scope Z_scope.

Section Array.
Variable A : Type.

(** An array iterator over a region of [count] elements yields the
    elements from [index] on, in order. *)
Lemma array_iter_stream :
  forall (l : list A) (element_size : Z) (n i : nat),
    (i + n = List.length l)%nat ->
    Z.of_nat (List.length l) < 2 ^ 64 ->
    yields (@array_iter_next A)
           (ArrayIterator l element_size (Z.of_nat (List.length l))
                          (Z.of_nat i))
           (skipn i l).
Proof.
  intros l esz n. induction n as [|n IH]; intros i Hi Hl.
  - rewrite skipn_all2 by lia. cbn [yields]. intros w.
    unfold array_iter_next. cbn [index count].
    destruct (Z.ltb_spec (Z.of_nat i) (Z.of_nat (List.length l)));
      [ lia | reflexivity ].
  - destruct (skipn i l) as [|x rest] eqn:Eskip.
    { apply (f_equal (@List.length A)) in Eskip.
      rewrite length_skipn in Eskip. cbn in Eskip. lia. }
    cbn [yields].
    exists (ArrayIterator l esz (Z.of_nat (List.length l))
                          (Z.of_nat (Datatypes.S i))).
    split.
    + intros w. unfold array_iter_next. cbn [index count array size].
      destruct (Z.ltb_spec (Z.of_nat i) (Z.of_nat (List.length l)));
        [ | lia ].
      rewrite Nat2Z.id, size_t_small by lia.
      replace (Z.of_nat i + 1) with (Z.of_nat (Datatypes.S i)) by lia.
      replace (nth_error l i) with (Some x); [ reflexivity | ].
      rewrite <- (Nat.add_0_r i), <- nth_error_skipn, Eskip. reflexivity.
    + replace rest with (skipn (Datatypes.S i) l).
      * apply IH; lia.
      * replace (Datatypes.S i) with (1 + i)%nat by lia.
        rewrite <- skipn_skipn, Eskip. reflexivity.
Qed.

Lemma rbh_iter_array_stream :
  forall (l : list A) (element_size : Z) (w : world),
    Z.of_nat (List.length l) < 2 ^ 64 ->
    reliable w ->
    exists it w',
      rbh_iter_array l element_size (Z.of_nat (List.length l)) w
      = (Some it, w')
      /\ yields (@array_iter_next A) it l
      /\ reliable w' /\ errno w' = errno w.
Proof.
  intros l esz w Hl Hw. unfold rbh_iter_array.
  destruct (malloc_reliable Hw) as (w' & -> & Hw' & He & _).
  eexists _, w'. split; [ reflexivity | ].
  split; [ | auto ].
  apply (array_iter_stream l esz (List.length l) 0); [ lia | exact Hl ].
Qed.

End Array.

Section Chunkify.
Variable A : Type.
Variable S : Type.
Variable rbh_iter_next : S -> world -> ptr A * S * world.

Abbreviation stream := (yields rbh_iter_next).

(** A chunk that has handed out its first element yields the next
    [chunk_count] elements of the stream, or what is left of it, and then
    ends with no-more-data. *)
Lemma drain_chunk_started :
  forall (l : list A) (fuel : nat) (first : ptr A) (c : Z) (s : S) (w : world),
    stream s l ->
    0 <= c < 2 ^ 64 ->
    (List.length l < fuel)%nat ->
    exists s',
      drain_chunk rbh_iter_next fuel (ChunkIterator first c true) s w
      = Some (firstn (Z.to_nat c) l, s', set_errno ENODATA w)
      /\ stream s' (skipn (Z.to_nat c) l).
Proof.
  induction l as [|x l IH]; intros fuel first c s w Hs Hc Hfuel;
    (destruct fuel as [|fuel]; [ cbn in Hfuel; lia | ]);
    cbn [drain_chunk]; unfold chunk_iter_next; cbn [chunk_once negb chunk_count].
  - rewrite firstn_nil, skipn_nil.
    destruct (Z.eqb_spec c 0) as [->|Hc0].
    + exists s. split; [ reflexivity | exact Hs ].
    + cbn in Hs. rewrite Hs. cbn. exists s. split; [ reflexivity | exact Hs ].
  - destruct (Z.eqb_spec c 0) as [->|Hc0].
    + exists s. split; [ reflexivity | exact Hs ].
    + destruct Hs as (s1 & Hnext & Hs1). rewrite Hnext.
      cbn [is_null negb orb errno set_errno Z.eqb chunk_first chunk_count
           chunk_once].
      rewrite size_t_small by lia.
      replace (set_errno (errno w) (set_errno 0 w)) with w
        by (destruct w; reflexivity).
      cbn [List.length] in Hfuel.
      destruct (IH fuel first (c - 1) s1 w Hs1) as (s' & -> & Hs');
        [ lia | lia | ].
      exists s'.
      replace (Z.to_nat c) with (Datatypes.S (Z.to_nat (c - 1))) by lia.
      split; [ reflexivity | exact Hs' ].
Qed.

(** A fresh chunk first hands out the element the outer iterator read for
    it. *)
Lemma drain_chunk_fresh :
  forall (l : list A) (fuel : nat) (x : A) (c : Z) (s : S) (w : world),
    stream s l ->
    0 <= c < 2 ^ 64 ->
    (Datatypes.S (List.length l) < fuel)%nat ->
    exists s',
      drain_chunk rbh_iter_next fuel (ChunkIterator (Some x) c false) s w
      = Some (x :: firstn (Z.to_nat c) l, s', set_errno ENODATA w)
      /\ stream s' (skipn (Z.to_nat c) l).
Proof.
  intros l fuel x c s w Hs Hc Hfuel.
  destruct fuel as [|fuel]; [ lia | ].
  cbn [drain_chunk]. unfold chunk_iter_next at 1.
  cbn [chunk_once negb chunk_first chunk_count].
  destruct (@drain_chunk_started l fuel (Some x) c s w Hs Hc) as (s' & -> & Hs');
    [ lia | ].
  exists s'. split; [ reflexivity | exact Hs' ].
Qed.

Lemma chunked_enough :
  forall (k : nat) (fuel1 fuel2 : nat) (l : list A),
    (0 < k)%nat ->
    (List.length l <= fuel1)%nat ->
    (List.length l <= fuel2)%nat ->
    chunked fuel1 k l = chunked fuel2 k l.
Proof.
  intros k fuel1. induction fuel1 as [|fuel1 IH]; intros fuel2 l Hk H1 H2.
  - destruct l; [ destruct fuel2; reflexivity | cbn in H1; lia ].
  - destruct l as [|x l]; [ destruct fuel2; reflexivity | ].
    destruct fuel2 as [|fuel2]; [ cbn in H2; lia | ].
    cbn [chunked]. f_equal.
    assert (Hs : (List.length (skipn k (x :: l)) <= List.length l)%nat).
    { rewrite length_skipn. cbn [List.length]. lia. }
    cbn [List.length] in H1, H2.
    apply IH; lia.
Qed.

Lemma chunked_concat :
  forall (k : nat) (fuel : nat) (l : list A),
    (0 < k)%nat ->
    (List.length l <= fuel)%nat ->
    List.concat (chunked fuel k l) = l.
Proof.
  intros k fuel. induction fuel as [|fuel IH]; intros l Hk Hl.
  - destruct l; [ reflexivity | cbn in Hl; lia ].
  - cbn [chunked]. destruct l as [|x l]; [ reflexivity | ].
    cbn [List.concat]. rewrite IH; [ apply firstn_skipn | exact Hk | ].
    rewrite length_skipn. cbn [List.length] in *. lia.
Qed.

Lemma chunked_bounded :
  forall (k : nat) (fuel : nat) (l : list A),
    (0 < k)%nat ->
    Forall (fun c => (1 <= List.length c <= k)%nat) (chunked fuel k l).
Proof.
  intros k fuel. induction fuel as [|fuel IH]; intros l Hk; cbn [chunked].
  - constructor.
  - destruct l as [|x l]; [ constructor | ].
    constructor; [ | apply IH; exact Hk ].
    rewrite length_firstn. cbn [List.length]. lia.
Qed.

(** Chunkify over a stream, every chunk drained before the next one is
    asked for: the chunks are the runs of [k] elements of the stream. *)
Lemma collect_chunks_stream :
  forall (k : Z) (fuel : nat) (l : list A) (s : S) (w : world),
    0 < k < 2 ^ 64 ->
    stream s l ->
    reliable w ->
    (List.length l < fuel)%nat ->
    exists s' w',
      collect_chunks rbh_iter_next fuel (ChunkifyIterator k) s w
      = Some (chunked fuel (Z.to_nat k) l, s', w')
      /\ stream s' [] /\ errno w' = ENODATA /\ reliable w'.
Proof.
  intros k fuel. induction fuel as [|fuel IH]; intros l s w Hk Hs Hw Hfuel;
    [ lia | ].
  cbn [collect_chunks chunked]. unfold chunkify_iter_next.
  cbn [chunkify_chunk].
  destruct l as [|x l].
  - cbn in Hs. rewrite Hs. cbn.
    exists s, (set_errno ENODATA (set_errno 0 w)).
    repeat split; auto.
  - destruct Hs as (s1 & Hnext & Hs1). rewrite Hnext.
    cbn [is_null andb].
    assert (Hw0 : reliable (set_errno (errno w) (set_errno 0 w))) by exact Hw.
    destruct (malloc_reliable Hw0) as (w1 & -> & Hw1 & _ & _).
    cbn [negb]. rewrite size_t_small by lia.
    cbn [List.length] in Hfuel.
    destruct (@drain_chunk_fresh l (Datatypes.S fuel) x (k - 1) s1 w1 Hs1)
      as (s2 & -> & Hs2); [ lia | lia | ].
    destruct (IH (skipn (Z.to_nat (k - 1)) l) s2 (set_errno ENODATA w1)
                 Hk Hs2 Hw1) as (s3 & w3 & -> & Hs3 & He3 & Hw3).
    { rewrite length_skipn. lia. }
    exists s3, w3. split; [ | auto ].
    replace (Z.to_nat k) with (Datatypes.S (Z.to_nat (k - 1))) by lia.
    reflexivity.
Qed.

(** A chunk size of 0 is refused with EINVAL. *)
Example rbh_iter_chunkify_zero :
  forall w : world,
    rbh_iter_chunkify 0 w = (None, set_errno EINVAL w).
Proof. intros w. reflexivity. Qed.

(** C4: chunkify totality. For a stream of n elements and a chunk size k
    (0 < k, a size_t), when no allocation fails and every chunk is drained
    before the next one is requested, the outer iterator ends after finitely
    many chunks; each chunk yielded at least one and at most k elements and
    then ended; the chunks are the successive runs of k elements of the
    stream; and their concatenation is the stream itself. *)
Theorem chunkify_totality :
  forall (k : Z) (l : list A) (s : S) (w : world) (fuel : nat),
    0 < k < 2 ^ 64 ->
    stream s l ->
    reliable w ->
    (List.length l < fuel)%nat ->
    exists chunks s' w',
      collect_chunks rbh_iter_next fuel (ChunkifyIterator k) s w
      = Some (chunks, s', w')
      /\ List.concat chunks = l
      /\ Forall (fun c => (1 <= List.length c <= Z.to_nat k)%nat) chunks
      /\ chunks = chunked (List.length l) (Z.to_nat k) l
      /\ errno w' = ENODATA.
Proof.
  intros k l s w fuel Hk Hs Hw Hfuel.
  destruct (@collect_chunks_stream k fuel l s w Hk Hs Hw Hfuel)
    as (s' & w' & Hrun & _ & He & _).
  exists (chunked fuel (Z.to_nat k) l), s', w'.
  split; [ exact Hrun | ].
  split; [ apply chunked_concat; lia | ].
  split; [ apply chunked_bounded; lia | ].
  split; [ | exact He ].
  apply chunked_enough; lia.
Qed.

(** Advancing the outer iterator on a stream that is not over reads one
    element, the first of the new chunk, and leaves errno alone. *)
Lemma chunkify_next_stream :
  forall (k : Z) (x : A) (l : list A) (s : S) (w : world),
    0 < k < 2 ^ 64 ->
    stream s (x :: l) ->
    reliable w ->
    exists s1 w1,
      chunkify_iter_next rbh_iter_next (ChunkifyIterator k) s w
      = (Some (ChunkIterator (Some x) (k - 1) false), s1, w1)
      /\ stream s1 l /\ errno w1 = errno w /\ reliable w1.
Proof.
  intros k x l s w Hk (s1 & Hnext & Hs1) Hw.
  unfold chunkify_iter_next. rewrite Hnext. cbn [is_null andb chunkify_chunk].
  assert (Hw0 : reliable (set_errno (errno w) (set_errno 0 w))) by exact Hw.
  destruct (malloc_reliable Hw0) as (w1 & -> & Hw1 & He & _).
  cbn [negb]. rewrite size_t_small by lia.
  exists s1, w1. repeat split; auto.
Qed.

(** Each further call on a chunk reads one element of the stream. *)
Lemma chunk_take_started :
  forall (j : nat) (l : list A) (first : ptr A) (c : Z) (s : S) (w : world),
    stream s l ->
    Z.of_nat j <= c < 2 ^ 64 ->
    (j <= List.length l)%nat ->
    exists s',
      chunk_take rbh_iter_next j (ChunkIterator first c true) s w
      = (map Some (firstn j l),
         ChunkIterator first (c - Z.of_nat j) true, s', w)
      /\ stream s' (skipn j l).
Proof.
  induction j as [|j IH]; intros l first c s w Hs Hc Hj.
  - cbn. rewrite Z.sub_0_r. exists s. auto.
  - destruct l as [|x l]; [ cbn in Hj; lia | ].
    destruct Hs as (s1 & Hnext & Hs1).
    cbn [chunk_take]. unfold chunk_iter_next.
    cbn [chunk_once negb chunk_count chunk_first].
    destruct (Z.eqb_spec c 0); [ lia | ].
    rewrite Hnext.
    cbn [is_null negb orb errno set_errno Z.eqb].
    rewrite size_t_small by lia.
    replace (set_errno (errno w) (set_errno 0 w)) with w
      by (destruct w; reflexivity).
    cbn [List.length] in Hj.
    destruct (IH l first (c - 1) s1 w Hs1) as (s' & -> & Hs'); [ lia | lia | ].
    exists s'. split; [ | exact Hs' ].
    replace (c - Z.of_nat (Datatypes.S j)) with (c - 1 - Z.of_nat j) by lia.
    reflexivity.
Qed.

(** C3, as the code has it: the chunks share the cursor of the underlying
    stream, and the outer iterator reads through it too. On a stream
    x :: l, with a chunk size k (0 < k, a size_t) and no allocation failure:
    advancing the outer iterator reads exactly one element, x, and keeps it
    as the first element of the new chunk; errno is left alone. The first
    call on the chunk returns x and reads nothing; every later call reads
    one element: after j calls (j <= k, j within the stream) the chunk has
    returned the first j elements and the stream has lost max(1, j)
    elements. Advancing the outer iterator at that point, whether or not the
    chunk was exhausted, starts a chunk whose first element is the next
    element of the stream that was not read: nothing of the stream is
    dropped. *)
Theorem chunkify_shared_cursor :
  forall (k : Z) (x : A) (l : list A) (s : S) (w : world),
    0 < k < 2 ^ 64 ->
    stream s (x :: l) ->
    reliable w ->
    exists s1 w1,
      let chunk := ChunkIterator (Some x) (k - 1) false in
      chunkify_iter_next rbh_iter_next (ChunkifyIterator k) s w
      = (Some chunk, s1, w1)
      /\ stream s1 l
      /\ errno w1 = errno w
      /\ forall j : nat,
          (j <= Z.to_nat k)%nat ->
          (j <= List.length (x :: l))%nat ->
          exists chunk' s2,
            chunk_take rbh_iter_next j chunk s1 w1
            = (map Some (firstn j (x :: l)), chunk', s2, w1)
            /\ stream s2 (skipn (Nat.max 1 j) (x :: l))
            /\ forall y rest,
                skipn (Nat.max 1 j) (x :: l) = y :: rest ->
                exists s3 w3,
                  chunkify_iter_next rbh_iter_next (ChunkifyIterator k) s2 w1
                  = (Some (ChunkIterator (Some y) (k - 1) false), s3, w3)
                  /\ stream s3 rest.
Proof.
  intros k x l s w Hk Hs Hw.
  destruct (@chunkify_next_stream k x l s w Hk Hs Hw)
    as (s1 & w1 & Hadv & Hs1 & He & Hw1).
  exists s1, w1. cbn zeta.
  split; [ exact Hadv | ]. split; [ exact Hs1 | ]. split; [ exact He | ].
  intros j Hjk Hjl.
  assert (Hnew : forall s2, stream s2 (skipn (Nat.max 1 j) (x :: l)) ->
            forall y rest,
              skipn (Nat.max 1 j) (x :: l) = y :: rest ->
              exists s3 w3,
                chunkify_iter_next rbh_iter_next (ChunkifyIterator k) s2 w1
                = (Some (ChunkIterator (Some y) (k - 1) false), s3, w3)
                /\ stream s3 rest).
  { intros s2 Hs2 y rest E. rewrite E in Hs2.
    destruct (@chunkify_next_stream k y rest s2 w1 Hk Hs2 Hw1)
      as (s3 & w3 & H3 & Hs3 & _).
    exists s3, w3. auto. }
  destruct j as [|j].
  - exists (ChunkIterator (Some x) (k - 1) false), s1.
    split; [ reflexivity | ]. split; [ exact Hs1 | ].
    apply Hnew. exact Hs1.
  - cbn [chunk_take]. unfold chunk_iter_next at 1.
    cbn [chunk_once negb chunk_first chunk_count].
    cbn [List.length] in Hjl.
    destruct (@chunk_take_started j l (Some x) (k - 1) s1 w1 Hs1)
      as (s2 & -> & Hs2); [ lia | lia | ].
    replace (Nat.max 1 (Datatypes.S j)) with (Datatypes.S j) in * by lia.
    exists (ChunkIterator (Some x) (k - 1 - Z.of_nat j) true), s2.
    split; [ reflexivity | ]. split; [ exact Hs2 | ].
    apply Hnew. exact Hs2.
Qed.

End Chunkify.

Section Tee.
Variable A : Type.
Variable S : Type.
Variable rbh_iter_next : S -> world -> ptr A * S * world.

Abbreviation source := (yields rbh_iter_next).
Abbreviation heap := (tee_heap A S).
Abbreviation invariant := (tee_invariant rbh_iter_next).

Lemma observed_app :
  forall (t : side) (a b : list (side * ptr A)),
    observed t (a ++ b) = observed t a ++ observed t b.
Proof.
  intros t a b. induction a as [|[t' [x|]] a IH]; cbn [observed app].
  - reflexivity.
  - destruct (side_eqb t t'); cbn [app]; rewrite IH; reflexivity.
  - exact IH.
Qed.

Lemma observed_snoc_none :
  forall (t t' : side) (trace : list (side * ptr A)),
    observed t (trace ++ [(t', None)]) = observed t trace.
Proof. intros. rewrite observed_app. cbn. apply app_nil_r. Qed.

Lemma observed_snoc_own :
  forall (t : side) (x : A) (trace : list (side * ptr A)),
    observed t (trace ++ [(t, Some x)]) = observed t trace ++ [x].
Proof. intros. rewrite observed_app. destruct t; reflexivity. Qed.

Lemma observed_snoc_other :
  forall (t : side) (x : A) (trace : list (side * ptr A)),
    observed (other t) (trace ++ [(t, Some x)]) = observed (other t) trace.
Proof.
  intros. rewrite observed_app. destruct t; cbn; apply app_nil_r.
Qed.

Lemma observed_snoc_01 :
  forall (x : A) (trace : list (side * ptr A)),
    observed Tee1 (trace ++ [(Tee0, Some x)]) = observed Tee1 trace.
Proof. intros. exact (observed_snoc_other Tee0 x trace). Qed.

Lemma observed_snoc_10 :
  forall (x : A) (trace : list (side * ptr A)),
    observed Tee0 (trace ++ [(Tee1, Some x)]) = observed Tee0 trace.
Proof. intros. exact (observed_snoc_other Tee1 x trace). Qed.

Lemma map_Some_inj :
  forall (a b : list A), map (@Some A) a = map (@Some A) b -> a = b.
Proof.
  induction a as [|x a IH]; intros [|y b] H; cbn in H; try discriminate.
  - reflexivity.
  - inversion H; subst. f_equal. apply IH. assumption.
Qed.

Lemma skipn_cons_split :
  forall (n : nat) (l : list A) (y : A) (rest : list A),
    skipn n l = y :: rest ->
    firstn (Datatypes.S n) l = firstn n l ++ [y]
    /\ skipn (Datatypes.S n) l = rest
    /\ (Datatypes.S n <= List.length l)%nat.
Proof.
  induction n as [|n IH]; intros l y rest H.
  - cbn in H. subst l. cbn. repeat split; lia.
  - destruct l as [|x l]; [ discriminate | ].
    cbn [skipn] in H. destruct (IH l y rest H) as (Hf & Hs & Hl).
    split; [ | split ].
    + change (firstn (Datatypes.S (Datatypes.S n)) (x :: l))
        with (x :: firstn (Datatypes.S n) l).
      rewrite Hf. reflexivity.
    + exact Hs.
    + cbn [List.length]. lia.
Qed.

Lemma skipn_nil_all :
  forall (n : nat) (l : list A), skipn n l = [] -> firstn n l = l.
Proof.
  intros n l H. rewrite <- (firstn_skipn n l) at 2. rewrite H.
  symmetry. apply app_nil_r.
Qed.

(** Normalises the equations between what was observed, what is in store
    and the prefix of the stream. *)
Ltac views :=
  repeat rewrite observed_snoc_none;
  repeat rewrite observed_snoc_own;
  repeat rewrite observed_snoc_01;
  repeat rewrite observed_snoc_10;
  unfold in_store, pending, ptr in *;
  cbn [deref tee_0 tee_1 tee_queue tee_next tee_clone tee_subiter other
       assign assign_subiter] in *;
  repeat rewrite map_app in *; cbn [map] in *;
  repeat rewrite app_nil_r in *;
  repeat rewrite <- app_assoc in *; cbn [app] in *.

Ltac close_view :=
  solve [ assumption
        | match goal with
          | H : _ = map Some (firstn _ _) |- _ =>
              rewrite <- H; repeat rewrite <- app_assoc; reflexivity
          end ].

Ltac store_empty :=
  unfold in_store, pending;
  cbn [deref tee_0 tee_1 tee_queue tee_next app];
  first [ left; reflexivity | right; reflexivity ].

(** The second half of [tee_iter_next]: the caller's queue is empty and no
    share is waiting to be retried. *)
Lemma tee_read_step :
  forall (l : list A) (h : heap) (trace : list (side * ptr A)) (t : side)
         (save : Z) (w : world) (p : ptr A) (h' : heap) (w' : world),
    invariant l h trace ->
    tee_queue (deref h t) = [] ->
    tee_next (deref h t) = None ->
    tee_next (deref h (other t)) = None ->
    tee_iter_next_read rbh_iter_next t h save w = (p, h', w') ->
    invariant l h' (trace ++ [(t, p)])
    /\ (reliable w ->
        reliable w'
        /\ tee_next (tee_0 h') = None /\ tee_next (tee_1 h') = None
        /\ (p = None -> observed t trace = l)).
Proof.
  intros l [s [c0 q0 n0] [c1 q1 n1]] trace t save w p h' w'
         [[Hc0 Hc1] (_ & n & Hn & Hs & Hv)] Hq Hown Hoth.
  cbn in Hc0, Hc1. subst c0 c1.
  pose proof (Hv Tee0) as Hv0. pose proof (Hv Tee1) as Hv1.
  cbn [tee_subiter] in Hs.
  destruct t; cbn in Hq, Hown, Hoth; subst;
    unfold tee_iter_next_read, _tee_iter_next;
    cbn [deref tee_0 tee_1 tee_next tee_subiter tee_queue tee_clone].
  all: destruct (skipn n l) as [|y rest] eqn:Esk.
  (* the source is exhausted *)
  1,3: cbn [yields] in Hs; rewrite Hs;
    cbn [is_null andb negb errno set_errno Z.eqb];
    intros Hr; injection Hr as <- <- <-;
    (split;
     [ split; [ split; reflexivity | ];
       split; [ store_empty | ];
       exists n; split; [ exact Hn | ];
       split; [ rewrite Esk; exact Hs | ];
       intros [|]; views; assumption
     | intros Hw; split; [ exact Hw | ];
       split; [ reflexivity | ]; split; [ reflexivity | ];
       intros _; apply skipn_nil_all in Esk;
       views; apply map_Some_inj; congruence ]).
  (* the source yields an element, which is shared *)
  all: destruct Hs as (s1 & Hnext & Hs1); rewrite Hnext;
    cbn [is_null andb negb tee_clone assign assign_subiter deref tee_0
         tee_1 tee_subiter];
    unfold tee_iter_share, rbh_queue_push, malloc;
    cbn [tee_queue tee_next tee_clone];
    destruct (skipn_cons_split _ _ Esk) as (Hf & Hsk & Hlen);
    pose proof (@attempt_reliable (set_errno 0 w)) as Hrel;
    destruct (attempt (set_errno 0 w)) as [[|] w1];
    cbn [Z.eqb fst snd] in *;
    intros Hr; injection Hr as <- <- <-;
    (split;
     [ split; [ split; reflexivity | ];
       split; [ store_empty | ];
       exists (Datatypes.S n); split; [ exact Hlen | ];
       split; [ rewrite Hsk; exact Hs1 | ];
       rewrite Hf; intros [|]; views; close_view
     | intros Hw; destruct (Hrel Hw) as [Hok Hw1];
       first [ discriminate Hok
             | split; [ exact Hw1 | ];
               split; [ reflexivity | ]; split; [ reflexivity | ];
               discriminate ] ]).
Qed.

Lemma in_map_Some :
  forall (e : option A) (xs : list A),
    In e (map (@Some A) xs) -> exists y, e = Some y.
Proof.
  intros e xs H. apply in_map_iff in H. destruct H as (y & <- & _). eauto.
Qed.

(** One call of [tee_iter_next] that does not take the element parked in
    the caller's own slot keeps the invariant. In a reliable world with
    nothing parked, nothing gets parked, and a call that returns NULL means
    the caller has seen the whole stream. *)
Lemma tee_step :
  forall (l : list A) (h : heap) (trace : list (side * ptr A)) (t : side)
         (w : world) (p : ptr A) (h' : heap) (w' : world),
    invariant l h trace ->
    takes_own_slot h t = false ->
    tee_iter_next rbh_iter_next t h w = (p, h', w') ->
    invariant l h' (trace ++ [(t, p)])
    /\ (reliable w ->
        tee_next (tee_0 h) = None -> tee_next (tee_1 h) = None ->
        reliable w'
        /\ tee_next (tee_0 h') = None /\ tee_next (tee_1 h') = None
        /\ (p = None -> observed t trace = l)).
Proof.
  intros l h trace t w p h' w' Hinv Hguard.
  pose proof Hinv as [[Hc0 Hc1] (Hstore & n & Hn & Hs & Hv)].
  destruct h as [s [c0 q0 n0] [c1 q1 n1]].
  cbn in Hc0, Hc1. subst c0 c1.
  pose proof (Hv Tee0) as Hv0. pose proof (Hv Tee1) as Hv1.
  unfold in_store, pending in Hv0, Hv1, Hstore.
  cbn [deref tee_0 tee_1 tee_queue tee_next] in Hv0, Hv1, Hstore.
  unfold takes_own_slot in Hguard.
  destruct t; cbn [deref tee_0 tee_1 tee_queue tee_next] in Hguard;
    unfold tee_iter_next;
    cbn [deref tee_0 tee_1 tee_next tee_subiter tee_queue tee_clone].
  - destruct q0 as [|e q0].
    + destruct n0 as [?|]; [ discriminate | ].
      destruct n1 as [pnd|].
      * unfold tee_iter_share, rbh_queue_push, malloc.
        cbn [tee_queue tee_next tee_clone].
        destruct (attempt w) as [[|] w1] eqn:Ea; cbn [Z.eqb assign].
        -- intros Hr.
           apply (@tee_read_step l _ trace Tee0) in Hr;
             [ | | reflexivity | reflexivity | reflexivity ].
           ++ destruct Hr as [Hinv' _]. split; [ exact Hinv' | ].
              intros _ H0 H1. cbn in H0, H1. congruence.
           ++ split; [ split; reflexivity | ].
              split; [ store_empty | ].
              exists n. split; [ exact Hn | ]. split; [ exact Hs | ].
              intros [|]; views; close_view.
        -- intros Hr; injection Hr as <- <- <-.
           split; [ | intros _ H0 H1; cbn in H0, H1; congruence ].
           split; [ split; reflexivity | ].
           split; [ store_empty | ].
           exists n. split; [ exact Hn | ]. split; [ exact Hs | ].
           intros [|]; views; close_view.
      * intros Hr.
        apply (@tee_read_step l _ trace Tee0) in Hr;
          [ | exact Hinv | reflexivity | reflexivity | reflexivity ].
        destruct Hr as [Hinv' Hrel]. split; [ exact Hinv' | ].
        intros Hw _ _. apply Hrel. exact Hw.
    + intros Hr; injection Hr as <- <- <-.
      assert (He : exists y, e = Some y).
      { apply (@in_map_Some e (firstn n l)). rewrite <- Hv0.
        apply in_or_app. right. left. reflexivity. }
      destruct He as (y & ->).
      split.
      * split; [ split; reflexivity | ].
        split.
        { destruct Hstore as [Hst | Hst]; [ discriminate | ].
          right. exact Hst. }
        exists n. split; [ exact Hn | ]. split; [ exact Hs | ].
        intros [|]; views; close_view.
      * intros Hw H0 H1. cbn in H0, H1. subst.
        repeat split; try assumption; try reflexivity. discriminate.
  - destruct q1 as [|e q1].
    + destruct n1 as [?|]; [ discriminate | ].
      destruct n0 as [pnd|].
      * unfold tee_iter_share, rbh_queue_push, malloc.
        cbn [tee_queue tee_next tee_clone].
        destruct (attempt w) as [[|] w1] eqn:Ea; cbn [Z.eqb assign].
        -- intros Hr.
           apply (@tee_read_step l _ trace Tee1) in Hr;
             [ | | reflexivity | reflexivity | reflexivity ].
           ++ destruct Hr as [Hinv' _]. split; [ exact Hinv' | ].
              intros _ H0 H1. cbn in H0, H1. congruence.
           ++ split; [ split; reflexivity | ].
              split; [ store_empty | ].
              exists n. split; [ exact Hn | ]. split; [ exact Hs | ].
              intros [|]; views; close_view.
        -- intros Hr; injection Hr as <- <- <-.
           split; [ | intros _ H0 H1; cbn in H0, H1; congruence ].
           split; [ split; reflexivity | ].
           split; [ store_empty | ].
           exists n. split; [ exact Hn | ]. split; [ exact Hs | ].
           intros [|]; views; close_view.
      * intros Hr.
        apply (@tee_read_step l _ trace Tee1) in Hr;
          [ | exact Hinv | reflexivity | reflexivity | reflexivity ].
        destruct Hr as [Hinv' Hrel]. split; [ exact Hinv' | ].
        intros Hw _ _. apply Hrel. exact Hw.
    + intros Hr; injection Hr as <- <- <-.
      assert (He : exists y, e = Some y).
      { apply (@in_map_Some e (firstn n l)). rewrite <- Hv1.
        apply in_or_app. right. left. reflexivity. }
      destruct He as (y & ->).
      split.
      * split; [ split; reflexivity | ].
        split.
        { destruct Hstore as [Hst | Hst]; [ | discriminate ].
          left. exact Hst. }
        exists n. split; [ exact Hn | ]. split; [ exact Hs | ].
        intros [|]; views; close_view.
      * intros Hw H0 H1. cbn in H0, H1. subst.
        repeat split; try assumption; try reflexivity. discriminate.
Qed.

Lemma slot_empty_guard :
  forall (h : heap) (t : side),
    tee_next (deref h t) = None -> takes_own_slot h t = false.
Proof.
  intros h t H. unfold takes_own_slot. rewrite H.
  destruct (tee_queue (deref h t)); reflexivity.
Qed.

Lemma observed_bounded :
  forall (l : list A) (h : heap) (trace : list (side * ptr A)) (t : side),
    invariant l h trace ->
    (List.length (observed t trace) <= List.length l)%nat.
Proof.
  intros l h trace t (_ & _ & n & Hn & _ & Hv).
  specialize (Hv t). apply (f_equal (@List.length _)) in Hv.
  rewrite length_app, !length_map, length_firstn in Hv. lia.
Qed.

Lemma observed_saturated :
  forall (l : list A) (h : heap) (trace more : list (side * ptr A))
         (t : side),
    invariant l h (trace ++ more) ->
    observed t trace = l ->
    observed t (trace ++ more) = l.
Proof.
  intros l h trace more t Hinv Hl.
  pose proof (observed_bounded t Hinv) as Hb.
  rewrite observed_app, Hl in *. rewrite length_app in Hb.
  destruct (observed t more); [ apply app_nil_r | cbn in Hb; lia ].
Qed.

(** A schedule in which every failed share is retried by its producer
    keeps the invariant, whatever fails. *)
Lemma tee_run_guarded :
  forall (schedule : list side) (l : list A) (h : heap)
         (trace : list (side * ptr A)) (w : world)
         (tr : list (side * ptr A)) (h' : heap) (w' : world),
    invariant l h trace ->
    retried_by_producer rbh_iter_next schedule h w = true ->
    tee_run rbh_iter_next schedule h w = (tr, h', w') ->
    invariant l h' (trace ++ tr).
Proof.
  induction schedule as [|t schedule IH];
    intros l h trace w tr h' w' Hinv Hguard Hrun.
  - cbn in Hrun. injection Hrun as <- <- <-. rewrite app_nil_r. exact Hinv.
  - cbn [tee_run retried_by_producer] in Hrun, Hguard.
    destruct (tee_iter_next rbh_iter_next t h w) as [[p h1] w1] eqn:Estep.
    destruct (tee_run rbh_iter_next schedule h1 w1) as [[tr1 h2] w2] eqn:Er.
    injection Hrun as <- <- <-.
    apply andb_prop in Hguard. destruct Hguard as [Hg Hrest].
    apply negb_true_iff in Hg.
    destruct (tee_step t w Hinv Hg Estep) as [Hinv1 _].
    specialize (IH l h1 (trace ++ [(t, p)]) w1 tr1 h2 w2 Hinv1 Hrest Er).
    rewrite <- app_assoc in IH. exact IH.
Qed.

(** When no push fails nothing is ever parked, and a sibling that was told
    no-more-data has seen the whole stream. *)
Lemma tee_run_reliable :
  forall (schedule : list side) (l : list A) (h : heap)
         (trace : list (side * ptr A)) (w : world)
         (tr : list (side * ptr A)) (h' : heap) (w' : world),
    invariant l h trace ->
    reliable w ->
    tee_next (tee_0 h) = None ->
    tee_next (tee_1 h) = None ->
    tee_run rbh_iter_next schedule h w = (tr, h', w') ->
    invariant l h' (trace ++ tr)
    /\ tee_next (tee_0 h') = None /\ tee_next (tee_1 h') = None
    /\ reliable w'
    /\ forall t, In (t, None) tr -> observed t (trace ++ tr) = l.
Proof.
  induction schedule as [|t schedule IH];
    intros l h trace w tr h' w' Hinv Hw H0 H1 Hrun.
  - cbn in Hrun. injection Hrun as <- <- <-. rewrite app_nil_r.
    split; [ exact Hinv | ]. split; [ exact H0 | ]. split; [ exact H1 | ].
    split; [ exact Hw | ]. intros t [].
  - cbn [tee_run] in Hrun.
    destruct (tee_iter_next rbh_iter_next t h w) as [[p h1] w1] eqn:Estep.
    destruct (tee_run rbh_iter_next schedule h1 w1) as [[tr1 h2] w2] eqn:Er.
    injection Hrun as <- <- <-.
    assert (Hg : takes_own_slot h t = false).
    { apply slot_empty_guard. destruct t; assumption. }
    destruct (tee_step t w Hinv Hg Estep) as [Hinv1 Hrel].
    destruct (Hrel Hw H0 H1) as (Hw1 & H01 & H11 & Hend).
    destruct (IH l h1 (trace ++ [(t, p)]) w1 tr1 h2 w2 Hinv1 Hw1 H01 H11 Er)
      as (Hinv2 & H02 & H12 & Hw2 & Hall).
    rewrite <- app_assoc in Hinv2, Hall. cbn [app] in Hinv2, Hall.
    split; [ exact Hinv2 | ]. split; [ exact H02 | ]. split; [ exact H12 | ].
    split; [ exact Hw2 | ].
    intros t' [Heq | Hin].
    + injection Heq as -> ->.
      change (trace ++ (t', None) :: tr1)
        with (trace ++ [(t', None)] ++ tr1) in *.
      rewrite app_assoc in *.
      apply (@observed_saturated l h2 (trace ++ [(t', None)]) tr1 t').
      * exact Hinv2.
      * rewrite observed_snoc_none. apply Hend. reflexivity.
    + apply Hall. exact Hin.
Qed.

(** The heap [rbh_iter_tee] builds, when nothing fails. *)
Lemma rbh_iter_tee_reliable :
  forall (l : list A) (s : S) (w : world),
    source s l ->
    reliable w ->
    exists w0,
      let h0 := TeeHeap s (TeeIterator (Some Tee1) [] None)
                          (TeeIterator (Some Tee0) [] None) in
      rbh_iter_tee A s w = (0, Some h0, w0)
      /\ reliable w0 /\ errno w0 = errno w
      /\ invariant l h0 [].
Proof.
  intros l s w Hs Hw. unfold rbh_iter_tee, tee_iter_new.
  destruct (attempt_reliable Hw) as [Ht Hw1].
  pose proof (attempt_errno w) as He1.
  destruct (attempt w) as [ok w1]; cbn [fst snd] in *; subst ok. cbn [negb].
  destruct (malloc_reliable Hw1) as (w2 & -> & Hw2 & He2 & _). cbn [negb].
  destruct (attempt_reliable Hw2) as [Ht3 Hw3].
  pose proof (attempt_errno w2) as He3.
  destruct (attempt w2) as [ok w3]; cbn [fst snd] in *; subst ok. cbn [negb].
  destruct (malloc_reliable Hw3) as (w4 & -> & Hw4 & He4 & _). cbn [negb].
  exists w4. cbn zeta. cbn [tee_queue tee_next].
  split; [ reflexivity | ]. split; [ exact Hw4 | ].
  split; [ congruence | ].
  split; [ split; reflexivity | ].
  split; [ left; reflexivity | ].
  exists 0%nat. split; [ lia | ]. split; [ exact Hs | ].
  intros [|]; reflexivity.
Qed.

Lemma view_prefix :
  forall (a b : list A) (q : list (option A)),
    map (@Some A) a ++ q = map (@Some A) b ->
    q = map (@Some A) (skipn (List.length a) b)
    /\ b = a ++ skipn (List.length a) b.
Proof.
  induction a as [|x a IH]; intros b q H.
  - cbn in *. auto.
  - destruct b as [|y b]; [ discriminate | ].
    cbn in H. injection H as -> H.
    destruct (IH b q H) as [Hq Hb].
    cbn [List.length skipn app]. split; [ exact Hq | ].
    f_equal. exact Hb.
Qed.

(** C5: tee equivalence. Over a stream l, when no allocation and no push
    fails, rbh_iter_tee succeeds, and after any interleaving of next calls
    on the two siblings: what each sibling has observed is an initial
    segment of l, in order; a sibling that was answered NULL has observed
    exactly l; if sibling t has observed m elements and the other sibling n
    elements with m <= n, then the queue of t holds exactly the elements
    m+1..n the other has observed, and the queue of the other is empty;
    nothing is parked in a next slot. *)
Theorem tee_equivalence :
  forall (l : list A) (s : S) (w : world) (schedule : list side),
    source s l ->
    reliable w ->
    exists h0 w0,
      rbh_iter_tee A s w = (0, Some h0, w0)
      /\ forall trace h w',
          tee_run rbh_iter_next schedule h0 w0 = (trace, h, w') ->
          (forall t, exists rest, l = observed t trace ++ rest)
          /\ (forall t, In (t, None) trace -> observed t trace = l)
          /\ (forall t,
                 (List.length (observed t trace)
                  <= List.length (observed (other t) trace))%nat ->
                 tee_queue (deref h t)
                 = map Some (skipn (List.length (observed t trace))
                                   (observed (other t) trace))
                 /\ tee_queue (deref h (other t)) = [])
          /\ (forall t, tee_next (deref h t) = None).
Proof.
  intros l s w schedule Hs Hw.
  destruct (@rbh_iter_tee_reliable l s w Hs Hw) as (w0 & Hinit & Hw0 & _ & Hinv0).
  cbn zeta in Hinit, Hinv0.
  eexists _, w0. split; [ exact Hinit | ].
  intros trace h w' Hrun.
  destruct (@tee_run_reliable schedule l _ [] w0 trace h w' Hinv0 Hw0
              eq_refl eq_refl Hrun)
    as (Hinv & H0 & H1 & _ & Hall).
  cbn [app] in Hinv, Hall.
  assert (Hslot : forall t, tee_next (deref h t) = None)
    by (intros [|]; assumption).
  destruct Hinv as (_ & Hstore & n & Hn & _ & Hv).
  assert (Hq : forall t,
             map Some (observed t trace) ++ tee_queue (deref h t)
             = map Some (firstn n l)).
  { intros t. specialize (Hv t). unfold in_store, pending in Hv.
    rewrite (Hslot t), app_nil_r in Hv. exact Hv. }
  assert (Hstore' : tee_queue (tee_0 h) = [] \/ tee_queue (tee_1 h) = []).
  { unfold in_store, pending in Hstore. cbn [deref] in Hstore.
    rewrite H0, H1, !app_nil_r in Hstore. exact Hstore. }
  split; [ | split; [ exact Hall | split; [ | exact Hslot ] ] ].
  - intros t. destruct (@view_prefix _ _ _ (Hq t)) as [_ Hp].
    exists (skipn (List.length (observed t trace)) (firstn n l)
            ++ skipn n l).
    rewrite app_assoc, <- Hp. symmetry. apply firstn_skipn.
  - intros t Hle.
    assert (Hcase : forall a b (qa qb : list (option A)),
               map Some a ++ qa = map Some (firstn n l) ->
               map Some b ++ qb = map Some (firstn n l) ->
               (List.length a <= List.length b)%nat ->
               qa = [] \/ qb = [] ->
               qa = map Some (skipn (List.length a) b) /\ qb = []).
    { intros a b qa qb Ha Hb Hab [-> | ->].
      - rewrite app_nil_r in Ha. apply map_Some_inj in Ha.
        destruct (@view_prefix _ _ _ Hb) as [Hqb Hpb].
        assert (Hlen : List.length b = List.length a).
        { apply (f_equal (@List.length _)) in Hpb.
          rewrite length_app, <- Ha in Hpb. lia. }
        split.
        + rewrite skipn_all2 by lia. reflexivity.
        + rewrite Hqb, skipn_all2 by (rewrite <- Ha; lia). reflexivity.
      - rewrite app_nil_r in Hb. apply map_Some_inj in Hb.
        destruct (@view_prefix _ _ _ Ha) as [Hqa _].
        rewrite <- Hb in Hqa. auto. }
    destruct t; cbn [other deref] in *.
    + apply (Hcase _ _ _ _ (Hq Tee0) (Hq Tee1) Hle Hstore').
    + apply (Hcase _ _ _ _ (Hq Tee1) (Hq Tee0) Hle).
      destruct Hstore'; auto.
Qed.

Lemma attempt_script :
  forall (w : world) (b : bool) (fs : list bool),
    faults w = b :: fs ->
    attempt w = (b, World (errno w) fs (rbh_backend_error w)).
Proof. intros [e f be] b fs H. cbn in H. subst f. reflexivity. Qed.

(** C6, as the code has it: the deferred share of a tee. Let t be a sibling
    whose queue is empty, in a tee over the stream l.
    (a) When t reads the element x from the source and the push on the
    other sibling's queue fails, t parks x in the other sibling's next slot
    and returns x to its caller, with the caller's errno: no failure is
    signalled. The other queue is untouched.
    (b) At its next call t first retries the push of the parked element: if
    the push succeeds the element enters the other sibling's queue before
    anything read later, and t reads on;
    (c) if the push fails again, t returns NULL with errno ENOMEM and
    nothing changes: the source is not read and the element stays parked.
    (d) A slot parks at most one element, and the sibling it is parked for,
    when its queue is empty and it calls before the retry, receives the
    parked element from the slot, which is emptied; the source is not read
    and errno is the caller's.
    (e) Along every schedule in which a failed share is retried by the
    sibling that produced the element, and whatever pushes fail, no element
    is lost or duplicated: for each sibling, what it has observed, followed
    by its queue and by the element parked for it, is the sequence of the
    elements read from the source so far, an initial segment of l. *)
Theorem tee_deferred_share :
  forall (l : list A) (h : heap) (trace : list (side * ptr A)),
    invariant l h trace ->
    (forall t w x rest fs,
        tee_queue (deref h t) = [] ->
        tee_next (deref h t) = None ->
        tee_next (deref h (other t)) = None ->
        source (tee_subiter h) (x :: rest) ->
        faults w = false :: fs ->
        exists h' w',
          tee_iter_next rbh_iter_next t h w = (Some x, h', w')
          /\ errno w' = errno w
          /\ faults w' = fs
          /\ tee_next (deref h' (other t)) = Some x
          /\ tee_queue (deref h' (other t)) = tee_queue (deref h (other t))
          /\ source (tee_subiter h') rest)
    /\ (forall t w pnd fs p h' w',
           tee_queue (deref h t) = [] ->
           tee_next (deref h t) = None ->
           tee_next (deref h (other t)) = Some pnd ->
           faults w = true :: fs ->
           tee_iter_next rbh_iter_next t h w = (p, h', w') ->
           exists more,
             in_store h' (other t)
             = tee_queue (deref h (other t)) ++ Some pnd :: more
             /\ (List.length more <= 1)%nat)
    /\ (forall t w pnd fs,
           tee_queue (deref h t) = [] ->
           tee_next (deref h (other t)) = Some pnd ->
           faults w = false :: fs ->
           exists w',
             tee_iter_next rbh_iter_next t h w = (None, h, w')
             /\ errno w' = ENOMEM /\ faults w' = fs)
    /\ (forall t, (List.length (pending (deref h t)) <= 1)%nat)
    /\ (forall t w x,
           tee_queue (deref h t) = [] ->
           tee_next (deref h t) = Some x ->
           tee_next (deref h (other t)) = None ->
           exists h' w',
             tee_iter_next rbh_iter_next t h w = (Some x, h', w')
             /\ errno w' = errno w
             /\ tee_next (deref h' t) = None
             /\ tee_subiter h' = tee_subiter h)
    /\ (forall schedule w tr h' w',
           retried_by_producer rbh_iter_next schedule h w = true ->
           tee_run rbh_iter_next schedule h w = (tr, h', w') ->
           exists n,
             (n <= List.length l)%nat
             /\ source (tee_subiter h') (skipn n l)
             /\ forall t,
                 map Some (observed t (trace ++ tr)) ++ in_store h' t
                 = map Some (firstn n l)).
Proof.
  intros l h trace Hinv.
  pose proof Hinv as [[Hc0 Hc1] _].
  split; [ | split; [ | split; [ | split; [ | split ] ] ] ].
  - intros t w x rest fs Hq Hown Hoth (s1 & Hnext & Hs1) Hf.
    destruct h as [s [c0 q0 n0] [c1 q1 n1]].
    cbn in Hc0, Hc1. subst c0 c1.
    destruct t; cbn in Hq, Hown, Hoth; subst;
      unfold tee_iter_next, tee_iter_next_read, _tee_iter_next;
      cbn [deref tee_0 tee_1 tee_next tee_subiter tee_queue tee_clone];
      rewrite Hnext;
      cbn [is_null andb negb tee_clone assign assign_subiter deref tee_0
           tee_1 tee_subiter];
      unfold tee_iter_share, rbh_queue_push, malloc;
      cbn [tee_queue tee_next tee_clone];
      rewrite (@attempt_script (set_errno 0 w) false fs Hf);
      cbn; eexists _, _; repeat split; exact Hs1.
  - intros t w pnd fs p h' w' Hq Hown Hoth Hf.
    destruct h as [s [c0 q0 n0] [c1 q1 n1]].
    cbn in Hc0, Hc1. subst c0 c1.
    destruct t; cbn in Hq, Hown, Hoth; subst;
      unfold tee_iter_next, tee_iter_next_read, _tee_iter_next;
      cbn [deref tee_0 tee_1 tee_next tee_subiter tee_queue tee_clone];
      unfold tee_iter_share, rbh_queue_push, malloc;
      cbn [tee_queue tee_next tee_clone];
      rewrite (@attempt_script w true fs Hf);
      cbn [Z.eqb assign deref tee_0 tee_1 tee_next tee_subiter tee_queue
           tee_clone];
      match goal with
      | |- context [rbh_iter_next ?a ?b] =>
          destruct (rbh_iter_next a b) as [[el s1] w1]
      end;
      cbn [assign assign_subiter deref tee_0 tee_1 tee_next tee_subiter
           tee_queue tee_clone];
      destruct (is_null el && negb (errno w1 =? 0));
      try destruct (attempt w1) as [[|] w2];
      cbn; intros Hr; injection Hr as <- <- <-;
      unfold in_store, pending;
      cbn [deref other tee_0 tee_1 tee_next tee_queue];
      try destruct el;
      rewrite <- ?app_assoc; cbn [app];
      eexists; (split; [ rewrite ?app_nil_r; reflexivity | cbn; lia ]).
  - intros t w pnd fs Hq Hoth Hf.
    destruct h as [s [c0 q0 n0] [c1 q1 n1]].
    cbn in Hc0, Hc1. subst c0 c1.
    destruct t; cbn in Hq, Hoth; subst;
      unfold tee_iter_next;
      cbn [deref tee_0 tee_1 tee_next tee_subiter tee_queue tee_clone];
      unfold tee_iter_share, rbh_queue_push, malloc;
      cbn [tee_queue tee_next tee_clone];
      rewrite (@attempt_script w false fs Hf);
      cbn; eexists; repeat split.
  - intros t. unfold pending. destruct (tee_next (deref h t)); cbn; lia.
  - intros t w x Hq Hown Hoth.
    destruct h as [s [c0 q0 n0] [c1 q1 n1]].
    cbn in Hc0, Hc1. subst c0 c1.
    destruct t; cbn in Hq, Hown, Hoth; subst;
      unfold tee_iter_next, tee_iter_next_read, _tee_iter_next;
      cbn [deref tee_0 tee_1 tee_next tee_subiter tee_queue tee_clone
           is_null andb assign assign_subiter];
      unfold tee_iter_share, rbh_queue_push, malloc;
      cbn [tee_queue tee_next tee_clone];
      destruct (attempt (set_errno 0 w)) as [[|] w1];
      cbn; eexists _, _; repeat split.
  - intros schedule w tr h' w' Hguard Hrun.
    destruct (@tee_run_guarded schedule l h trace w tr h' w' Hinv Hguard Hrun)
      as (_ & _ & n & Hn & Hs & Hv).
    exists n. auto.
Qed.

End Tee.

Section Contract.
Variable A : Type.
Variable S : Type.
Variable rbh_iter_next : S -> world -> ptr A * S * world.
Variable inv : S -> Prop.
Hypothesis source_lawful : lawful inv rbh_iter_next.

Lemma array_iter_lawful : lawful (@array_wf A) (@array_iter_next A).
Proof.
  intros [l esz c i] w [Hi Hc]. cbn in Hi, Hc.
  unfold array_iter_next. cbn [index count array size].
  destruct (Z.ltb_spec i c) as [Hlt | Hge].
  - destruct (nth_error l (Z.to_nat i)) as [x|] eqn:Enth.
    + split; [ | reflexivity ].
      split; cbn; [ apply Z.mod_pos_bound; reflexivity | exact Hc ].
    + apply nth_error_None in Enth. lia.
  - split; [ split; assumption | ].
    cbn. split; [ discriminate | reflexivity ].
Qed.

Lemma chunk_iter_lawful :
  lawful (chunk_wf inv) (chunk_step rbh_iter_next).
Proof.
  intros [[first c once] s] w [Hfirst Hs].
  cbn [fst snd chunk_once chunk_first] in Hfirst, Hs.
  unfold chunk_step, chunk_iter_next.
  cbn [fst snd chunk_once chunk_first chunk_count].
  destruct once; cbn [negb].
  - destruct (c =? 0).
    + split; [ split; [ left; reflexivity | exact Hs ] | ].
      cbn. split; [ discriminate | reflexivity ].
    + change (set_errno 0 (set_errno 0 w)) with (set_errno 0 w).
      pose proof source_lawful as Hsrc. unfold lawful in Hsrc.
      specialize (Hsrc s (set_errno 0 w) Hs).
      destruct (rbh_iter_next s (set_errno 0 w)) as [[p s1] w1].
      destruct Hsrc as [Hs1 Hp].
      destruct p as [x|]; cbn [is_null negb orb].
      * cbn in Hp. rewrite Hp. cbn.
        split; [ split; [ left; reflexivity | exact Hs1 ] | reflexivity ].
      * destruct Hp as [Hne _].
        destruct (Z.eqb_spec (errno w1) 0) as [E | _]; [ contradiction | ].
        cbn [snd errno set_errno].
        split; [ split; [ left; reflexivity | exact Hs1 ] | ].
        split; [ exact Hne | reflexivity ].
  - destruct Hfirst as [Hf | Hf]; [ discriminate | ].
    destruct first as [x|]; [ | contradiction ].
    split; [ split; [ left; reflexivity | exact Hs ] | reflexivity ].
Qed.

Lemma chunkify_iter_lawful :
  forall (chunkify : chunkify_iterator) (s : S) (w : world),
    inv s ->
    match chunkify_iter_next rbh_iter_next chunkify s w with
    | (Some chunk, s', w') => chunk_wf inv (chunk, s') /\ errno w' = errno w
    | (None, s', w') => inv s' /\ errno w' <> 0
    end.
Proof.
  intros chunkify s w Hs. unfold chunkify_iter_next.
  pose proof source_lawful as Hsrc. unfold lawful in Hsrc.
  specialize (Hsrc s (set_errno 0 w) Hs).
  destruct (rbh_iter_next s (set_errno 0 w)) as [[p s1] w1].
  destruct Hsrc as [Hs1 Hp].
  destruct p as [x|]; cbn [is_null andb].
  - unfold malloc.
    pose proof (attempt_errno (set_errno (errno w) w1)) as He.
    destruct (attempt (set_errno (errno w) w1)) as [[|] w2];
      cbn [negb fst snd] in *.
    + split; [ | exact He ].
      split; [ right; discriminate | exact Hs1 ].
    + split; [ exact Hs1 | discriminate ].
  - destruct Hp as [Hne _].
    destruct (Z.eqb_spec (errno w1) 0) as [E | _]; [ contradiction | ].
    cbn [negb]. split; assumption.
Qed.

Lemma Forall_snoc_some :
  forall (q : list (ptr A)) (x : A),
    Forall (fun p : ptr A => p <> None) q ->
    Forall (fun p : ptr A => p <> None) (q ++ [Some x]).
Proof.
  intros q x H. apply Forall_app. split; [ exact H | ].
  constructor; [ discriminate | constructor ].
Qed.

(** The reading half of [tee_iter_next]. A NULL result does not depend on
    the errno the call started from. *)
Lemma tee_read_lawful :
  forall (t : side) (h : tee_heap A S) (save : Z) (w : world),
    tee_wf inv h ->
    let '(p, h', w') := tee_iter_next_read rbh_iter_next t h save w in
    tee_wf inv h'
    /\ match p with
       | Some _ => errno w' = save
       | None =>
           errno w' <> 0
           /\ forall save2 e,
               tee_iter_next_read rbh_iter_next t h save2 (set_errno e w)
               = (None, h', w')
       end.
Proof.
  intros t [s [c0 q0 n0] [c1 q1 n1]] save w (Hq0 & Hq1 & Hs).
  cbn [tee_0 tee_1 tee_queue tee_subiter] in Hq0, Hq1, Hs.
  pose proof source_lawful as Hsrc. unfold lawful in Hsrc.
  specialize (Hsrc s (set_errno 0 w) Hs).
  unfold tee_wf, tee_iter_next_read, _tee_iter_next.
  destruct t;
    cbn [deref tee_0 tee_1 tee_next tee_subiter tee_queue tee_clone].
  - destruct n0 as [x|].
    + cbn [is_null andb].
      destruct c0 as [[|]|];
        cbn [tee_clone deref assign assign_subiter tee_0 tee_1 tee_subiter];
        unfold tee_iter_share, rbh_queue_push, malloc;
        cbn [tee_queue tee_next tee_clone];
        try destruct (attempt (set_errno 0 w)) as [[|] w1];
        cbn [Z.eqb tee_0 tee_1 tee_queue tee_subiter tee_clone tee_next
             errno set_errno];
        (split; [ | reflexivity ]);
        repeat split; auto using Forall_snoc_some.
    + destruct (rbh_iter_next s (set_errno 0 w)) as [[p s1] w1] eqn:E.
      destruct Hsrc as [Hs1 Hp].
      destruct p as [x|]; cbn [is_null andb].
      * destruct c0 as [[|]|];
          cbn [tee_clone deref assign assign_subiter tee_0 tee_1
               tee_subiter];
          unfold tee_iter_share, rbh_queue_push, malloc;
          cbn [tee_queue tee_next tee_clone];
          try destruct (attempt w1) as [[|] w2];
          cbn [Z.eqb tee_0 tee_1 tee_queue tee_subiter tee_clone tee_next
               errno set_errno];
          (split; [ | reflexivity ]);
          repeat split; auto using Forall_snoc_some.
      * destruct Hp as [Hne _].
        destruct (Z.eqb_spec (errno w1) 0) as [E0 | _]; [ contradiction | ].
        cbn [negb assign assign_subiter tee_0 tee_1 tee_queue tee_subiter].
        split; [ repeat split; assumption | ].
        split; [ exact Hne | ].
        intros save2 e.
        change (set_errno 0 (set_errno e w)) with (set_errno 0 w).
        rewrite E. cbn [is_null andb].
        destruct (Z.eqb_spec (errno w1) 0) as [E0 | _]; [ contradiction | ].
        reflexivity.
  - destruct n1 as [x|].
    + cbn [is_null andb].
      destruct c1 as [[|]|];
        cbn [tee_clone deref assign assign_subiter tee_0 tee_1 tee_subiter];
        unfold tee_iter_share, rbh_queue_push, malloc;
        cbn [tee_queue tee_next tee_clone];
        try destruct (attempt (set_errno 0 w)) as [[|] w1];
        cbn [Z.eqb tee_0 tee_1 tee_queue tee_subiter tee_clone tee_next
             errno set_errno];
        (split; [ | reflexivity ]);
        repeat split; auto using Forall_snoc_some.
    + destruct (rbh_iter_next s (set_errno 0 w)) as [[p s1] w1] eqn:E.
      destruct Hsrc as [Hs1 Hp].
      destruct p as [x|]; cbn [is_null andb].
      * destruct c1 as [[|]|];
          cbn [tee_clone deref assign assign_subiter tee_0 tee_1
               tee_subiter];
          unfold tee_iter_share, rbh_queue_push, malloc;
          cbn [tee_queue tee_next tee_clone];
          try destruct (attempt w1) as [[|] w2];
          cbn [Z.eqb tee_0 tee_1 tee_queue tee_subiter tee_clone tee_next
               errno set_errno];
          (split; [ | reflexivity ]);
          repeat split; auto using Forall_snoc_some.
      * destruct Hp as [Hne _].
        destruct (Z.eqb_spec (errno w1) 0) as [E0 | _]; [ contradiction | ].
        cbn [negb assign assign_subiter tee_0 tee_1 tee_queue tee_subiter].
        split; [ repeat split; assumption | ].
        split; [ exact Hne | ].
        intros save2 e.
        change (set_errno 0 (set_errno e w)) with (set_errno 0 w).
        rewrite E. cbn [is_null andb].
        destruct (Z.eqb_spec (errno w1) 0) as [E0 | _]; [ contradiction | ].
        reflexivity.
Qed.

Lemma tee_iter_lawful :
  forall t : side, lawful (tee_wf inv) (tee_iter_next rbh_iter_next t).
Proof.
  intros t h w Hwf.
  assert (Hread : forall h1 w1,
             tee_wf inv h1 ->
             let '(p, h', w') :=
               tee_iter_next_read rbh_iter_next t h1 (errno w) w1 in
             tee_wf inv h'
             /\ match p with
                | Some _ => errno w' = errno w
                | None =>
                    errno w' <> 0
                    /\ errno w'
                       = errno (snd (tee_iter_next_read rbh_iter_next t h1 0
                                       (set_errno 0 w1)))
                end).
  { intros h1 w1 H1.
    pose proof (@tee_read_lawful t h1 (errno w) w1 H1) as H.
    destruct (tee_iter_next_read rbh_iter_next t h1 (errno w) w1)
      as [[p h'] w'].
    destruct H as [Hwf' Hp]. split; [ exact Hwf' | ].
    destruct p; [ exact Hp | ].
    destruct Hp as [Hne Hclean]. split; [ exact Hne | ].
    rewrite Hclean. reflexivity. }
  destruct h as [s [c0 q0 n0] [c1 q1 n1]].
  pose proof Hwf as (Hq0 & Hq1 & Hs).
  cbn [tee_0 tee_1 tee_queue tee_subiter] in Hq0, Hq1, Hs.
  destruct t; unfold tee_iter_next;
    cbn [deref tee_0 tee_1 tee_next tee_subiter tee_queue tee_clone].
  - destruct q0 as [|e q0].
    + assert (Hretry : forall (c : side) (clone : tee_iterator A) (pnd : A),
                 clone = deref (TeeHeap s (TeeIterator c0 [] n0)
                                          (TeeIterator c1 q1 n1)) c ->
                 tee_wf inv
                   (assign (TeeHeap s (TeeIterator c0 [] n0)
                                      (TeeIterator c1 q1 n1)) c
                      (TeeIterator (tee_clone clone)
                                   (tee_queue clone ++ [Some pnd]) None))).
      { intros c clone pnd ->.
        destruct c;
          cbn [assign deref tee_0 tee_1 tee_queue tee_next tee_clone
               tee_subiter];
          repeat split; cbn [tee_0 tee_1 tee_queue tee_subiter];
          auto using Forall_snoc_some. }
      destruct c0 as [[|]|];
        cbn [deref tee_0 tee_1 tee_next tee_subiter tee_queue tee_clone];
        try (apply Hread; exact Hwf);
        match goal with
        | |- context [match ?n with Some _ => _ | None => _ end] =>
            destruct n as [pnd|]
        end;
        try (apply Hread; exact Hwf);
        unfold tee_iter_share, rbh_queue_push, malloc;
        cbn [tee_queue tee_next tee_clone];
        rewrite attempt_set_errno;
        destruct (attempt w) as [[|] w1];
        cbn [fst snd Z.eqb tee_queue tee_next tee_clone errno set_errno];
        try (apply Hread;
             first [ apply (Hretry Tee0 _ pnd eq_refl)
                   | apply (Hretry Tee1 _ pnd eq_refl) ]);
        (split; [ exact Hwf | split; [ discriminate | reflexivity ] ]).
    + inversion Hq0 as [|? ? He Hq0']; subst.
      destruct e as [x|]; [ | contradiction ].
      split; [ | reflexivity ].
      repeat split; assumption.
  - destruct q1 as [|e q1].
    + assert (Hretry : forall (c : side) (clone : tee_iterator A) (pnd : A),
                 clone = deref (TeeHeap s (TeeIterator c0 q0 n0)
                                          (TeeIterator c1 [] n1)) c ->
                 tee_wf inv
                   (assign (TeeHeap s (TeeIterator c0 q0 n0)
                                      (TeeIterator c1 [] n1)) c
                      (TeeIterator (tee_clone clone)
                                   (tee_queue clone ++ [Some pnd]) None))).
      { intros c clone pnd ->.
        destruct c;
          cbn [assign deref tee_0 tee_1 tee_queue tee_next tee_clone
               tee_subiter];
          repeat split; cbn [tee_0 tee_1 tee_queue tee_subiter];
          auto using Forall_snoc_some. }
      destruct c1 as [[|]|];
        cbn [deref tee_0 tee_1 tee_next tee_subiter tee_queue tee_clone];
        try (apply Hread; exact Hwf);
        match goal with
        | |- context [match ?n with Some _ => _ | None => _ end] =>
            destruct n as [pnd|]
        end;
        try (apply Hread; exact Hwf);
        unfold tee_iter_share, rbh_queue_push, malloc;
        cbn [tee_queue tee_next tee_clone];
        rewrite attempt_set_errno;
        destruct (attempt w) as [[|] w1];
        cbn [fst snd Z.eqb tee_queue tee_next tee_clone errno set_errno];
        try (apply Hread;
             first [ apply (Hretry Tee0 _ pnd eq_refl)
                   | apply (Hretry Tee1 _ pnd eq_refl) ]);
        (split; [ exact Hwf | split; [ discriminate | reflexivity ] ]).
    + inversion Hq1 as [|? ? He Hq1']; subst.
      destruct e as [x|]; [ | contradiction ].
      split; [ | reflexivity ].
      repeat split; assumption.
Qed.

(** What the errno of a NULL answer stands for. A chunk that answers NULL
    has used up its quota and says ENODATA without reading its source, or
    it passes on the NULL its source has just answered from a clean errno,
    with the errno of the source, and keeps its quota. *)
Lemma chunk_iter_null_errno :
  forall (chunk chunk' : chunk_iterator A) (s s' : S) (w w' : world),
    chunk_wf inv (chunk, s) ->
    chunk_iter_next rbh_iter_next chunk s w = (None, chunk', s', w') ->
    chunk' = chunk
    /\ ((chunk_count chunk = 0 /\ errno w' = ENODATA /\ s' = s)
        \/ (chunk_count chunk <> 0
            /\ exists w1 : world,
                rbh_iter_next s (set_errno 0 w) = (None, s', w1)
                /\ errno w1 <> 0 /\ errno w' = errno w1)).
Proof.
  intros [first c once] chunk' s s' w w' [Hfirst Hs] H.
  cbn [fst snd chunk_once chunk_first] in Hfirst, Hs.
  unfold chunk_iter_next in H.
  cbn [chunk_once chunk_first chunk_count] in H.
  destruct once; cbn [negb] in H.
  - destruct (Z.eqb_spec c 0) as [-> | Hc].
    + injection H as <- <- <-. split; [ reflexivity | ].
      left. repeat split; reflexivity.
    + pose proof source_lawful as Hsrc. unfold lawful in Hsrc.
      specialize (Hsrc s (set_errno 0 w) Hs).
      destruct (rbh_iter_next s (set_errno 0 w)) as [[p s1] w1].
      destruct Hsrc as [_ Hp].
      destruct p as [x|]; [ discriminate H | ].
      destruct Hp as [Hne _].
      cbn [is_null negb orb] in H.
      destruct (Z.eqb_spec (errno w1) 0) as [E | _]; [ contradiction | ].
      injection H as <- <- <-. split; [ reflexivity | ].
      right. split; [ exact Hc | ].
      exists w1. repeat split; auto.
  - destruct Hfirst as [Hf | Hf]; [ discriminate Hf | ].
    injection H as Hnone _ _ _. cbn in Hf. congruence.
Qed.

(** The outer iterator of chunkify answers NULL when its source does, with
    the errno of the source, or when the chunk cannot be allocated, with
    ENOMEM, the source having yielded an element. *)
Lemma chunkify_iter_null_errno :
  forall (chunkify : chunkify_iterator) (s s' : S) (w w' : world),
    inv s ->
    chunkify_iter_next rbh_iter_next chunkify s w = (None, s', w') ->
    (rbh_iter_next s (set_errno 0 w) = (None, s', w') /\ errno w' <> 0)
    \/ (errno w' = ENOMEM
        /\ exists (x : A) (w1 : world),
            rbh_iter_next s (set_errno 0 w) = (Some x, s', w1)).
Proof.
  intros chunkify s s' w w' Hs H. unfold chunkify_iter_next in H.
  pose proof source_lawful as Hsrc. unfold lawful in Hsrc.
  specialize (Hsrc s (set_errno 0 w) Hs).
  destruct (rbh_iter_next s (set_errno 0 w)) as [[p s1] w1].
  destruct Hsrc as [_ Hp].
  destruct p as [x|]; cbn [is_null andb] in H.
  - unfold malloc in H.
    destruct (attempt (set_errno (errno w) w1)) as [[|] w2];
      cbn [negb] in H; [ discriminate H | ].
    injection H as <- <-. right. split; [ reflexivity | ].
    exists x, w1. reflexivity.
  - destruct Hp as [Hne _].
    destruct (Z.eqb_spec (errno w1) 0) as [E | _]; [ contradiction | ].
    cbn [negb] in H. injection H as <- <-. left. auto.
Qed.

(** A sibling of a tee answers NULL in two cases. The retry of a share
    that had failed fails again: nothing is read, the heap is as it was
    and errno is the ENOMEM of the push. Or the source, asked from a clean
    errno, answers NULL: errno is the errno of the source. *)
Lemma tee_iter_null_errno :
  forall (t : side) (h h' : tee_heap A S) (w w' : world),
    tee_wf inv h ->
    tee_iter_next rbh_iter_next t h w = (None, h', w') ->
    (h' = h /\ errno w' = ENOMEM /\ faults w = false :: faults w'
     /\ exists (c : side) (pending : A),
         tee_clone (deref h t) = Some c
         /\ tee_next (deref h c) = Some pending)
    \/ (exists w0 : world,
           (w0 = w \/ attempt w = (true, w0))
           /\ rbh_iter_next (tee_subiter h) (set_errno 0 w0)
              = (None, tee_subiter h', w')
           /\ errno w' <> 0).
Proof.
  assert (Hread :
    forall (t : side) (h h' : tee_heap A S) (e : Z) (w0 w' : world),
      inv (tee_subiter h) ->
      tee_iter_next_read rbh_iter_next t h e w0 = (None, h', w') ->
      rbh_iter_next (tee_subiter h) (set_errno 0 w0)
      = (None, tee_subiter h', w')
      /\ errno w' <> 0).
  { intros t h h' e w0 w' Hs H.
    unfold tee_iter_next_read, _tee_iter_next in H.
    destruct (tee_next (deref h t)) as [x|].
    - cbn [is_null andb] in H.
      destruct (tee_clone _) as [c|].
      + destruct (tee_iter_share _ _ _) as [[rc cl] w2].
        discriminate H.
      + discriminate H.
    - pose proof source_lawful as Hsrc. unfold lawful in Hsrc.
      specialize (Hsrc (tee_subiter h) (set_errno 0 w0) Hs).
      destruct (rbh_iter_next (tee_subiter h) (set_errno 0 w0))
        as [[p s1] w1].
      destruct Hsrc as [_ Hp].
      destruct p as [x|].
      + cbn [is_null andb] in H.
        destruct (tee_clone (deref h t)) as [c|].
        * destruct (tee_iter_share _ _ _) as [[rc cl] w2].
          discriminate H.
        * discriminate H.
      + destruct Hp as [Hne _].
        cbn [is_null andb] in H.
        destruct (Z.eqb_spec (errno w1) 0) as [E | _]; [ contradiction | ].
        cbn [negb] in H. injection H as <- <-.
        split; [ | exact Hne ].
        destruct h as [s t0 t1]; destruct t; reflexivity. }
  intros t h h' w w' (Hq0 & Hq1 & Hs) H.
  unfold tee_iter_next in H.
  destruct (tee_queue (deref h t)) as [|element readable] eqn:Eq.
  2: { injection H as Hnone _ _.
       assert (Hin : element <> None).
       { destruct h as [s t0 t1]; destruct t; cbn in Eq, Hq0, Hq1;
           [ rewrite Eq in Hq0; inversion Hq0
           | rewrite Eq in Hq1; inversion Hq1 ]; assumption. }
       contradiction. }
  destruct (tee_clone (deref h t)) as [c|] eqn:Ec.
  2: { right. exists w. split; [ left; reflexivity | ].
       exact (Hread _ _ _ _ _ _ Hs H). }
  destruct (tee_next (deref h c)) as [pending|] eqn:En.
  2: { right. exists w. split; [ left; reflexivity | ].
       exact (Hread _ _ _ _ _ _ Hs H). }
  unfold tee_iter_share, rbh_queue_push, malloc in H.
  destruct w as [e f be].
  destruct f as [|[|] f]; cbn [attempt faults errno rbh_backend_error] in H.
  - right. cbn [Z.eqb] in H.
    eexists. split; [ right; reflexivity | ].
    apply Hread in H; [ | destruct h as [s t0 t1]; destruct c; exact Hs ].
    destruct H as [H Hne]. split; [ | exact Hne ].
    destruct h as [s t0 t1]; destruct c; exact H.
  - right. cbn [Z.eqb] in H.
    eexists. split; [ right; reflexivity | ].
    apply Hread in H; [ | destruct h as [s t0 t1]; destruct c; exact Hs ].
    destruct H as [H Hne]. split; [ | exact Hne ].
    destruct h as [s t0 t1]; destruct c; exact H.
  - left. cbn [Z.eqb] in H. injection H as <- <-.
    split; [ reflexivity | ]. split; [ reflexivity | ].
    split; [ reflexivity | ].
    exists c, pending. split; [ reflexivity | exact En ].
Qed.

(** C7: the errno contract of the combinators. Over a source that keeps the
    contract, and for an array iterator over a region that holds its count
    of elements, a chunk iterator made by chunkify and either sibling of a
    tee: a call to next that yields an element leaves errno as the caller
    had it; a call that yields nothing leaves an errno that is not 0, and
    that is the errno this very call produces when started from a clean
    errno, so never a value the caller happened to hold. That errno says
    one thing. For an array it is ENODATA. For a chunk it is ENODATA when
    the quota is used up, the source not being read, and otherwise the
    errno with which the source has just answered NULL. For a sibling of a
    tee it is the ENOMEM of the push when the retry of a failed share
    fails again, nothing being read, and otherwise the errno with which
    the source has just answered NULL. The outer iterator of chunkify
    keeps errno when it yields a chunk; when it yields nothing errno is
    the errno of the source that answered NULL, or ENOMEM when the chunk
    could not be allocated. The iterators that rbh_iter_array,
    chunkify_iter_next and rbh_iter_tee build are of that kind, and stay
    so call after call. *)
Theorem next_keeps_errno_contract :
  (* array *)
  (forall (l : list A) (element_size : Z) (w : world) it w',
      rbh_iter_array l element_size (Z.of_nat (List.length l)) w
      = (Some it, w') ->
      array_wf it)
  /\ lawful (@array_wf A) (@array_iter_next A)
  /\ (forall (it : array_iterator A) (w : world),
         array_wf it ->
         fst (fst (array_iter_next it w)) = None ->
         errno (snd (array_iter_next it w)) = ENODATA)
  (* chunkify *)
  /\ (forall (chunkify : chunkify_iterator) (s : S) (w : world),
         inv s ->
         match chunkify_iter_next rbh_iter_next chunkify s w with
         | (Some chunk, s', w') =>
             chunk_wf inv (chunk, s') /\ errno w' = errno w
         | (None, s', w') => inv s' /\ errno w' <> 0
         end)
  /\ lawful (chunk_wf inv) (chunk_step rbh_iter_next)
  (* tee *)
  /\ (forall (s : S) (w : world) rc h w',
         inv s ->
         rbh_iter_tee A s w = (rc, Some h, w') ->
         tee_wf inv h)
  /\ (forall t : side, lawful (tee_wf inv) (tee_iter_next rbh_iter_next t))
  (* what the errno of a NULL answer stands for: chunk *)
  /\ (forall (chunk chunk' : chunk_iterator A) (s s' : S) (w w' : world),
         chunk_wf inv (chunk, s) ->
         chunk_iter_next rbh_iter_next chunk s w = (None, chunk', s', w') ->
         chunk' = chunk
         /\ ((chunk_count chunk = 0 /\ errno w' = ENODATA /\ s' = s)
             \/ (chunk_count chunk <> 0
                 /\ exists w1 : world,
                     rbh_iter_next s (set_errno 0 w) = (None, s', w1)
                     /\ errno w1 <> 0 /\ errno w' = errno w1)))
  (* the outer iterator of chunkify *)
  /\ (forall (chunkify : chunkify_iterator) (s s' : S) (w w' : world),
         inv s ->
         chunkify_iter_next rbh_iter_next chunkify s w = (None, s', w') ->
         (rbh_iter_next s (set_errno 0 w) = (None, s', w') /\ errno w' <> 0)
         \/ (errno w' = ENOMEM
             /\ exists (x : A) (w1 : world),
                 rbh_iter_next s (set_errno 0 w) = (Some x, s', w1)))
  (* a sibling of a tee *)
  /\ (forall (t : side) (h h' : tee_heap A S) (w w' : world),
         tee_wf inv h ->
         tee_iter_next rbh_iter_next t h w = (None, h', w') ->
         (h' = h /\ errno w' = ENOMEM /\ faults w = false :: faults w'
          /\ exists (c : side) (pending : A),
              tee_clone (deref h t) = Some c
              /\ tee_next (deref h c) = Some pending)
         \/ (exists w0 : world,
                (w0 = w \/ attempt w = (true, w0))
                /\ rbh_iter_next (tee_subiter h) (set_errno 0 w0)
                   = (None, tee_subiter h', w')
                /\ errno w' <> 0)).
Proof.
  split.
  { intros l esz w it w'. unfold rbh_iter_array.
    destruct (malloc w) as [[|] w1]; intros H; inversion H; subst.
    split; cbn; lia. }
  split; [ exact array_iter_lawful | ].
  split.
  { intros it w [Hi Hc]. unfold array_iter_next.
    destruct (Z.ltb_spec (index it) (count it)) as [Hlt | Hge]; cbn.
    - intros Hnone. apply nth_error_None in Hnone. lia.
    - reflexivity. }
  split; [ exact chunkify_iter_lawful | ].
  split; [ exact chunk_iter_lawful | ].
  split.
  { intros s w rc h w' Hs. unfold rbh_iter_tee, tee_iter_new.
    destruct (attempt w) as [[|] w1]; cbn [negb];
      [ | intros H; discriminate H ].
    destruct (malloc w1) as [[|] w2]; cbn [negb];
      [ | intros H; discriminate H ].
    destruct (attempt w2) as [[|] w3]; cbn [negb];
      [ | intros H; discriminate H ].
    destruct (malloc w3) as [[|] w4]; cbn [negb];
      [ | intros H; discriminate H ].
    intros H. injection H as <- <- <-.
    repeat split; cbn; auto. }
  split; [ exact tee_iter_lawful | ].
  split; [ exact chunk_iter_null_errno | ].
  split; [ exact chunkify_iter_null_errno | exact tee_iter_null_errno ].
Qed.

End Contract.

(** ** Counted arrays, the quota of a chunk and the life of a tee *)

Section ArrayPrefix.
Variable A : Type.

Lemma skipn_nth_error :
  forall (l : list A) (i : nat) (x : A),
    nth_error l i = Some x -> skipn i l = x :: skipn (Datatypes.S i) l.
Proof.
  induction l as [|y l IH]; intros [|i] x H; cbn in H; try discriminate.
  - injection H as ->. reflexivity.
  - cbn [skipn]. rewrite (IH i x H). reflexivity.
Qed.

Lemma nth_error_firstn_lt :
  forall (l : list A) (c i : nat),
    (i < c)%nat -> nth_error (firstn c l) i = nth_error l i.
Proof.
  induction l as [|y l IH]; intros [|c] [|i] H; cbn; try reflexivity;
    try lia.
  apply IH. lia.
Qed.

Lemma array_iter_stream_upto :
  forall (l : list A) (element_size : Z) (c n i : nat),
    (i + n = c)%nat ->
    (c <= List.length l)%nat ->
    Z.of_nat (List.length l) < 2 ^ 64 ->
    yields (@array_iter_next A)
           (ArrayIterator l element_size (Z.of_nat c) (Z.of_nat i))
           (skipn i (firstn c l)).
Proof.
  intros l element_size c n. induction n as [|n IH]; intros i Hi Hc Hl.
  - assert (i = c) by lia. subst i.
    rewrite skipn_all2 by (rewrite length_firstn; lia).
    cbn [yields]. intros w. unfold array_iter_next. cbn [index count].
    rewrite Z.ltb_irrefl. reflexivity.
  - assert (Hlt : (i < c)%nat) by lia.
    destruct (nth_error l i) as [x|] eqn:Ex.
    2: { apply nth_error_None in Ex. lia. }
    assert (Ex' : nth_error (firstn c l) i = Some x)
      by (rewrite nth_error_firstn_lt by exact Hlt; exact Ex).
    rewrite (skipn_nth_error _ _ Ex').
    cbn [yields].
    exists (ArrayIterator l element_size (Z.of_nat c)
                          (Z.of_nat (Datatypes.S i))).
    split.
    + intros w. unfold array_iter_next. cbn [index count array size].
      replace (Z.of_nat i <? Z.of_nat c) with true
        by (symmetry; apply Z.ltb_lt; lia).
      rewrite Nat2Z.id, Ex.
      rewrite size_t_small by lia.
      replace (Z.of_nat i + 1) with (Z.of_nat (Datatypes.S i)) by lia.
      reflexivity.
    + apply IH; lia.
Qed.

(** X5: [rbh_iter_array] over the first [element_count] elements of a region
    either fails for lack of memory (NULL, ENOMEM) or returns an iterator
    that yields these elements in order, whatever the size of an element,
    leaving errno alone, and then answers ENODATA for ever. *)
Theorem array_iter_yields_the_counted_elements :
  forall (l : list A) (element_size element_count : Z) (w : world),
    0 <= element_count <= Z.of_nat (List.length l) ->
    Z.of_nat (List.length l) < 2 ^ 64 ->
    match rbh_iter_array l element_size element_count w with
    | (Some it, w') =>
        errno w' = errno w
        /\ yields (@array_iter_next A) it
                  (firstn (Z.to_nat element_count) l)
    | (None, w') => errno w' = ENOMEM
    end.
Proof.
  intros l element_size element_count w Hc Hl.
  unfold rbh_iter_array, malloc.
  pose proof (attempt_errno w) as He.
  destruct (attempt w) as [[|] w1]; cbn [fst snd] in He.
  - split; [ exact He | ].
    pose proof (@array_iter_stream_upto l element_size
                  (Z.to_nat element_count) (Z.to_nat element_count) 0) as H.
    rewrite Z2Nat.id in H by lia. cbn [skipn Z.of_nat] in H.
    apply H; lia.
  - reflexivity.
Qed.

End ArrayPrefix.

Section ChunkQuota.
Variable A : Type.
Variable S : Type.
Variable rbh_iter_next : S -> world -> ptr A * S * world.

Lemma chunk_take_started_bound :
  forall (n : nat) (first : ptr A) (c : Z) (s : S) (w : world),
    0 <= c < 2 ^ 64 ->
    (elements (fst (fst (fst (chunk_take rbh_iter_next n
                                (ChunkIterator first c true) s w))))
     <= Z.to_nat c)%nat.
Proof.
  induction n as [|n IH]; intros first c s w Hc.
  - cbn. lia.
  - cbn [chunk_take]. unfold chunk_iter_next.
    cbn [chunk_once negb chunk_count chunk_first].
    destruct (Z.eqb_spec c 0) as [-> | Hne].
    + specialize (IH first 0 s (set_errno ENODATA w) Hc).
      destruct (chunk_take rbh_iter_next n (ChunkIterator first 0 true) s
                           (set_errno ENODATA w))
        as [[[ps chunk2] s2] w2].
      cbn [fst] in *. unfold elements in *. cbn [filter is_null negb].
      exact IH.
    + destruct (rbh_iter_next s (set_errno 0 w)) as [[next s1] w1].
      assert (Hdec : size_t (c - 1) = c - 1)
        by (apply size_t_small; lia).
      destruct next as [x|].
      * cbn [is_null negb orb]. rewrite Hdec.
        match goal with
        | |- context [chunk_take _ n ?ch ?st ?wd] =>
            specialize (IH first (c - 1) st wd ltac:(lia));
            destruct (chunk_take rbh_iter_next n ch st wd)
              as [[[ps chunk2] s2] w2]
        end.
        cbn [fst] in *. unfold elements in *.
        cbn [filter is_null negb List.length]. lia.
      * cbn [is_null negb orb].
        destruct (errno w1 =? 0).
        -- rewrite Hdec.
           match goal with
           | |- context [chunk_take _ n ?ch ?st ?wd] =>
               specialize (IH first (c - 1) st wd ltac:(lia));
               destruct (chunk_take rbh_iter_next n ch st wd)
                 as [[[ps chunk2] s2] w2]
           end.
           cbn [fst] in *. unfold elements in *.
           cbn [filter is_null negb List.length]. lia.
        -- match goal with
           | |- context [chunk_take _ n ?ch ?st ?wd] =>
               specialize (IH first c st wd Hc);
               destruct (chunk_take rbh_iter_next n ch st wd)
                 as [[[ps chunk2] s2] w2]
           end.
           cbn [fst] in *. unfold elements in *.
           cbn [filter is_null negb List.length]. lia.
Qed.

(** X6: whatever the iterator underneath does and whatever fails, a chunk
    made by a chunkify iterator of size k hands out at most k elements,
    however many times it is asked. *)
Theorem chunk_never_exceeds_its_size :
  forall (chunkify : chunkify_iterator) (s : S) (w : world)
         (chunk : chunk_iterator A) (s1 : S) (w1 : world) (n : nat),
    0 < chunkify_chunk chunkify < 2 ^ 64 ->
    chunkify_iter_next rbh_iter_next chunkify s w = (Some chunk, s1, w1) ->
    (elements (fst (fst (fst (chunk_take rbh_iter_next n chunk s1 w1))))
     <= Z.to_nat (chunkify_chunk chunkify))%nat.
Proof.
  intros [k] s w chunk s1 w1 n Hk Hnext. cbn [chunkify_chunk] in *.
  unfold chunkify_iter_next in Hnext. cbn [chunkify_chunk] in Hnext.
  destruct (rbh_iter_next s (set_errno 0 w)) as [[first s0] w0].
  destruct (is_null first && negb (errno w0 =? 0)); [ discriminate | ].
  destruct (malloc (set_errno (errno w) w0)) as [[|] w3];
    cbn [negb] in Hnext; [ | discriminate ].
  injection Hnext as <- <- <-.
  rewrite size_t_small by lia.
  destruct n as [|n]; [ cbn; lia | ].
  cbn [chunk_take]. unfold chunk_iter_next at 1.
  cbn [chunk_once negb chunk_first chunk_count].
  pose proof (@chunk_take_started_bound n first (k - 1) s0 w3 ltac:(lia))
    as Hb.
  destruct (chunk_take rbh_iter_next n (ChunkIterator first (k - 1) true)
                       s0 w3) as [[[ps chunk2] s2] w2].
  cbn [fst] in *. unfold elements in *. cbn [filter].
  destruct (negb (is_null first)); cbn [List.length]; lia.
Qed.

Abbreviation stream := (yields rbh_iter_next).

(** X7: when the allocation of a chunk fails, the element that
    [chunkify_iter_next] had already read for it is gone: the call returns
    NULL with ENOMEM, the iterator underneath has moved past the element,
    and the chunks made afterwards are those of what follows it. *)
Theorem chunkify_drops_the_element_read_when_allocation_fails :
  forall (k : Z) (x : A) (l : list A) (s : S) (w : world) (fs : list bool),
    0 < k < 2 ^ 64 ->
    stream s (x :: l) ->
    faults w = false :: fs ->
    exists s' w',
      chunkify_iter_next rbh_iter_next (ChunkifyIterator k) s w
      = (None, s', w')
      /\ errno w' = ENOMEM
      /\ faults w' = fs
      /\ stream s' l
      /\ forall fuel : nat,
          reliable w' ->
          (List.length l < fuel)%nat ->
          exists s'' w'',
            collect_chunks rbh_iter_next fuel (ChunkifyIterator k) s' w'
            = Some (chunked fuel (Z.to_nat k) l, s'', w'').
Proof.
  intros k x l s w fs Hk Hs Hf.
  cbn [yields] in Hs. destruct Hs as (s' & Hnext & Hs').
  unfold chunkify_iter_next. rewrite Hnext.
  cbn [is_null andb]. unfold malloc.
  destruct w as [e f be]. cbn in Hf. subst f.
  cbn [attempt set_errno faults errno rbh_backend_error negb].
  exists s'. eexists. split; [ reflexivity | ].
  split; [ reflexivity | ]. split; [ reflexivity | ].
  split; [ exact Hs' | ].
  intros fuel Hr Hlen.
  destruct (@collect_chunks_stream A S rbh_iter_next k fuel l s' _ Hk Hs' Hr
              Hlen) as (s2 & w2 & Hrun & _).
  exists s2, w2. exact Hrun.
Qed.

End ChunkQuota.

Section TeeLife.
Variable A : Type.
Variable S : Type.
Variable rbh_iter_next : S -> world -> ptr A * S * world.

Abbreviation source := (yields rbh_iter_next).
Abbreviation heap := (tee_heap A S).
Abbreviation invariant := (tee_invariant rbh_iter_next).

(** X8: [rbh_iter_tee] either links two siblings with empty queues around
    the iterator, leaving errno alone, or fails with -1 and ENOMEM; it asks
    for at most four allocations and never reads the iterator. *)
Theorem rbh_iter_tee_links_or_fails :
  forall (s : S) (w : world),
    let '(rc, h, w') := rbh_iter_tee A s w in
    ((rc = 0
      /\ h = Some (TeeHeap s (TeeIterator (Some Tee1) [] None)
                           (TeeIterator (Some Tee0) [] None))
      /\ errno w' = errno w)
     \/ (rc = -1 /\ h = None /\ errno w' = ENOMEM
         /\ In false (faults w)))
    /\ rbh_backend_error w' = rbh_backend_error w
    /\ exists n : nat, (n <= 4)%nat /\ faults w' = skipn n (faults w).
Proof.
  intros s [e f be].
  unfold rbh_iter_tee, tee_iter_new, malloc.
  destruct f as [|[|] [|[|] [|[|] [|[|] f]]]];
    cbn [attempt faults errno rbh_backend_error set_errno negb tee_queue
         tee_next In];
    (split; [ first [ left; repeat split; reflexivity
                    | right; repeat split; tauto ]
            | split; [ reflexivity | ] ]).
  all: first [ exists 0%nat; split; [ lia | reflexivity ]
             | exists 1%nat; split; [ lia | reflexivity ]
             | exists 2%nat; split; [ lia | reflexivity ]
             | exists 3%nat; split; [ lia | reflexivity ]
             | exists 4%nat; split; [ lia | reflexivity ] ].
Qed.

Lemma destroy_in_either_order :
  forall (h : heap) (t : side),
    linked h ->
    let '(h1, destroyed1) := tee_iter_destroy t h in
    let '(h2, destroyed2) := tee_iter_destroy (other t) h1 in
    destroyed1 = false
    /\ destroyed2 = true
    /\ tee_clone (deref h1 (other t)) = None
    /\ tee_queue (deref h1 (other t)) = tee_queue (deref h (other t))
    /\ tee_next (deref h1 (other t)) = tee_next (deref h (other t))
    /\ tee_subiter h1 = tee_subiter h
    /\ h2 = h1.
Proof.
  intros [s [c0 q0 n0] [c1 q1 n1]] t [H0 H1]. cbn in H0, H1. subst c0 c1.
  destruct t; cbn; repeat split; reflexivity.
Qed.

Lemma survivor_reads_the_source :
  forall (rest : list A) (h : heap) (t : side),
    tee_clone (deref h t) = None ->
    tee_queue (deref h t) = [] ->
    tee_next (deref h t) = None ->
    source (tee_subiter h) rest ->
    yields (tee_iter_next rbh_iter_next t) h rest.
Proof.
  induction rest as [|x rest IH];
    intros [s [c0 q0 n0] [c1 q1 n1]] t Hc Hq Hn Hs.
  - cbn [yields] in *. intros w. cbn [tee_subiter] in Hs.
    destruct t; cbn in Hc, Hq, Hn; subst;
      unfold tee_iter_next, tee_iter_next_read, _tee_iter_next;
      cbn [deref tee_0 tee_1 tee_queue tee_clone tee_next tee_subiter];
      rewrite Hs; reflexivity.
  - cbn [yields] in Hs. cbn [tee_subiter] in Hs.
    destruct Hs as (s' & Hnext & Hs').
    destruct t; cbn in Hc, Hq, Hn; subst; cbn [yields].
    + exists (TeeHeap s' (TeeIterator None [] None) (TeeIterator c1 q1 n1)).
      split.
      * intros [e f be].
        unfold tee_iter_next, tee_iter_next_read, _tee_iter_next.
        cbn [deref tee_0 tee_1 tee_queue tee_clone tee_next tee_subiter].
        rewrite Hnext. reflexivity.
      * apply IH; try reflexivity. exact Hs'.
    + exists (TeeHeap s' (TeeIterator c0 q0 n0) (TeeIterator None [] None)).
      split.
      * intros [e f be].
        unfold tee_iter_next, tee_iter_next_read, _tee_iter_next.
        cbn [deref tee_0 tee_1 tee_queue tee_clone tee_next tee_subiter].
        rewrite Hnext. reflexivity.
      * apply IH; try reflexivity. exact Hs'.
Qed.

Lemma survivor_takes_its_slot :
  forall (x : A) (rest : list A) (h : heap) (t : side),
    tee_clone (deref h t) = None ->
    tee_queue (deref h t) = [] ->
    tee_next (deref h t) = Some x ->
    source (tee_subiter h) rest ->
    yields (tee_iter_next rbh_iter_next t) h (x :: rest).
Proof.
  intros x rest [s [c0 q0 n0] [c1 q1 n1]] t Hc Hq Hn Hs.
  destruct t; cbn in Hc, Hq, Hn; subst; cbn [yields].
  - exists (TeeHeap s (TeeIterator None [] None) (TeeIterator c1 q1 n1)).
    split.
    + intros [e f be]. reflexivity.
    + apply survivor_reads_the_source; try reflexivity. exact Hs.
  - exists (TeeHeap s (TeeIterator c0 q0 n0) (TeeIterator None [] None)).
    split.
    + intros [e f be]. reflexivity.
    + apply survivor_reads_the_source; try reflexivity. exact Hs.
Qed.

Lemma survivor_empties_its_queue :
  forall (q : list A) (parked : list A) (rest : list A) (h : heap)
         (t : side),
    tee_clone (deref h t) = None ->
    tee_queue (deref h t) = map Some q ->
    pending (deref h t) = map Some parked ->
    source (tee_subiter h) rest ->
    yields (tee_iter_next rbh_iter_next t) h (q ++ parked ++ rest).
Proof.
  induction q as [|y q IH];
    intros parked rest [s [c0 q0 n0] [c1 q1 n1]] t Hc Hq Hp Hs.
  - cbn [app map] in *. unfold pending in Hp.
    destruct t; cbn in Hc, Hq, Hp; subst.
    + destruct n0 as [x|]; destruct parked as [|x' [|? ?]];
        try discriminate Hp.
      * injection Hp as <-. apply survivor_takes_its_slot;
          try reflexivity. exact Hs.
      * apply survivor_reads_the_source; try reflexivity. exact Hs.
    + destruct n1 as [x|]; destruct parked as [|x' [|? ?]];
        try discriminate Hp.
      * injection Hp as <-. apply survivor_takes_its_slot;
          try reflexivity. exact Hs.
      * apply survivor_reads_the_source; try reflexivity. exact Hs.
  - cbn [app map] in *.
    destruct t; cbn in Hc, Hq, Hp; subst; cbn [yields].
    + exists (TeeHeap s (TeeIterator None (map Some q) n0)
                      (TeeIterator c1 q1 n1)).
      split; [ intros w; reflexivity | ].
      apply IH; try reflexivity; assumption.
    + exists (TeeHeap s (TeeIterator c0 q0 n0)
                      (TeeIterator None (map Some q) n1)).
      split; [ intros w; reflexivity | ].
      apply IH; try reflexivity; assumption.
Qed.

Lemma pending_is_an_element :
  forall (tee : tee_iterator A),
    exists parked : list A, pending tee = map Some parked.
Proof.
  intros [c q [x|]]; [ exists [x] | exists [] ]; reflexivity.
Qed.

Lemma map_Some_app_inv :
  forall (q : list (ptr A)) (p : list A) (b : list A),
    q ++ map Some p = map Some b ->
    exists a : list A, q = map Some a /\ b = a ++ p.
Proof.
  induction q as [|e q IH]; intros p b H.
  - exists []. cbn in H. split; [ reflexivity | ].
    symmetry. apply map_Some_inj. exact H.
  - destruct b as [|y b]; [ discriminate H | ].
    cbn in H. injection H as -> H.
    destruct (IH p b H) as (a & -> & ->).
    exists (y :: a). split; reflexivity.
Qed.

Lemma survivor_stream :
  forall (l : list A) (h : heap) (trace : list (side * ptr A)) (t : side),
    invariant l h trace ->
    yields (tee_iter_next rbh_iter_next t)
           (fst (tee_iter_destroy (other t) h))
           (skipn (List.length (observed t trace)) l).
Proof.
  intros l h trace t [[Hc0 Hc1] (_ & n & Hn & Hs & Hv)].
  specialize (Hv t).
  destruct (pending_is_an_element (deref h t)) as (parked & Hp).
  unfold in_store in Hv. rewrite Hp in Hv.
  rewrite app_assoc in Hv.
  destruct (map_Some_app_inv _ _ _ Hv) as (a & Ha & Hb).
  assert (Hq : exists q, tee_queue (deref h t) = map Some q
                         /\ a = observed t trace ++ q).
  { clear - Ha.
    revert a Ha. generalize (observed t trace) as o.
    induction o as [|x o IH]; intros a Ha.
    - exists a. cbn in Ha. split; [ exact Ha | reflexivity ].
    - destruct a as [|y a]; [ discriminate Ha | ].
      cbn in Ha. injection Ha as <- Ha.
      destruct (IH a Ha) as (q & Hq & ->). exists q. split; auto. }
  destruct Hq as (q & Hq & ->).
  assert (Hrest : skipn (List.length (observed t trace)) l
                  = q ++ parked ++ skipn n l).
  { rewrite <- (firstn_skipn n l) at 1. rewrite Hb.
    rewrite <- !app_assoc.
    rewrite skipn_app, skipn_all, Nat.sub_diag. reflexivity. }
  rewrite Hrest.
  destruct h as [s [c0 q0 n0] [c1 q1 n1]]. cbn in Hc0, Hc1. subst c0 c1.
  destruct t; cbn in Hq, Hp, Hs |- *;
    apply survivor_empties_its_queue; cbn; auto.
Qed.

Lemma yields_functional :
  forall (St : Type) (next : St -> world -> ptr A * St * world)
         (l1 l2 : list A) (s : St),
    yields next s l1 -> yields next s l2 -> l1 = l2.
Proof.
  intros St next.
  induction l1 as [|x l1 IH]; intros [|y l2] s H1 H2;
    cbn [yields] in H1, H2.
  - reflexivity.
  - destruct H2 as (s2 & H2 & _).
    specialize (H1 (World 0 [] EmptyString)).
    rewrite (H2 (World 0 [] EmptyString)) in H1. discriminate H1.
  - destruct H1 as (s1 & H1 & _).
    specialize (H2 (World 0 [] EmptyString)).
    rewrite (H1 (World 0 [] EmptyString)) in H2. discriminate H2.
  - destruct H1 as (s1 & H1 & Hl1). destruct H2 as (s2 & H2 & Hl2).
    pose proof (H1 (World 0 [] EmptyString)) as E.
    rewrite (H2 (World 0 [] EmptyString)) in E.
    injection E as <- <-. f_equal. exact (IH l2 s2 Hl1 Hl2).
Qed.

Lemma survivor_takes_what_is_stored :
  forall (stored rest : list A) (h : heap) (t : side),
    tee_clone (deref h t) = None ->
    in_store h t = map Some stored ->
    source (tee_subiter h) rest ->
    yields (tee_iter_next rbh_iter_next t) h (stored ++ rest).
Proof.
  intros stored rest h t Hc Hst Hs.
  destruct (pending_is_an_element (deref h t)) as (parked & Hp).
  unfold in_store in Hst. rewrite Hp in Hst.
  destruct (map_Some_app_inv _ _ _ Hst) as (q & Hq & ->).
  rewrite <- app_assoc.
  apply survivor_empties_its_queue; assumption.
Qed.

(** X9: the life of two linked siblings ends well in either order,
    whatever they hold. The sibling destroyed first leaves the shared
    iterator alone. The one that stays is from then on an ordinary
    iterator: it yields what is in store for it, its queue and then its
    slot, then what the shared iterator still has, and the end of the
    stream after that, and it pushes nothing any more. Destroying it in
    turn destroys the shared iterator, which is thus destroyed once. In a
    state that keeps the invariant of the tee, what the sibling that stays
    yields is exactly what it has not observed yet of the stream. *)
Theorem tee_survivor_yields_the_rest_of_the_stream :
  forall (h : heap) (t : side) (stored rest : list A),
    linked h ->
    in_store h t = map Some stored ->
    source (tee_subiter h) rest ->
    let '(h1, destroyed1) := tee_iter_destroy (other t) h in
    destroyed1 = false
    /\ tee_subiter h1 = tee_subiter h
    /\ yields (tee_iter_next rbh_iter_next t) h1 (stored ++ rest)
    /\ tee_iter_destroy t h1 = (h1, true)
    /\ forall (l : list A) (trace : list (side * ptr A)),
        invariant l h trace ->
        stored ++ rest = skipn (List.length (observed t trace)) l.
Proof.
  intros h t stored rest Hlinked Hst Hs.
  pose proof (@destroy_in_either_order h (other t) Hlinked) as Horder.
  destruct (tee_iter_destroy (other t) h) as [h1 destroyed1] eqn:Ed.
  replace (other (other t)) with t in Horder by (destruct t; reflexivity).
  destruct (tee_iter_destroy t h1) as [h2 destroyed2].
  destruct Horder as (-> & -> & Hclone & Hqueue & Hnext & Hsub & ->).
  split; [ reflexivity | ]. split; [ exact Hsub | ].
  assert (Hmine : yields (tee_iter_next rbh_iter_next t) h1 (stored ++ rest)).
  { apply survivor_takes_what_is_stored.
    - exact Hclone.
    - unfold in_store, pending. rewrite Hqueue, Hnext. exact Hst.
    - rewrite Hsub. exact Hs. }
  split; [ exact Hmine | ].
  split; [ reflexivity | ].
  intros l trace Hinv.
  pose proof (@survivor_stream l h trace t Hinv) as Hrest.
  rewrite Ed in Hrest. cbn [fst] in Hrest.
  exact (yields_functional _ _ _ _ Hmine Hrest).
Qed.

(** X10: when a sibling takes the element parked in its own slot, it hands
    it back to the sibling that produced it: that sibling has observed the
    element already, as the last of what it observed, and its very next call
    returns the element once more, whether the push succeeds or fails. *)
Theorem tee_parked_element_returns_to_its_producer :
  forall (l : list A) (h : heap) (trace : list (side * ptr A)) (t : side)
         (w : world),
    invariant l h trace ->
    takes_own_slot h t = true ->
    exists (x : A) (h' : heap) (w' : world),
      tee_iter_next rbh_iter_next t h w = (Some x, h', w')
      /\ errno w' = errno w
      /\ observed (other t) trace = observed t trace ++ [x]
      /\ tee_subiter h' = tee_subiter h
      /\ forall w2 : world,
          fst (fst (tee_iter_next rbh_iter_next (other t) h' w2)) = Some x.
Proof.
  intros l [s [c0 q0 n0] [c1 q1 n1]] trace t w
         [[Hc0 Hc1] (Hstore & n & Hn & Hs & Hv)] Hown.
  cbn in Hc0, Hc1. subst c0 c1.
  pose proof (Hv Tee0) as Hv0. pose proof (Hv Tee1) as Hv1.
  unfold in_store, pending in Hv0, Hv1, Hstore.
  cbn [deref tee_0 tee_1 tee_queue tee_next] in Hv0, Hv1, Hstore.
  unfold takes_own_slot in Hown.
  destruct t; cbn [deref tee_0 tee_1 tee_queue tee_next] in Hown.
  - destruct q0 as [|? ?]; [ | discriminate Hown ].
    destruct n0 as [x|]; [ | discriminate Hown ].
    destruct Hstore as [Hst | Hst]; [ discriminate Hst | ].
    apply app_eq_nil in Hst. destruct Hst as [-> Hn1].
    destruct n1 as [?|]; [ discriminate Hn1 | ].
    cbn [app] in Hv0, Hv1. rewrite app_nil_r in Hv1.
    exists x.
    unfold tee_iter_next, tee_iter_next_read, _tee_iter_next,
           tee_iter_share, rbh_queue_push, malloc.
    cbn [deref tee_0 tee_1 tee_queue tee_clone tee_next tee_subiter
         assign assign_subiter is_null andb].
    pose proof (attempt_errno (set_errno 0 w)) as He.
    destruct (attempt (set_errno 0 w)) as [[|] w1]; cbn [fst snd] in He;
      cbn [Z.eqb app tee_queue tee_clone tee_next];
      eexists; eexists; (split; [ reflexivity | ]);
      (split; [ reflexivity | ]);
      (split; [ apply map_Some_inj; rewrite map_app; cbn [map other];
                congruence | ]);
      (split; [ reflexivity | ]).
    + intros w2. reflexivity.
    + intros w2.
      unfold tee_iter_next, tee_iter_next_read, _tee_iter_next,
             tee_iter_share, rbh_queue_push, malloc.
      cbn [other deref tee_0 tee_1 tee_queue tee_clone tee_next
           tee_subiter assign assign_subiter is_null andb].
      destruct (attempt (set_errno 0 w2)) as [[|] w3]; reflexivity.
  - destruct q1 as [|? ?]; [ | discriminate Hown ].
    destruct n1 as [x|]; [ | discriminate Hown ].
    destruct Hstore as [Hst | Hst]; [ | discriminate Hst ].
    apply app_eq_nil in Hst. destruct Hst as [-> Hn0].
    destruct n0 as [?|]; [ discriminate Hn0 | ].
    cbn [app] in Hv0, Hv1. rewrite app_nil_r in Hv0.
    exists x.
    unfold tee_iter_next, tee_iter_next_read, _tee_iter_next,
           tee_iter_share, rbh_queue_push, malloc.
    cbn [deref tee_0 tee_1 tee_queue tee_clone tee_next tee_subiter
         assign assign_subiter is_null andb].
    pose proof (attempt_errno (set_errno 0 w)) as He.
    destruct (attempt (set_errno 0 w)) as [[|] w1]; cbn [fst snd] in He;
      cbn [Z.eqb app tee_queue tee_clone tee_next];
      eexists; eexists; (split; [ reflexivity | ]);
      (split; [ reflexivity | ]);
      (split; [ apply map_Some_inj; rewrite map_app; cbn [map other];
                congruence | ]);
      (split; [ reflexivity | ]).
    + intros w2. reflexivity.
    + intros w2.
      unfold tee_iter_next, tee_iter_next_read, _tee_iter_next,
             tee_iter_share, rbh_queue_push, malloc.
      cbn [other deref tee_0 tee_1 tee_queue tee_clone tee_next
           tee_subiter assign assign_subiter is_null andb].
      destruct (attempt (set_errno 0 w2)) as [[|] w3]; reflexivity.
Qed.

End TeeLife.

End ItertoolsFacts.

(* ------------------------------------------------------------------------ *)
(** ** The mongo backend *)

Module MongoFacts.
Import Mongo.
Local Open Scope Z_scope.

Section Lowering.
Variable v : version.
Variable payload : Type.

Abbreviation bulk_t := (mongoc_bulk_operation_t payload).
Abbreviation event := (rbh_fsevent payload).

(** Destructs the next [attempt] of the goal, remembering that it leaves
    errno alone. *)
Ltac next_attempt w :=
  let ok := fresh "ok" in
  let w' := fresh "w" in
  let E := fresh "E" in
  let He := fresh "He" in
  pose proof (attempt_errno w) as He;
  destruct (attempt w) as [ok w'] eqn:E; simpl in He; destruct ok.

Lemma update_one_cases :
  forall (bulk : bulk_t) sel upd upsert w ok bulk' w',
    _mongoc_bulk_operation_update_one v bulk sel upd upsert w
    = (ok, bulk', w') ->
    (ok = true /\ bulk' = bulk_append bulk (update_one sel upd upsert)
     /\ errno w' = errno w)
    \/ (ok = false /\ bulk' = bulk).
Proof.
  intros *. unfold _mongoc_bulk_operation_update_one.
  destruct (MONGOC_CHECK_VERSION v 1 7 0).
  - next_attempt w; simpl.
    + next_attempt w0; simpl; intros H; inversion H; subst;
        [ left | right ]; repeat split; auto; congruence.
    + intros H; inversion H; auto.
  - intros H; inversion H; auto.
Qed.

Lemma remove_one_cases :
  forall (bulk : bulk_t) sel w ok bulk' w',
    _mongoc_bulk_operation_remove_one v bulk sel w = (ok, bulk', w') ->
    (ok = true /\ bulk' = bulk_append bulk (remove_one sel)
     /\ errno w' = errno w)
    \/ (ok = false /\ bulk' = bulk).
Proof.
  intros *. unfold _mongoc_bulk_operation_remove_one.
  destruct (MONGOC_CHECK_VERSION v 1 7 0).
  - next_attempt w; simpl; intros H; inversion H; subst; auto.
  - intros H; inversion H; auto.
Qed.

Lemma append_update_cases :
  forall (bulk : bulk_t) sel (ev : event) w r bulk' w',
    append_update v bulk sel ev w = (r, bulk', w') ->
    (r = Some true
     /\ bulk' = bulk_append bulk
                  (update_one sel (fsevent_update ev)
                     (match fsevent_type ev with
                      | RBH_FET_UNLINK => false | _ => true end))
     /\ errno w' = errno w)
    \/ ((r = None \/ r = Some false) /\ bulk' = bulk).
Proof.
  intros *. unfold append_update, bson_update_from_fsevent.
  next_attempt w; simpl.
  - match goal with
    | |- context [_mongoc_bulk_operation_update_one v ?b ?s ?u ?x ?y] =>
        destruct (_mongoc_bulk_operation_update_one v b s u x y)
          as [[ok' b'] w2] eqn:Eu
    end.
    apply update_one_cases in Eu.
    intros H; inversion H; subst.
    destruct Eu as [(-> & -> & Hw) | (-> & ->)]; [ left | right ]; auto.
    repeat split; auto; congruence.
  - intros H; inversion H; auto.
Qed.

Lemma selector_cases :
  forall id w r w',
    BSON_APPEND_RBH_ID_FILTER id w = (r, w') ->
    errno w' = errno w /\ (r = Some (id_filter id) \/ r = None).
Proof.
  intros *. unfold BSON_APPEND_RBH_ID_FILTER.
  next_attempt w; intros H; inversion H; subst; auto.
Qed.

(** An event that was lowered left errno alone and added its
    sub-operations at the end of the bulk, in order. *)
Lemma append_fsevent_ok :
  forall (bulk bulk' : bulk_t) (ev : event) w w',
    mongo_bulk_append_fsevent v bulk ev w = (true, bulk', w') ->
    errno w' = errno w
    /\ bulk' = Bulk (bulk_ordered bulk) (bulk_ops bulk ++ lowering ev).
Proof.
  intros bulk bulk' [id data] w w'.
  unfold mongo_bulk_append_fsevent, lowering. cbn [fsevent_id fsevent_data].
  destruct (BSON_APPEND_RBH_ID_FILTER id w) as [[sel|] w1] eqn:Es;
    [ | intros; discriminate ].
  apply selector_cases in Es.
  destruct Es as [Hw1 [Hs|Hs]]; [ injection Hs as -> | discriminate ].
  destruct data as [sx|p n|p n| |xs|xs];
    try (match goal with
         | |- context [append_update v ?b ?s ?e ?x] =>
             destruct (append_update v b s e x) as [[r b'] w2] eqn:Ea
         end;
         apply append_update_cases in Ea;
         cbn [fsevent_type fsevent_data] in Ea;
         destruct Ea as [(-> & -> & Hw) | ([-> | ->] & ->)];
         intros Hr; inversion Hr; subst;
         split; [ congruence | reflexivity ]).
  - (* link *)
    unfold bson_from_unlink.
    next_attempt w1; [ | intros; discriminate ].
    destruct (_mongoc_bulk_operation_update_one v bulk (id_filter id)
                (unlink_update p n) false w0) as [[ok b1] w2] eqn:Eu.
    apply update_one_cases in Eu.
    destruct Eu as [(-> & -> & Hw) | (-> & ->)];
      [ | simpl; intros; discriminate ].
    cbn [negb].
    match goal with
    | |- context [append_update v ?b ?s ?e ?x] =>
        destruct (append_update v b s e x) as [[r b'] w3] eqn:Ea
    end.
    apply append_update_cases in Ea.
    cbn [fsevent_type fsevent_data] in Ea.
    destruct Ea as [(-> & -> & Hw') | ([-> | ->] & ->)];
      intros Hr; inversion Hr; subst.
    split; [ congruence | ].
    unfold bulk_append; cbn [bulk_ops bulk_ordered].
    rewrite <- app_assoc. reflexivity.
  - (* delete *)
    destruct (_mongoc_bulk_operation_remove_one v bulk (id_filter id) w1)
      as [[ok b1] w2] eqn:Er.
    apply remove_one_cases in Er.
    destruct Er as [(-> & -> & Hw) | (-> & ->)];
      intros Hr; inversion Hr; subst.
    split; [ congruence | reflexivity ].
Qed.

(** In a reliable world the next library call succeeds and the world stays
    reliable. *)
Ltac reliable_attempt :=
  match goal with
  | H : reliable ?w |- context [attempt ?w] =>
      let Ht := fresh "Ht" in
      let Hr := fresh "Hr" in
      let ok := fresh "ok" in
      let w' := fresh "w" in
      destruct (attempt_reliable H) as [Ht Hr];
      destruct (attempt w) as [ok w']; cbn [fst snd] in Ht, Hr; subst ok;
      clear H; cbn [negb]
  end.

Lemma update_one_reliable :
  forall (bulk : bulk_t) sel upd upsert w,
    reliable w ->
    exists w',
      _mongoc_bulk_operation_update_one v bulk sel upd upsert w
      = (true, bulk_append bulk (update_one sel upd upsert), w')
      /\ reliable w'.
Proof.
  intros * H. unfold _mongoc_bulk_operation_update_one.
  destruct (MONGOC_CHECK_VERSION v 1 7 0).
  - do 2 reliable_attempt. eauto.
  - eauto.
Qed.

Lemma append_fsevent_reliable :
  forall (bulk : bulk_t) (ev : event) w,
    reliable w ->
    exists bulk' w',
      mongo_bulk_append_fsevent v bulk ev w = (true, bulk', w')
      /\ reliable w'.
Proof.
  intros bulk [id data] w H.
  unfold mongo_bulk_append_fsevent, BSON_APPEND_RBH_ID_FILTER.
  cbn [fsevent_id fsevent_data].
  reliable_attempt.
  assert (Hupd : forall b w,
             reliable w ->
             exists b' w',
               append_update v b (id_filter id) (Fsevent id data) w
               = (Some true, b', w') /\ reliable w').
  { intros b wb H1. unfold append_update, bson_update_from_fsevent.
    reliable_attempt.
    match goal with
    | |- context [_mongoc_bulk_operation_update_one v ?b ?s ?u ?x ?y] =>
        destruct (update_one_reliable b s u x Hr0) as (wu & -> & Hu)
    end.
    eauto. }
  destruct data as [sx|p n|p n| |xs|xs];
    try (destruct (Hupd bulk _ Hr) as (b' & w' & -> & H'); eauto).
  - unfold bson_from_unlink. reliable_attempt.
    destruct (update_one_reliable bulk (id_filter id) (unlink_update p n)
                                  false Hr0) as (wu & -> & Hu).
    cbn [negb].
    destruct (Hupd (bulk_append bulk
                      (update_one (id_filter id) (unlink_update p n) false))
                   _ Hu) as (b' & w' & -> & H').
    eauto.
  - unfold _mongoc_bulk_operation_remove_one.
    destruct (MONGOC_CHECK_VERSION v 1 7 0).
    + reliable_attempt. eauto.
    + eauto.
Qed.

(** C1: lowering a link event. When the event is lowered, the bulk has
    received exactly two sub-operations on the target id, next to each other
    and in this order: an update-one without upsert carrying the update that
    removes the namespace edge (parent_id, name), then an update-one with
    upsert carrying the update of the link event. When the lowering reports
    failure the bulk has received nothing or the unlink alone, never the
    link. If building the unlink update fails, or if the driver refuses it,
    the lowering reports failure and the bulk is left as it was: the link
    sub-operation is not issued. When no library call fails the event is
    lowered. *)
Theorem link_event_lowering :
  forall (bulk : bulk_t) (id parent_id : rbh_id) (name : string) (w : world),
    let fsevent : event := Fsevent id (fsevent_link parent_id name) in
    let unlink :=
      update_one (id_filter id) (unlink_update parent_id name) false in
    let link := update_one (id_filter id) (fsevent_update fsevent) true in
    (forall ok bulk' w',
        mongo_bulk_append_fsevent v bulk fsevent w = (ok, bulk', w') ->
        bulk_ordered bulk' = bulk_ordered bulk
        /\ if ok then bulk_ops bulk' = bulk_ops bulk ++ [unlink; link]
                      /\ errno w' = errno w
           else bulk_ops bulk' = bulk_ops bulk
                \/ bulk_ops bulk' = bulk_ops bulk ++ [unlink])
    /\ (forall selector w1 w2,
           BSON_APPEND_RBH_ID_FILTER id w = (Some selector, w1) ->
           bson_from_unlink payload parent_id name w1 = (None, w2) ->
           mongo_bulk_append_fsevent v bulk fsevent w = (false, bulk, w2))
    /\ (forall selector w1 update w2 bulk3 w3,
           BSON_APPEND_RBH_ID_FILTER id w = (Some selector, w1) ->
           bson_from_unlink payload parent_id name w1 = (Some update, w2) ->
           _mongoc_bulk_operation_update_one v bulk selector update false w2
           = (false, bulk3, w3) ->
           mongo_bulk_append_fsevent v bulk fsevent w
           = (false, bulk, set_errno EINVAL w3))
    /\ (reliable w ->
        exists bulk' w',
          mongo_bulk_append_fsevent v bulk fsevent w = (true, bulk', w')).
Proof.
  intros bulk id p n w fsevent unlink link.
  split; [ | split; [ | split ] ].
  - intros [|] bulk' w' Hrun.
    + apply append_fsevent_ok in Hrun. destruct Hrun as [He ->].
      cbn. auto.
    + revert Hrun. unfold mongo_bulk_append_fsevent.
      cbn [fsevent fsevent_id fsevent_data].
      destruct (BSON_APPEND_RBH_ID_FILTER id w) as [[sel|] w1] eqn:Es;
        [ | intros Hr; inversion Hr; subst; auto ].
      apply selector_cases in Es.
      destruct Es as [_ [Hs|Hs]]; [ injection Hs as -> | discriminate ].
      unfold bson_from_unlink.
      next_attempt w1; [ | intros Hr; inversion Hr; subst; auto ].
      destruct (_mongoc_bulk_operation_update_one v bulk (id_filter id)
                  (unlink_update p n) false w0) as [[ok b1] w2] eqn:Eu.
      apply update_one_cases in Eu.
      destruct Eu as [(-> & -> & Hw) | (-> & ->)];
        [ | simpl; intros Hr; inversion Hr; subst; auto ].
      cbn [negb].
      match goal with
      | |- context [append_update v ?b ?s ?e ?x] =>
          destruct (append_update v b s e x) as [[r b'] w3] eqn:Ea
      end.
      apply append_update_cases in Ea.
      destruct Ea as [(-> & -> & Hw') | ([-> | ->] & ->)];
        intros Hr; inversion Hr; subst; cbn; auto.
  - intros sel w1 w2 Hs Hu. unfold mongo_bulk_append_fsevent.
    cbn [fsevent fsevent_id fsevent_data]. rewrite Hs, Hu. reflexivity.
  - intros sel w1 upd w2 bulk3 w3 Hs Hu Hi. unfold mongo_bulk_append_fsevent.
    cbn [fsevent fsevent_id fsevent_data]. rewrite Hs, Hu, Hi. cbn.
    apply update_one_cases in Hi.
    destruct Hi as [(Hf & _) | (_ & ->)]; [ discriminate | reflexivity ].
  - intros H.
    destruct (append_fsevent_reliable bulk fsevent H) as (b' & w' & Hrun & _).
    eauto.
Qed.

End Lowering.

Section Update.
Variable v : version.
Variable payload : Type.
Variable S : Type.
Variable rbh_iter_next :
  S -> world -> option (rbh_fsevent payload) * S * world.

Abbreviation bulk_t := (mongoc_bulk_operation_t payload).
Abbreviation event := (rbh_fsevent payload).
Abbreviation stream := (Itertools.yields rbh_iter_next).

Lemma lower_stream_ok :
  forall (evs : list event) (bulk bulk' : bulk_t) w w',
    lower_stream v evs bulk w = (true, bulk', w') ->
    errno w' = errno w
    /\ bulk' = Bulk (bulk_ordered bulk)
                    (bulk_ops bulk ++ flat_map (@lowering payload) evs).
Proof.
  induction evs as [|ev evs IH]; intros bulk bulk' w w'; cbn [lower_stream].
  - intros H; inversion H; subst. cbn. rewrite app_nil_r.
    destruct bulk'; auto.
  - destruct (mongo_bulk_append_fsevent v bulk ev w) as [[ok b1] w1] eqn:Ea.
    destruct ok; cbn [negb]; [ | intros; discriminate ].
    apply append_fsevent_ok in Ea. destruct Ea as [He ->].
    intros H. apply IH in H. destruct H as [He' ->].
    split; [ congruence | ].
    cbn. rewrite <- app_assoc. reflexivity.
Qed.

Lemma ssize_t_small : forall z, 0 <= z < 2 ^ 63 -> ssize_t z = z.
Proof.
  intros z Hz. unfold ssize_t.
  destruct (Z.ltb_spec z (2 ^ 63)); lia.
Qed.

(** The loop over a stream of events lowers them one after the other, and
    stops at the first one that cannot be lowered. *)
Lemma fsevent_for_each_stream :
  forall (evs : list event) fuel (bulk : bulk_t) s save count w,
    stream s evs ->
    errno w = 0 ->
    (List.length evs < fuel)%nat ->
    0 <= count ->
    count + Z.of_nat (List.length evs) < 2 ^ 64 ->
    forall ok bulk' w',
      lower_stream v evs bulk w = (ok, bulk', w') ->
      exists s',
        fsevent_for_each v rbh_iter_next fuel bulk s save count w
        = Some (if ok then ssize_t (count + Z.of_nat (List.length evs))
                else -1,
                bulk', s', if ok then set_errno save w' else w')
        /\ (ok = true -> stream s' []).
Proof.
  induction evs as [|ev evs IH];
    intros fuel bulk s save count w Hs Hw Hfuel Hc Hn ok bulk' w' Hl;
    (destruct fuel as [|fuel]; [ cbn in Hfuel; lia | ]);
    cbn [fsevent_for_each]; unfold fsevent_iter_next.
  - cbn in Hs. rewrite Hs. cbn in Hl. inversion Hl; subst.
    cbn. rewrite Z.add_0_r.
    exists s. split; [ | intros _; exact Hs ].
    destruct w'; cbn in *; subst; reflexivity.
  - destruct Hs as (s1 & Hnext & Hs1). rewrite Hnext.
    cbn [errno set_errno]. cbn [Z.eqb orb].
    replace (set_errno (errno w) (set_errno 0 w)) with w
      by (destruct w; reflexivity).
    cbn [lower_stream] in Hl.
    destruct (mongo_bulk_append_fsevent v bulk ev w) as [[ok1 b1] w1] eqn:Ea.
    destruct ok1; cbn [negb] in *.
    + pose proof (append_fsevent_ok _ _ _ _ Ea) as [He _].
      cbn [List.length] in Hn, Hfuel.
      rewrite size_t_small by lia.
      assert (Hw1 : errno w1 = 0) by congruence.
      assert (Hf : (List.length evs < fuel)%nat) by lia.
      assert (Hc1 : 0 <= count + 1) by lia.
      assert (Hn1 : count + 1 + Z.of_nat (List.length evs) < 2 ^ 64) by lia.
      destruct (IH fuel b1 s1 save (count + 1) w1 Hs1 Hw1 Hf Hc1 Hn1
                   _ _ _ Hl) as (s' & -> & Hend).
      exists s'. split; [ | exact Hend ].
      replace (count + 1 + Z.of_nat (List.length evs))
        with (count + Z.of_nat (Datatypes.S (List.length evs))) by lia.
      reflexivity.
    + inversion Hl; subst. exists s1. split; [ reflexivity | discriminate ].
Qed.

Lemma create_bulk_cases :
  forall (collection : mongoc_collection_t payload) ordered w
         (bulk : bulk_t) w1,
    _mongoc_collection_create_bulk_operation v collection ordered None w
    = (Some bulk, w1) ->
    bulk = Bulk ordered [] /\ errno w1 = errno w
    /\ rbh_backend_error w1 = rbh_backend_error w.
Proof.
  intros *. unfold _mongoc_collection_create_bulk_operation.
  destruct (MONGOC_CHECK_VERSION v 1 9 0).
  - pose proof (attempt_errno w) as He.
    pose proof (attempt_backend_error w) as Hb.
    destruct (attempt w) as [[|] wa]; cbn [negb fst snd] in *;
      [ | intros; discriminate ].
    pose proof (attempt_errno wa) as He'.
    pose proof (attempt_backend_error wa) as Hb'.
    destruct (attempt wa) as [[|] wb]; cbn [negb fst snd] in *;
      intros H; inversion H; subst.
    repeat split; congruence.
  - pose proof (attempt_errno w) as He.
    pose proof (attempt_backend_error w) as Hb.
    destruct (attempt w) as [[|] wa]; cbn [negb fst snd] in *;
      intros H; inversion H; subst; auto.
Qed.

Lemma has_label_In :
  forall labels label,
    mongoc_error_has_label labels label = true <-> In label labels.
Proof.
  intros labels label. unfold mongoc_error_has_label.
  rewrite existsb_exists. split.
  - intros (x & Hin & Hx). apply String.eqb_eq in Hx. subst. exact Hin.
  - intros Hin. exists label. split; [ exact Hin | apply String.eqb_refl ].
Qed.

(** C10: update is all or nothing with respect to the lowering. When the
    bulk was created and one event of the stream cannot be lowered (a
    document cannot be built, the driver refuses a sub-operation), update
    returns -1, with the world as the failed lowering left it, and the
    backend is what it was: no bulk, not even the part already lowered, was
    sent to the server. *)
Theorem update_aborts_on_lowering_failure :
  forall (mongo : mongo_backend payload) (s : S) (evs : list event)
         (fuel : nat) (w : world) (bulk0 : bulk_t) (w1 : world)
         (bulk : bulk_t) (w2 : world),
    stream s evs ->
    (List.length evs < fuel)%nat ->
    Z.of_nat (List.length evs) < 2 ^ 63 ->
    _mongoc_collection_create_bulk_operation v (entries mongo) false None w
    = (Some bulk0, w1) ->
    lower_stream v evs bulk0 (set_errno 0 w1) = (false, bulk, w2) ->
    exists s',
      mongo_backend_update v rbh_iter_next fuel mongo s w
      = Some (-1, mongo, s', w2).
Proof.
  intros mongo s evs fuel w bulk0 w1 bulk w2 Hs Hfuel Hlen Hc Hl.
  unfold mongo_backend_update, mongo_bulk_init_from_fsevents. rewrite Hc.
  assert (Hn : 0 + Z.of_nat (List.length evs) < 2 ^ 64) by lia.
  destruct (@fsevent_for_each_stream evs fuel bulk0 s (errno w1) 0
              (set_errno 0 w1) Hs eq_refl Hfuel (Z.le_refl 0) Hn _ _ _ Hl)
    as (s' & -> & _).
  exists s'. reflexivity.
Qed.

Lemma substring_whole :
  forall (s : string) (n : nat),
    (String.length s <= n)%nat -> substring 0 n s = s.
Proof.
  induction s as [|c s IH]; intros [|n] H; cbn in *; try reflexivity;
    try lia.
  rewrite IH by lia. reflexivity.
Qed.

(** C2: how update classifies its outcome, once the bulk is created and
    every event of the stream is lowered. The stream is read to its end.
    An empty stream: update returns 0, the backend is untouched (nothing is
    executed) and errno is the caller's. Otherwise exactly one bulk, the
    lowering of the whole stream, is executed. If the server reports
    success, update returns the number of events and errno is the caller's.
    If the server reports an error, update returns -1 and
    rbh_backend_error holds "mongoc: " followed by the driver's message,
    the whole of it when it fits the buffer and its first
    RBH_BACKEND_ERROR_SIZE - 1 characters otherwise; errno is EAGAIN when
    the error is labelled TransientTransactionError and the driver has
    labels (libmongoc 1.11 or later), and RBH_BACKEND_ERROR in every other
    case: an error without that label, or any error under an older driver,
    which cannot tell a transient error from another. *)
Theorem update_failure_classification :
  forall (mongo : mongo_backend payload) (s : S) (evs : list event)
         (fuel : nat) (w : world) (bulk0 : bulk_t) (w1 : world)
         (bulk : bulk_t) (w2 : world),
    stream s evs ->
    (List.length evs < fuel)%nat ->
    Z.of_nat (List.length evs) < 2 ^ 63 ->
    _mongoc_collection_create_bulk_operation v (entries mongo) false None w
    = (Some bulk0, w1) ->
    lower_stream v evs bulk0 (set_errno 0 w1) = (true, bulk, w2) ->
    let ops := flat_map (@lowering payload) evs in
    exists r mongo' s' w',
      mongo_backend_update v rbh_iter_next fuel mongo s w
      = Some (r, mongo', s', w')
      /\ stream s' []
      /\ (evs = [] -> r = 0 /\ mongo' = mongo /\ errno w' = errno w)
      /\ (evs <> [] ->
          journal (entries mongo') = journal (entries mongo) ++ [ops]
          /\ documents (entries mongo') = documents (entries mongo))
      /\ (evs <> [] ->
          server_execute (entries mongo) ops = exec_ok ->
          r = Z.of_nat (List.length evs) /\ errno w' = errno w)
      /\ (evs <> [] ->
          forall message labels,
            server_execute (entries mongo) ops = exec_error message labels ->
            r = -1
            (* the message *)
            /\ rbh_backend_error w'
               = substring 0 (RBH_BACKEND_ERROR_SIZE - 1)
                           ("mongoc: " ++ message)
            /\ ((String.length ("mongoc: " ++ message)
                 < RBH_BACKEND_ERROR_SIZE)%nat ->
                rbh_backend_error w' = ("mongoc: " ++ message)%string)
            (* the kind of error *)
            /\ (MONGOC_CHECK_VERSION v 1 11 0 = true ->
                In "TransientTransactionError"%string labels ->
                errno w' = EAGAIN)
            /\ (~ In "TransientTransactionError"%string labels ->
                errno w' = RBH_BACKEND_ERROR)
            /\ (MONGOC_CHECK_VERSION v 1 11 0 = false ->
                errno w' = RBH_BACKEND_ERROR)).
Proof.
  intros mongo s evs fuel w bulk0 w1 bulk w2 Hs Hfuel Hlen Hc Hl ops.
  unfold mongo_backend_update, mongo_bulk_init_from_fsevents. rewrite Hc.
  assert (Hn : 0 + Z.of_nat (List.length evs) < 2 ^ 64) by lia.
  destruct (@fsevent_for_each_stream evs fuel bulk0 s (errno w1) 0
              (set_errno 0 w1) Hs eq_refl Hfuel (Z.le_refl 0) Hn _ _ _ Hl)
    as (s' & -> & Hend).
  specialize (Hend eq_refl).
  apply create_bulk_cases in Hc. destruct Hc as (-> & Hw1 & Hb1).
  apply lower_stream_ok in Hl. destruct Hl as (Hw2 & ->).
  cbn [Z.add bulk_ops bulk_ordered app] in *.
  rewrite ssize_t_small by lia.
  destruct evs as [|ev evs].
  - cbn. exists 0, mongo, s', (set_errno (errno w1) w2).
    repeat split; auto; try congruence.
  - assert (Hpos : (Z.of_nat (List.length (ev :: evs)) <=? 0) = false)
      by (apply Z.leb_gt; cbn [List.length]; lia).
    rewrite Hpos. unfold mongoc_bulk_operation_execute.
    cbn [bulk_ops]. fold ops.
    destruct (server_execute (entries mongo) ops) as [|message labels] eqn:Ex.
    + eexists _, _, s', _. split; [ reflexivity | ].
      repeat split; auto; try discriminate; try congruence.
    + eexists _, _, s', _. split; [ reflexivity | ].
      split; [ exact Hend | ].
      split; [ discriminate | ].
      split; [ auto | ].
      split; [ discriminate | ].
      intros _ m l Hm. inversion Hm; subst.
      split; [ reflexivity | ].
      split; [ reflexivity | ].
      split.
      { intros Hfits. cbn [rbh_backend_error set_errno set_backend_error].
        unfold snprintf_mongoc. apply substring_whole. lia. }
      cbn [errno set_errno].
      split.
      { intros Hv Hin. apply has_label_In in Hin. rewrite Hv, Hin.
        reflexivity. }
      split.
      { intros Hin.
        destruct (mongoc_error_has_label l "TransientTransactionError")
          eqn:E.
        - apply has_label_In in E. contradiction.
        - rewrite andb_false_r. reflexivity. }
      intros Hv. rewrite Hv. reflexivity.
Qed.

End Update.

Section Root.
Variable payload : Type.
Variable rbh_filter_validate :
  option rbh_filter -> world -> Z * world.

Lemma attempts_reliable :
  forall n w,
    reliable w ->
    exists w', attempts n w = (true, w') /\ reliable w'
               /\ errno w' = errno w.
Proof.
  induction n as [|n IH]; intros w H; cbn [attempts].
  - eauto.
  - destruct (attempt_reliable H) as [Ht Hr].
    pose proof (attempt_errno w) as He.
    destruct (attempt w) as [ok w1]; cbn [fst snd] in *; subst ok.
    destruct (IH w1 Hr) as (w' & -> & Hr' & He').
    exists w'. repeat split; auto. congruence.
Qed.

Lemma is_root_row_spec :
  forall row, is_root_row row = true <-> fsentry_parent_id row = [].
Proof.
  intros [id [|b parent] name]; cbn; split; intros H;
    try reflexivity; discriminate.
Qed.

(** C9: the root operation. It is [rbh_backend_filter_one] on the filter
    "parent_id = the binary value of size 0", whatever the two field masks.
    When the validator accepts that filter, the server answers the pipeline
    [unwind the namespace; match the filter] with the rows whose parent is
    the zero-length identifier, the cursor ends cleanly and no allocation
    fails: if there is such a row, root returns the first one (the only one
    when the root is unique) and leaves errno alone; if there is none, root
    returns NULL with errno ENOENT. *)
Theorem root_returns_the_entry_without_parent :
  forall (mongo : mongo_backend payload) (fsentry_mask statx_mask : Z)
         (w : world),
    (forall w0, rbh_filter_validate (Some ROOT_FILTER) w0 = (0, w0)) ->
    answers_root_query (entries mongo) ->
    server_cursor_errno (entries mongo) = 0 ->
    reliable w ->
    mongo_root rbh_filter_validate mongo fsentry_mask statx_mask w
    = rbh_backend_filter_one rbh_filter_validate mongo
        (Some (filter_compare RBH_FOP_EQUAL RBH_FP_PARENT_ID
                              (RBH_VT_BINARY [])))
        fsentry_mask statx_mask w
    /\ exists w',
      match filter is_root_row (unwind (documents (entries mongo))) with
      | root :: _ =>
          mongo_root rbh_filter_validate mongo fsentry_mask statx_mask w
          = (Some root, w')
          /\ errno w' = errno w
          /\ fsentry_parent_id root = []
          /\ In root (unwind (documents (entries mongo)))
      | [] =>
          mongo_root rbh_filter_validate mongo fsentry_mask statx_mask w
          = (None, w')
          /\ errno w' = ENOENT
      end.
Proof.
  intros mongo fm sm w Hvalid Hserver Hclean Hw.
  split; [ reflexivity | ].
  unfold mongo_root, rbh_backend_filter_one, mongo_backend_filter_fsentries.
  rewrite Hvalid. cbn [Z.eqb negb].
  unfold bson_pipeline_from_filter.
  destruct (attempts_reliable 8 Hw) as (w1 & -> & Hw1 & He1).
  unfold mongoc_collection_aggregate.
  unfold answers_root_query in Hserver. rewrite Hserver.
  unfold mongo_iterator_new.
  destruct (malloc_reliable Hw1) as (w2 & -> & Hw2 & He2 & _).
  unfold mongo_iter_next, mongoc_cursor_next. cbn [cursor_rows cursor_errno].
  rewrite Hclean.
  destruct (filter is_root_row (unwind (documents (entries mongo))))
    as [|root rows] eqn:Erows.
  - cbn. eexists. split; reflexivity.
  - unfold fsentry_from_bson.
    assert (Hw3 : reliable (set_errno (errno w2) (set_errno 0 w2)))
      by exact Hw2.
    destruct (malloc_reliable Hw3) as (w3 & -> & _ & He3 & _).
    exists w3. split; [ reflexivity | ].
    assert (Hin : In root (filter is_root_row
                             (unwind (documents (entries mongo)))))
      by (rewrite Erows; left; reflexivity).
    apply filter_In in Hin. destruct Hin as [Hin Hroot].
    apply is_root_row_spec in Hroot.
    repeat split; auto.
    cbn in He3. congruence.
Qed.

End Root.

(** ** Events of every kind, any iterator, queries and the life cycle *)

Section LoweringByKind.
Variable v : version.
Variable payload : Type.

Abbreviation bulk_t := (mongoc_bulk_operation_t payload).
Abbreviation event := (rbh_fsevent payload).

Lemma bulk_unchanged :
  forall bulk : bulk_t, bulk = Bulk (bulk_ordered bulk) (bulk_ops bulk ++ []).
Proof. intros [o ops]. cbn. rewrite app_nil_r. reflexivity. Qed.

Lemma lowering_not_empty : forall ev : event, lowering ev <> [].
Proof. intros [id [ | | | | | ]]; discriminate. Qed.

(** What a call of [mongo_bulk_append_fsevent] adds to the bulk: the whole
    lowering of the event when it reports success, a strict prefix of it
    when it reports failure. *)
Lemma append_fsevent_extends :
  forall (bulk bulk' : bulk_t) (ev : event) (ok : bool) w w',
    mongo_bulk_append_fsevent v bulk ev w = (ok, bulk', w') ->
    exists n : nat,
      bulk' = Bulk (bulk_ordered bulk)
                   (bulk_ops bulk ++ firstn n (lowering ev))
      /\ if ok then n = List.length (lowering ev) /\ errno w' = errno w
         else (n < List.length (lowering ev))%nat.
Proof.
  intros bulk bulk' ev [|] w w' H.
  - apply append_fsevent_ok in H. destruct H as [He ->].
    exists (List.length (lowering ev)). rewrite firstn_all. auto.
  - destruct ev as [id data].
    unfold mongo_bulk_append_fsevent in H.
    cbn [fsevent_id fsevent_data] in H.
    destruct (BSON_APPEND_RBH_ID_FILTER id w) as [[sel|] w1] eqn:Es.
    2: { injection H as <- <-. exists 0%nat. split.
         - apply bulk_unchanged.
         - destruct data; cbn; lia. }
    apply selector_cases in Es.
    destruct Es as [Hw1 [Hs|Hs]]; [ injection Hs as -> | discriminate ].
    destruct data as [sx|p n|p n| |xs|xs];
      try (match type of H with
           | context [append_update v ?b ?s ?e ?x] =>
               destruct (append_update v b s e x) as [[r b'] w2] eqn:Ea
           end;
           apply append_update_cases in Ea;
           destruct Ea as [(-> & -> & Hw) | ([-> | ->] & ->)];
           [ discriminate H
           | injection H as <- <-; exists 0%nat;
             split; [ apply bulk_unchanged | cbn; lia ] .. ]).
    + (* link *)
      unfold bson_from_unlink in H.
      destruct (attempt w1) as [[|] w0].
      2: { injection H as <- <-. exists 0%nat.
           split; [ apply bulk_unchanged | cbn; lia ]. }
      destruct (_mongoc_bulk_operation_update_one v bulk (id_filter id)
                  (unlink_update p n) false w0) as [[ok b1] w2] eqn:Eu.
      apply update_one_cases in Eu.
      destruct Eu as [(-> & -> & Hw) | (-> & ->)].
      * cbn [negb] in H.
        match type of H with
        | context [append_update v ?b ?s ?e ?x] =>
            destruct (append_update v b s e x) as [[r b'] w3] eqn:Ea
        end.
        apply append_update_cases in Ea.
        destruct Ea as [(-> & -> & Hw') | ([-> | ->] & ->)];
          [ discriminate H | | ];
          injection H as <- <-; exists 1%nat;
          (split; [ reflexivity | cbn; lia ]).
      * cbn [negb] in H. injection H as <- <-. exists 0%nat.
        split; [ apply bulk_unchanged | cbn; lia ].
    + (* delete *)
      destruct (_mongoc_bulk_operation_remove_one v bulk (id_filter id) w1)
        as [[ok b1] w2] eqn:Er.
      apply remove_one_cases in Er.
      destruct Er as [(-> & -> & Hw) | (-> & ->)];
        [ discriminate H | ].
      injection H as <- <-. exists 0%nat.
      split; [ apply bulk_unchanged | cbn; lia ].
Qed.

(** X11: how each kind of event is lowered. A delete becomes one remove-one;
    a link the pair (unlink without upsert, link with upsert); an unlink one
    update without upsert; an upsert or an xattr event one update with
    upsert. Every sub-operation selects the entry by the id of the event. A
    call that reports success has appended exactly these, in order, and left
    errno alone; one that reports failure has appended fewer: nothing, or
    for a link possibly the unlink alone. *)
Theorem fsevent_lowering_by_kind :
  forall (bulk bulk' : bulk_t) (ev : event) (ok : bool) (w w' : world),
    mongo_bulk_append_fsevent v bulk ev w = (ok, bulk', w') ->
    let selector := id_filter (fsevent_id ev) in
    let change := update_one selector (fsevent_update ev) in
    let expected :=
      match fsevent_data ev with
      | fsevent_delete => [remove_one selector]
      | fsevent_link parent_id name =>
          [update_one selector (unlink_update parent_id name) false;
           change true]
      | fsevent_unlink _ _ => [change false]
      | fsevent_upsert _ => [change true]
      | fsevent_ns_xattr _ => [change true]
      | fsevent_inode_xattr _ => [change true]
      end in
    bulk_ordered bulk' = bulk_ordered bulk
    /\ if ok then bulk_ops bulk' = bulk_ops bulk ++ expected
                  /\ errno w' = errno w
       else exists n : nat,
           (n < List.length expected)%nat
           /\ bulk_ops bulk' = bulk_ops bulk ++ firstn n expected.
Proof.
  intros bulk bulk' ev ok w w' H selector change expected.
  assert (Hexp : expected = lowering ev).
  { subst expected change selector. destruct ev as [id data].
    destruct data; reflexivity. }
  rewrite Hexp.
  apply append_fsevent_extends in H. destruct H as (n & -> & Hn).
  cbn [bulk_ordered bulk_ops]. split; [ reflexivity | ].
  destruct ok.
  - destruct Hn as [-> He]. rewrite firstn_all. auto.
  - exists n. auto.
Qed.

End LoweringByKind.

Section UpdateEdges.
Variable v : version.
Variable payload : Type.
Variable S : Type.
Variable rbh_iter_next :
  S -> world -> option (rbh_fsevent payload) * S * world.

Abbreviation stream := (Itertools.yields rbh_iter_next).

Lemma fsevent_for_each_extends :
  forall fuel (bulk : mongoc_bulk_operation_t payload) s save c0 w r bulk'
         s' w',
    fsevent_for_each v rbh_iter_next fuel bulk s save c0 w
    = Some (r, bulk', s', w') ->
    exists ops,
      bulk' = Bulk (bulk_ordered bulk) (bulk_ops bulk ++ ops)
      /\ (r = -1 \/ exists c, r = ssize_t c /\ (ops = [] -> c = c0)).
Proof.
  induction fuel as [|fuel IH]; intros bulk s save c0 w r bulk' s' w' H;
    [ discriminate H | ].
  cbn [fsevent_for_each] in H.
  destruct (fsevent_iter_next rbh_iter_next s w) as [[[ev|] s1] w1].
  - destruct (mongo_bulk_append_fsevent v bulk ev w1) as [[ok b1] w2] eqn:Ea.
    apply append_fsevent_extends in Ea. destruct Ea as (n & -> & Hn).
    destruct ok; cbn [negb] in H.
    + destruct Hn as [-> _]. rewrite firstn_all in H.
      apply IH in H. destruct H as (ops & -> & Hr).
      cbn [bulk_ordered bulk_ops]. exists (lowering ev ++ ops).
      split; [ rewrite app_assoc; reflexivity | ].
      destruct Hr as [-> | (c & -> & _)]; [ left; reflexivity | ].
      right. exists c. split; [ reflexivity | ].
      intros Hnil. apply app_eq_nil in Hnil. destruct Hnil as [Hnil _].
      exfalso. exact (lowering_not_empty _ Hnil).
    + injection H as <- <- <- <-. eexists. split; [ reflexivity | ].
      left. reflexivity.
  - destruct (negb (errno w1 =? 0)); injection H as <- <- <- <-;
      exists []; (split; [ apply bulk_unchanged | ]).
    + left. reflexivity.
    + right. exists c0. auto.
Qed.

(** X12: [update] sends the server at most one bulk per call and never an
    empty one: either the backend is as it was and the result is an error or
    0, or exactly one bulk with at least one sub-operation was executed, the
    result being -1 if the server refused it and positive otherwise. This
    holds for every iterator, well-behaved or not, and whatever fails. *)
Theorem update_never_executes_an_empty_bulk :
  forall (fuel : nat) (mongo mongo' : mongo_backend payload) (s s' : S)
         (w w' : world) (r : Z),
    mongo_backend_update v rbh_iter_next fuel mongo s w
    = Some (r, mongo', s', w') ->
    (r <= 0 /\ mongo' = mongo)
    \/ (exists ops,
          ops <> []
          /\ journal (entries mongo') = journal (entries mongo) ++ [ops]
          /\ documents (entries mongo') = documents (entries mongo)
          /\ match server_execute (entries mongo) ops with
             | exec_ok => 0 < r
             | exec_error _ _ => r = -1
             end).
Proof.
  intros fuel mongo mongo' s s' w w' r H.
  unfold mongo_backend_update in H.
  destruct (_mongoc_collection_create_bulk_operation v (entries mongo) false
              None w) as [[bulk0|] w1] eqn:Ec.
  2: { injection H as <- <- <- <-. left. split; [ lia | reflexivity ]. }
  apply create_bulk_cases in Ec. destruct Ec as (-> & _ & _).
  unfold mongo_bulk_init_from_fsevents in H.
  destruct (fsevent_for_each v rbh_iter_next fuel (Bulk false []) s
              (errno w1) 0 (set_errno 0 w1))
    as [[[[count bulk1] s1] w2]|] eqn:Ef; [ | discriminate H ].
  apply fsevent_for_each_extends in Ef.
  destruct Ef as (ops & -> & Hcount).
  cbn [bulk_ordered bulk_ops app] in H.
  destruct (Z.leb_spec count 0) as [Hle | Hpos].
  - injection H as <- <- <- <-. left. auto.
  - right. exists ops.
    assert (Hops : ops <> []).
    { intros ->. destruct Hcount as [-> | (c & -> & Hc)]; [ lia | ].
      rewrite (Hc eq_refl) in Hpos. cbn in Hpos. lia. }
    unfold mongoc_bulk_operation_execute in H. cbn [bulk_ops] in H.
    destruct (server_execute (entries mongo) ops) as [|message labels];
      injection H as <- <- <- <-; cbn [entries journal documents];
      auto.
Qed.

Lemma fsevent_for_each_failing :
  forall (evs : list (rbh_fsevent payload)) (e : Z) fuel
         (bulk : mongoc_bulk_operation_t payload) s save count w,
    Itertools.fails_after rbh_iter_next s evs e ->
    e <> 0 -> e <> ENODATA ->
    errno w = 0 ->
    (List.length evs < fuel)%nat ->
    0 <= count ->
    count + Z.of_nat (List.length evs) < 2 ^ 64 ->
    forall ok bulk' w',
      lower_stream v evs bulk w = (ok, bulk', w') ->
      exists s',
        fsevent_for_each v rbh_iter_next fuel bulk s save count w
        = Some (-1, bulk', s', if ok then set_errno e w' else w').
Proof.
  induction evs as [|ev evs IH];
    intros e fuel bulk s save count w Hs He0 He1 Hw Hfuel Hc Hn ok bulk' w'
           Hl;
    (destruct fuel as [|fuel]; [ cbn in Hfuel; lia | ]);
    cbn [fsevent_for_each]; unfold fsevent_iter_next.
  - cbn in Hs. rewrite Hs. cbn in Hl. inversion Hl; subst.
    cbn [errno set_errno].
    apply Z.eqb_neq in He0, He1. rewrite He0, He1. cbn [orb negb].
    cbn [errno set_errno]. rewrite He0. cbn [negb].
    exists s. reflexivity.
  - destruct Hs as (s1 & Hnext & Hs1). rewrite Hnext.
    cbn [errno set_errno]. cbn [Z.eqb orb].
    replace (set_errno (errno w) (set_errno 0 w)) with w
      by (destruct w; reflexivity).
    cbn [lower_stream] in Hl.
    destruct (mongo_bulk_append_fsevent v bulk ev w) as [[ok1 b1] w1] eqn:Ea.
    destruct ok1; cbn [negb] in *.
    + pose proof (append_fsevent_ok _ _ _ _ Ea) as [He _].
      cbn [List.length] in Hn, Hfuel.
      rewrite size_t_small by lia.
      assert (Hw1 : errno w1 = 0) by congruence.
      destruct (IH e fuel b1 s1 save (count + 1) w1 Hs1 He0 He1 Hw1
                   ltac:(lia) ltac:(lia) ltac:(lia) _ _ _ Hl) as (s' & ->).
      exists s'. reflexivity.
    + inversion Hl; subst. exists s1. reflexivity.
Qed.

(** X13: when the iterator of events fails (it returns NULL with an errno
    that is neither 0 nor ENODATA) after some events that were all lowered,
    [update] returns -1 with the errno of the iterator and sends nothing to
    the server: the events lowered so far are dropped with the bulk. *)
Theorem update_aborts_when_the_iterator_fails :
  forall (mongo : mongo_backend payload) (s : S)
         (evs : list (rbh_fsevent payload)) (e : Z) (fuel : nat) (w : world)
         (bulk0 : mongoc_bulk_operation_t payload) (w1 : world)
         (bulk : mongoc_bulk_operation_t payload) (w2 : world),
    Itertools.fails_after rbh_iter_next s evs e ->
    e <> 0 -> e <> ENODATA ->
    (List.length evs < fuel)%nat ->
    Z.of_nat (List.length evs) < 2 ^ 63 ->
    _mongoc_collection_create_bulk_operation v (entries mongo) false None w
    = (Some bulk0, w1) ->
    lower_stream v evs bulk0 (set_errno 0 w1) = (true, bulk, w2) ->
    exists s' w',
      mongo_backend_update v rbh_iter_next fuel mongo s w
      = Some (-1, mongo, s', w')
      /\ errno w' = e.
Proof.
  intros mongo s evs e fuel w bulk0 w1 bulk w2 Hs He0 He1 Hfuel Hlen Hc Hl.
  unfold mongo_backend_update, mongo_bulk_init_from_fsevents. rewrite Hc.
  destruct (@fsevent_for_each_failing evs e fuel bulk0 s (errno w1) 0
              (set_errno 0 w1) Hs He0 He1 eq_refl Hfuel (Z.le_refl 0)
              ltac:(lia) _ _ _ Hl) as (s' & ->).
  exists s', (set_errno e w2). split; reflexivity.
Qed.

End UpdateEdges.

Section Query.
Variable payload : Type.
Variable rbh_filter_validate :
  option rbh_filter -> world -> Z * world.

Lemma attempts_errno :
  forall n w, errno (snd (attempts n w)) = errno w.
Proof.
  induction n as [|n IH]; intros w; cbn [attempts]; [ reflexivity | ].
  pose proof (attempt_errno w) as He.
  destruct (attempt w) as [[|] w1]; cbn [fst snd] in *; [ | exact He ].
  rewrite IH. exact He.
Qed.

(** A chain of [n] fallible calls reads the next [n] decisions of the
    script: it succeeds when none of them is a failure, and has then used
    them up. *)
Lemma attempts_script :
  forall (n : nat) (w : world),
    fst (attempts n w) = forallb (fun ok : bool => ok) (firstn n (faults w))
    /\ (fst (attempts n w) = true ->
        faults (snd (attempts n w)) = skipn n (faults w)).
Proof.
  induction n as [|n IH]; intros [e f be]; cbn [attempts].
  - split; reflexivity.
  - destruct f as [|[|] f]; cbn [attempt faults errno rbh_backend_error].
    + destruct (IH (World e [] be)) as [H1 H2].
      cbn [faults] in H1, H2. rewrite firstn_nil in *. rewrite skipn_nil in *.
      split; [ exact H1 | exact H2 ].
    + destruct (IH (World e f be)) as [H1 H2].
      cbn [faults firstn forallb andb skipn] in *.
      split; [ exact H1 | exact H2 ].
    + cbn [firstn forallb andb fst]. split; [ reflexivity | discriminate ].
Qed.

(** X14: the outcomes of [filter_fsentries], each with its cause. A
    filter the validator refuses: NULL, with the world as the validator
    left it, nothing else being attempted. One of the eight appends that
    build the pipeline fails: NULL with ENOBUFS. The pipeline is built and
    the server gives no cursor: NULL with EINVAL. The server gives a
    cursor and the iterator cannot be allocated: NULL with ENOMEM.
    Otherwise an iterator over the rows the server finds for the pipeline
    "unwind the namespace, match the filter", with errno as the validator
    left it. The two masks are never looked at. *)
Theorem filter_fsentries_outcomes :
  forall (mongo : mongo_backend payload) (filter : option rbh_filter)
         (fsentry_mask statx_mask : Z) (w : world),
    let pipeline :=
      [stage_unwind "$ns"; stage_match filter] in
    let found :=
      server_aggregate (entries mongo) (documents (entries mongo)) pipeline in
    let '(rc, wv) := rbh_filter_validate filter w in
    (* the next decisions of the script: the eight appends, the malloc *)
    let built := forallb (fun ok : bool => ok) (firstn 8 (faults wv)) in
    let allocated := nth 8 (faults wv) true in
    let '(fsentries, w') :=
      mongo_backend_filter_fsentries rbh_filter_validate mongo filter
                                     fsentry_mask statx_mask w in
    (if negb (rc =? 0) then fsentries = None /\ w' = wv
     else if negb built then fsentries = None /\ errno w' = ENOBUFS
     else
       match found with
       | None => fsentries = None /\ errno w' = EINVAL
       | Some rows =>
           if allocated then
             fsentries
             = Some (Cursor rows (server_cursor_errno (entries mongo)))
             /\ errno w' = errno wv
           else fsentries = None /\ errno w' = ENOMEM
       end)
    /\ forall fsentry_mask' statx_mask' : Z,
        mongo_backend_filter_fsentries rbh_filter_validate mongo filter
                                       fsentry_mask' statx_mask' w
        = (fsentries, w').
Proof.
  intros mongo filter fm sm w pipeline found.
  unfold mongo_backend_filter_fsentries.
  destruct (rbh_filter_validate filter w) as [rc wv].
  cbv zeta.
  destruct (Z.eqb_spec rc 0) as [-> | Hrc]; cbn [negb].
  2: { split; [ split; reflexivity | reflexivity ]. }
  unfold bson_pipeline_from_filter.
  pose proof (attempts_errno 8 wv) as He.
  destruct (attempts_script 8 wv) as [Hb Hf].
  destruct (attempts 8 wv) as [[|] w1]; cbn [fst snd] in He, Hb, Hf;
    rewrite <- Hb; cbn [negb].
  2: { split; [ split; reflexivity | reflexivity ]. }
  specialize (Hf eq_refl).
  unfold mongoc_collection_aggregate.
  change [stage_unwind ("$" ++ MFF_NAMESPACE); stage_match filter]
    with pipeline.
  fold found.
  destruct found as [rows|].
  2: { split; [ split; reflexivity | reflexivity ]. }
  unfold mongo_iterator_new, malloc.
  assert (Hhead : nth 8 (faults wv) true
                  = match faults w1 with [] => true | b :: _ => b end).
  { rewrite Hf. clear. generalize (faults wv) as f. intros f.
    do 8 (destruct f as [|? f]; [ reflexivity | ]).
    destruct f; reflexivity. }
  rewrite Hhead.
  destruct w1 as [e1 [|[|] f1] be1];
    cbn [attempt faults errno rbh_backend_error set_errno] in *;
    (split; [ split; [ reflexivity | congruence ] | reflexivity ]).
Qed.

(** X15: the iterator over the rows of a cursor keeps the errno contract of
    iterators: a call that returns an entry leaves errno as the caller had
    it; a call that returns NULL leaves an errno that is not 0 and that owes
    nothing to the caller's. At the end of the cursor that errno is ENODATA,
    unless the cursor itself reports an error, which is passed on; the
    cursor stays at its end. *)
Theorem mongo_iter_keeps_the_errno_contract :
  Itertools.lawful (fun _ : mongoc_cursor_t => True) mongo_iter_next
  /\ forall (cursor : mongoc_cursor_t) (w : world),
      cursor_rows cursor = [] ->
      mongo_iter_next cursor w
      = (None, cursor,
         set_errno (if cursor_errno cursor =? 0 then ENODATA
                    else cursor_errno cursor) w).
Proof.
  split.
  - intros [rows ce] [e f be] _.
    unfold mongo_iter_next, mongoc_cursor_next, fsentry_from_bson, malloc.
    cbn [cursor_rows cursor_errno errno set_errno].
    destruct rows as [|doc rows].
    + destruct (Z.eqb_spec ce 0) as [-> | Hce];
        cbn [errno set_errno Z.eqb].
      * split; [ exact I | ]. split; [ discriminate | reflexivity ].
      * apply Z.eqb_neq in Hce. rewrite Hce.
        apply Z.eqb_neq in Hce.
        split; [ exact I | ]. split; [ exact Hce | reflexivity ].
    + destruct f as [|[|] f];
        cbn [attempt faults errno rbh_backend_error set_errno fst snd];
        (split; [ exact I | ]); try reflexivity.
      split; [ discriminate | reflexivity ].
  - intros [rows ce] [e f be] Hrows. cbn in Hrows. subst rows.
    unfold mongo_iter_next, mongoc_cursor_next.
    cbn [cursor_rows cursor_errno errno set_errno].
    destruct (Z.eqb_spec ce 0) as [-> | Hce]; cbn [errno set_errno Z.eqb].
    + reflexivity.
    + apply Z.eqb_neq in Hce. rewrite Hce. reflexivity.
Qed.

End Query.

Section Lifecycle.
Variable v : version.
Variable payload : Type.
Variable remote_collection :
  string -> string -> string -> mongoc_collection_t payload.

(** X16: [rbh_mongo_backend_new] leaks nothing. When it fails, everything it
    had acquired has been released, in the reverse order of acquisition, and
    errno is ENOMEM or EINVAL. When it succeeds it holds its memory, a URI,
    a client, a database and a collection, has released nothing and left
    errno alone; the backend is on the collection "entries" of the database
    named after the filesystem, at mongodb://localhost:27017; and
    [mongo_backend_destroy] releases the five objects in reverse order. *)
Theorem backend_new_releases_what_it_acquired :
  forall (fsname : string) (w : world),
    let '(backend, calls, w') :=
      rbh_mongo_backend_new v remote_collection fsname w in
    match backend with
    | Some mongo =>
        let held := [the_backend; the_uri; the_client; the_database;
                     the_collection] in
        calls = map acquire held
        /\ calls ++ mongo_backend_destroy mongo
           = map acquire held ++ map release (rev held)
        /\ entries mongo
           = remote_collection "mongodb://localhost:27017"%string fsname
                               "entries"%string
        /\ errno w' = errno w
    | None =>
        (exists held, calls = map acquire held ++ map release (rev held))
        /\ (errno w' = ENOMEM \/ errno w' = EINVAL)
        /\ In false (faults w)
    end.
Proof.
  intros fsname [e f be].
  unfold rbh_mongo_backend_new, malloc.
  destruct (MONGOC_CHECK_VERSION v 1 4 0);
    destruct f as [|[|] [|[|] [|[|] [|[|] [|[|] [|[|] f]]]]]];
    cbn [attempt faults errno rbh_backend_error set_errno negb app];
    try (repeat split; reflexivity);
    (split;
     [ first [ exists []; reflexivity
             | exists [the_backend]; reflexivity
             | exists [the_backend; the_uri]; reflexivity
             | exists [the_backend; the_uri; the_client]; reflexivity
             | exists [the_backend; the_uri; the_client; the_database];
               reflexivity ]
     | split; [ first [ left; reflexivity | right; reflexivity ]
              | cbn [In]; tauto ] ]).
Qed.

End Lifecycle.

End MongoFacts.

(* ------------------------------------------------------------------------ *)

Module FilterFacts.
Import Mongo Filter.
Local Open Scope Z_scope.

(** X17: which operators are which. The eleven operators from
    RBH_FOP_EQUAL to RBH_FOP_BITS_ALL_CLEAR are comparison operators and
    not logical ones; RBH_FOP_AND, RBH_FOP_OR and RBH_FOP_NOT are logical
    operators and not comparison ones. As tests on integers, the first
    holds exactly on 0..10 and the second exactly on 11..13: no integer
    passes both, and an integer passes one of them exactly when it is the
    value of an operator. Two operators never share a value. *)
Theorem operator_kinds_partition :
  (forall op : rbh_filter_operator,
      rbh_is_comparison_operator (fop_value op)
      = match op with
        | RBH_FOP_EQUAL | RBH_FOP_STRICTLY_LOWER | RBH_FOP_LOWER_OR_EQUAL
        | RBH_FOP_STRICTLY_GREATER | RBH_FOP_GREATER_OR_EQUAL
        | RBH_FOP_REGEX | RBH_FOP_IN | RBH_FOP_BITS_ANY_SET
        | RBH_FOP_BITS_ALL_SET | RBH_FOP_BITS_ANY_CLEAR
        | RBH_FOP_BITS_ALL_CLEAR => true
        | RBH_FOP_AND | RBH_FOP_OR | RBH_FOP_NOT => false
        end)
  /\ (forall op : rbh_filter_operator,
         rbh_is_logical_operator (fop_value op)
         = match op with
           | RBH_FOP_AND | RBH_FOP_OR | RBH_FOP_NOT => true
           | _ => false
           end)
  /\ (forall z : Z, rbh_is_comparison_operator z = true <-> 0 <= z <= 10)
  /\ (forall z : Z, rbh_is_logical_operator z = true <-> 11 <= z <= 13)
  /\ (forall op : rbh_filter_operator,
         rbh_is_comparison_operator (fop_value op)
         = negb (rbh_is_logical_operator (fop_value op)))
  /\ (forall z : Z,
         rbh_is_comparison_operator z && rbh_is_logical_operator z = false)
  /\ (forall z : Z,
         rbh_is_comparison_operator z || rbh_is_logical_operator z = true
         <-> exists op, fop_value op = z)
  /\ (forall op1 op2, fop_value op1 = fop_value op2 -> op1 = op2).
Proof.
  split; [ intros op; destruct op; reflexivity | ].
  split; [ intros op; destruct op; reflexivity | ].
  split.
  { intros z. unfold rbh_is_comparison_operator. cbn.
    rewrite andb_true_iff, Z.leb_le, Z.leb_le. tauto. }
  split.
  { intros z. unfold rbh_is_logical_operator. cbn.
    rewrite andb_true_iff, Z.leb_le, Z.leb_le. tauto. }
  split; [ intros op; destruct op; reflexivity | ].
  split.
  { intros z. unfold rbh_is_comparison_operator, rbh_is_logical_operator.
    cbn. destruct (0 <=? z) eqn:E1, (z <=? 10) eqn:E2, (11 <=? z) eqn:E3,
      (z <=? 13) eqn:E4; cbn; try reflexivity; lia. }
  split.
  { intros z. unfold rbh_is_comparison_operator, rbh_is_logical_operator.
    cbn. split.
    - intros H.
      assert (Hz : 0 <= z <= 13) by lia.
      assert (Hc : z = 0 \/ z = 1 \/ z = 2 \/ z = 3 \/ z = 4 \/ z = 5
                   \/ z = 6 \/ z = 7 \/ z = 8 \/ z = 9 \/ z = 10 \/ z = 11
                   \/ z = 12 \/ z = 13) by lia.
      repeat (destruct Hc as [Hc | Hc];
              [ subst z;
                first [ now exists RBH_FOP_EQUAL
                      | now exists RBH_FOP_STRICTLY_LOWER
                      | now exists RBH_FOP_LOWER_OR_EQUAL
                      | now exists RBH_FOP_STRICTLY_GREATER
                      | now exists RBH_FOP_GREATER_OR_EQUAL
                      | now exists RBH_FOP_REGEX
                      | now exists RBH_FOP_IN
                      | now exists RBH_FOP_BITS_ANY_SET
                      | now exists RBH_FOP_BITS_ALL_SET
                      | now exists RBH_FOP_BITS_ANY_CLEAR
                      | now exists RBH_FOP_BITS_ALL_CLEAR
                      | now exists RBH_FOP_AND
                      | now exists RBH_FOP_OR ] | ]).
      subst z. now exists RBH_FOP_NOT.
    - intros [op <-]. destruct op; reflexivity. }
  intros op1 op2 H. destruct op1, op2; cbn in H; congruence.
Qed.

End FilterFacts.

Module PluginFacts.
Import Plugin.
Local Open Scope string_scope.

Lemma append_inj_r :
  forall a b c : string, a ++ b = a ++ c -> b = c.
Proof.
  induction a as [|x a IH]; intros b c H; cbn in H.
  - exact H.
  - injection H as H. apply IH. exact H.
Qed.

Lemma length_append :
  forall a b : string,
    String.length (a ++ b) = (String.length a + String.length b)%nat.
Proof.
  induction a as [|x a IH]; intros b; cbn; [ | rewrite IH ]; reflexivity.
Qed.

Lemma append_inj_l :
  forall a b c : string, a ++ c = b ++ c -> a = b.
Proof.
  intros a b c H.
  assert (Hlen : String.length a = String.length b).
  { apply (f_equal String.length) in H.
    rewrite !length_append in H. lia. }
  revert b H Hlen.
  induction a as [|x a IH]; intros [|y b] H Hlen; cbn in *;
    try discriminate; try reflexivity.
  injection H as -> H. f_equal. apply IH; [ exact H | lia ].
Qed.

Section Loader.
Variable handle : Type.
Variable address : Type.
Variable dlopen : string -> option handle.
Variable dlsym : handle -> string -> option address.

(** X4: [rbh_plugin_import name symbol] looks [symbol] up in the library
    librbh-<name>.so and nowhere else: what it returns is what that library
    exports under this name, with errno untouched; it returns NULL with
    ENOMEM when the name of the library cannot be allocated, and NULL with
    errno untouched when the library cannot be opened or does not export the
    symbol. Two plugins never share a library file. *)
Theorem plugin_import_resolves_in_its_library :
  (forall (name symbol : string) (w : world),
      let library := "librbh-" ++ name ++ ".so" in
      let '(sym, w') := rbh_plugin_import dlopen dlsym name symbol w in
      (faults w = false :: faults w' /\ sym = None /\ errno w' = ENOMEM)
      \/ (errno w' = errno w
          /\ sym = match dlopen library with
                   | Some dlhandle => dlsym dlhandle symbol
                   | None => None
                   end))
  /\ (forall (name1 name2 library : string) (w1 w2 : world),
         fst (rbh_plugin_library name1 w1) = Some library ->
         fst (rbh_plugin_library name2 w2) = Some library ->
         name1 = name2).
Proof.
  split.
  - intros name symbol w. cbv zeta.
    unfold rbh_plugin_import, rbh_plugin_library, asprintf_library.
    destruct w as [e [|[|] fs] be]; cbn;
      try (destruct (dlopen _); cbn; right; split; reflexivity).
    left. auto.
  - intros name1 name2 library w1 w2 H1 H2.
    unfold rbh_plugin_library, asprintf_library in H1, H2.
    destruct (attempt w1) as [[|] w1']; cbn in H1; try discriminate.
    destruct (attempt w2) as [[|] w2']; cbn in H2; try discriminate.
    injection H1 as H1. injection H2 as H2. rewrite <- H2 in H1.
    apply (@append_inj_r "librbh-" (name1 ++ ".so") (name2 ++ ".so")) in H1.
    apply append_inj_l in H1. exact H1.
Qed.

End Loader.
End PluginFacts.

(* ------------------------------------------------------------------------ *)

Module FindLustreFacts.
Import FindLustre.
Local Open Scope string_scope.
Local Open Scope Z_scope.

Lemma strcmp_eqb :
  forall a b : string, (strcmp a b =? 0) = String.eqb a b.
Proof.
  intros a b. unfold strcmp.
  destruct (String.eqb a b) eqn:E.
  - apply String.eqb_eq in E. subst b.
    pose proof (String.compare_antisym a a) as H.
    destruct (String.compare a a); try discriminate H; reflexivity.
  - destruct (String.compare a b) eqn:C; try reflexivity.
    apply String.compare_eq_iff in C. subst b.
    rewrite String.eqb_refl in E. discriminate E.
Qed.

(** Peels the first character off a C string. *)
Ltac peel s H :=
  destruct s as [|?c s];
  [ | cbn [c_string] in H; apply andb_prop in H;
      let Hc := fresh "Hc" in
      destruct H as [Hc H]; apply negb_true_iff in Hc ].

Ltac split_char :=
  match goal with
  | |- context [Ascii.eqb ?c ?l] =>
      is_var c;
      let E := fresh "E" in
      destruct (Ascii.eqb c l) eqn:E;
      [ apply Ascii.eqb_eq in E; subst c | ]
  end.

Ltac crunch s H :=
  repeat (cbn -[String.eqb Ascii.eqb Z.eqb];
          cbn [String.eqb];
          first [ reflexivity
                | discriminate
                | split_char
                | match goal with
                  | |- context [String.eqb s _] => peel s H
                  | |- context [substring _ _ s] => peel s H
                  | |- context [String.get _ s] => peel s H
                  | |- context [char_at s _] => peel s H
                  end ]).

Section Parser.
Variables LPRED_EXPIRED LPRED_EXPIRED_AT LPRED_EXPIRED_ABS LPRED_EXPIRED_REL
          LPRED_FID LPRED_HSM_STATE LPRED_OST_INDEX : Z.
Variables LPRED_MIN LPRED_MAX : Z.
Variable str2predicate : string -> Z.
Variable predicate2str : Z -> option string.

Lemma str2lustre_predicate_spelled :
  forall s : string,
    c_string s = true ->
    char_at s 0 = "-"%char ->
    str2lustre_predicate LPRED_EXPIRED LPRED_EXPIRED_AT LPRED_FID
                         LPRED_HSM_STATE LPRED_OST_INDEX str2predicate s
    = Some (if String.eqb s "-expired" then LPRED_EXPIRED
            else if String.eqb s "-expired-at" then LPRED_EXPIRED_AT
            else if String.eqb s "-fid" then LPRED_FID
            else if String.eqb s "-hsm-state" then LPRED_HSM_STATE
            else if String.eqb s "-ost" then LPRED_OST_INDEX
            else str2predicate s).
Proof.
  intros s H H0.
  unfold str2lustre_predicate. rewrite H0.
  unfold strncmp. rewrite !strcmp_eqb.
  destruct s as [|c0 s]; [ discriminate H0 | ].
  cbn in H0. subst c0. cbn [c_string] in H.
  apply andb_prop in H. destruct H as [_ H].
  crunch s H.
Qed.

(** X18: [str2lustre_predicate] decides by the whole word. A string that
    does not start with a dash fails the assertion. On one that does, the
    function returns a predicate of the tool exactly when the string is one
    of -expired, -expired-at, -fid, -hsm-state and -ost, and what
    [str2predicate] of rbh-find returns for every other string: a longer or
    a shorter word (-fidx, -expired-a, -os) is never taken for one of the
    five. *)
Theorem str2lustre_predicate_exact :
  forall s : string,
    c_string s = true ->
    str2lustre_predicate LPRED_EXPIRED LPRED_EXPIRED_AT LPRED_FID
                         LPRED_HSM_STATE LPRED_OST_INDEX str2predicate s
    = if Ascii.eqb (char_at s 0) "-" then
        Some (if String.eqb s "-expired" then LPRED_EXPIRED
              else if String.eqb s "-expired-at" then LPRED_EXPIRED_AT
              else if String.eqb s "-fid" then LPRED_FID
              else if String.eqb s "-hsm-state" then LPRED_HSM_STATE
              else if String.eqb s "-ost" then LPRED_OST_INDEX
              else str2predicate s)
      else None.
Proof.
  intros s H.
  destruct (Ascii.eqb (char_at s 0) "-") eqn:E.
  - apply Ascii.eqb_eq in E. apply str2lustre_predicate_spelled; assumption.
  - unfold str2lustre_predicate. rewrite E. reflexivity.
Qed.

Variable command_line_token : Type.
Variable CLT_PREDICATE : command_line_token.
Variable find_predicate_or_action : string -> command_line_token.

Abbreviation str2lustre :=
  (str2lustre_predicate LPRED_EXPIRED LPRED_EXPIRED_AT LPRED_FID
                        LPRED_HSM_STATE LPRED_OST_INDEX str2predicate).
Abbreviation predicate_or_action :=
  (lustre_predicate_or_action CLT_PREDICATE find_predicate_or_action).

(** X19: the classifier of command line tokens and the parser of predicates
    know the same words. [lustre_predicate_or_action] answers CLT_PREDICATE
    on exactly the five words of the tool and asks
    [find_predicate_or_action] of rbh-find about every other token, with a
    dash or without; a token it takes for a predicate of the tool is parsed
    into one by [str2lustre_predicate], and one it hands to rbh-find is
    handed to [str2predicate] too. *)
Theorem tokenizer_agrees_with_parser :
  forall s : string,
    c_string s = true ->
    predicate_or_action s
    = (if existsb (String.eqb s) lustre_predicate_names then CLT_PREDICATE
       else find_predicate_or_action s)
    /\ (char_at s 0 = "-"%char ->
        if existsb (String.eqb s) lustre_predicate_names then
          In (str2lustre s)
             (map Some [LPRED_EXPIRED; LPRED_EXPIRED_AT; LPRED_FID;
                        LPRED_HSM_STATE; LPRED_OST_INDEX])
        else str2lustre s = Some (str2predicate s)).
Proof.
  intros s H. split.
  - unfold lustre_predicate_or_action, lustre_predicate_names.
    unfold strncmp. rewrite !strcmp_eqb.
    destruct s as [|c0 s]; [ reflexivity | ].
    cbn [c_string] in H. apply andb_prop in H. destruct H as [_ H].
    crunch s H.
  - intros H0. rewrite (@str2lustre_predicate_spelled s H H0).
    unfold lustre_predicate_names. cbn [existsb map In].
    destruct (String.eqb s "-expired"); [ cbn; auto | ].
    destruct (String.eqb s "-expired-at"); [ cbn; auto | ].
    destruct (String.eqb s "-fid"); [ cbn; auto | ].
    destruct (String.eqb s "-hsm-state"); [ cbn; auto 6 | ].
    destruct (String.eqb s "-ost"); [ cbn; auto 7 | ].
    reflexivity.
Qed.

(** What the code takes from parser.h: the enumerators are distinct from
    one another, and LPRED_MIN and LPRED_MAX bracket them. *)
Hypothesis enumerators_distinct :
  NoDup [LPRED_EXPIRED; LPRED_EXPIRED_AT; LPRED_EXPIRED_ABS;
         LPRED_EXPIRED_REL; LPRED_FID; LPRED_HSM_STATE; LPRED_OST_INDEX].
Hypothesis enumerators_in_range :
  Forall (fun p => LPRED_MIN <= p < LPRED_MAX)
         [LPRED_EXPIRED; LPRED_EXPIRED_AT; LPRED_EXPIRED_ABS;
          LPRED_EXPIRED_REL; LPRED_FID; LPRED_HSM_STATE; LPRED_OST_INDEX].

Abbreviation predicate2name :=
  (lustre_predicate2str LPRED_EXPIRED LPRED_EXPIRED_AT LPRED_EXPIRED_ABS
                        LPRED_EXPIRED_REL LPRED_FID LPRED_HSM_STATE
                        LPRED_OST_INDEX LPRED_MIN LPRED_MAX predicate2str).

Lemma enumerators_apart :
  LPRED_EXPIRED <> LPRED_EXPIRED_AT /\ LPRED_EXPIRED <> LPRED_EXPIRED_ABS
  /\ LPRED_EXPIRED <> LPRED_EXPIRED_REL /\ LPRED_EXPIRED <> LPRED_FID
  /\ LPRED_EXPIRED <> LPRED_HSM_STATE /\ LPRED_EXPIRED <> LPRED_OST_INDEX
  /\ LPRED_EXPIRED_AT <> LPRED_EXPIRED_ABS
  /\ LPRED_EXPIRED_AT <> LPRED_EXPIRED_REL /\ LPRED_EXPIRED_AT <> LPRED_FID
  /\ LPRED_EXPIRED_AT <> LPRED_HSM_STATE
  /\ LPRED_EXPIRED_AT <> LPRED_OST_INDEX
  /\ LPRED_EXPIRED_ABS <> LPRED_EXPIRED_REL /\ LPRED_EXPIRED_ABS <> LPRED_FID
  /\ LPRED_EXPIRED_ABS <> LPRED_HSM_STATE
  /\ LPRED_EXPIRED_ABS <> LPRED_OST_INDEX
  /\ LPRED_EXPIRED_REL <> LPRED_FID /\ LPRED_EXPIRED_REL <> LPRED_HSM_STATE
  /\ LPRED_EXPIRED_REL <> LPRED_OST_INDEX
  /\ LPRED_FID <> LPRED_HSM_STATE /\ LPRED_FID <> LPRED_OST_INDEX
  /\ LPRED_HSM_STATE <> LPRED_OST_INDEX.
Proof.
  pose proof enumerators_distinct as H.
  repeat match goal with
         | H : NoDup (_ :: _) |- _ => inversion H; clear H; subst
         end.
  cbn [In] in *.
  repeat match goal with
         | H : ~ (_ \/ _) |- _ =>
             apply Decidable.not_or in H; destruct H
         end.
  repeat split; congruence.
Qed.

Lemma enumerators_bounds :
  forall p,
    In p [LPRED_EXPIRED; LPRED_EXPIRED_AT; LPRED_EXPIRED_ABS;
          LPRED_EXPIRED_REL; LPRED_FID; LPRED_HSM_STATE; LPRED_OST_INDEX] ->
    (LPRED_MIN <=? p) && (p <? LPRED_MAX) = true.
Proof.
  intros p Hp.
  pose proof enumerators_in_range as H.
  rewrite Forall_forall in H. specialize (H p Hp).
  apply andb_true_intro. split; [ apply Z.leb_le | apply Z.ltb_lt ]; lia.
Qed.

Lemma sub_eqb : forall a b c : Z, (a - c =? b - c) = (a =? b).
Proof.
  intros a b c.
  destruct (Z.eqb_spec a b) as [-> | Hne].
  - apply Z.eqb_refl.
  - apply Z.eqb_neq. lia.
Qed.

Ltac apart :=
  let Hap := fresh "Hap" in
  pose proof enumerators_apart as Hap; decompose [and] Hap;
  first [ assumption | apply not_eq_sym; assumption ].

Ltac lookup_name :=
  unfold lustre_predicate2str;
  rewrite enumerators_bounds by (cbn [In]; auto 8);
  unfold __lustre_predicate2str; cbn [designated];
  rewrite ?sub_eqb, ?Z.eqb_refl;
  repeat match goal with
         | |- context [?a =? ?b] =>
             rewrite (proj2 (Z.eqb_neq a b)) by apart
         end;
  reflexivity.

(** X20: names and predicates go back and forth, when the enumerators are
    distinct and within LPRED_MIN and LPRED_MAX. For the five predicates the
    command line can name, [lustre_predicate2str] gives the word without its
    dash and [str2lustre_predicate] of the dash and that word gives the
    predicate back. The two other enumerators, LPRED_EXPIRED_ABS and
    LPRED_EXPIRED_REL, print as "expired" as well, so their name reads back
    as LPRED_EXPIRED and not as themselves. *)
Theorem lustre_predicate_names_round_trip :
  (forall p name,
      In (p, name)
         [(LPRED_EXPIRED, "expired"); (LPRED_EXPIRED_AT, "expired-at");
          (LPRED_FID, "fid"); (LPRED_HSM_STATE, "hsm-state");
          (LPRED_OST_INDEX, "ost")] ->
      predicate2name p = Some name
      /\ str2lustre ("-" ++ name) = Some p)
  /\ (forall p,
         In p [LPRED_EXPIRED_ABS; LPRED_EXPIRED_REL] ->
         predicate2name p = Some "expired"
         /\ str2lustre "-expired" = Some LPRED_EXPIRED
         /\ str2lustre "-expired" <> Some p).
Proof.
  split.
  - intros p name Hin. cbn [In] in Hin.
    repeat (destruct Hin as [Hin | Hin];
            [ injection Hin as <- <-; split;
              [ lookup_name | vm_compute; reflexivity ] | ]).
    contradiction.
  - intros p Hin. cbn [In] in Hin.
    repeat (destruct Hin as [Hin | Hin];
            [ subst p; split; [ lookup_name | ];
              split; [ vm_compute; reflexivity | ];
              vm_compute; intros Heq; injection Heq as Heq; revert Heq;
              apart | ]).
    contradiction.
Qed.

Variable rbh_filter : Type.
Variable expired2filter : option rbh_filter.
Variable expired_at2filter : string -> option rbh_filter.
Variable fid2filter : string -> option rbh_filter.
Variable hsm_state2filter : string -> option rbh_filter.
Variable ost_index2filter : string -> option rbh_filter.
Variable find_parse_predicate :
  list string -> nat -> option (rbh_filter * nat).

Abbreviation parse_predicate :=
  (lustre_parse_predicate LPRED_EXPIRED LPRED_EXPIRED_AT LPRED_FID
     LPRED_HSM_STATE LPRED_OST_INDEX str2predicate expired2filter
     expired_at2filter fid2filter hsm_state2filter ost_index2filter
     find_parse_predicate).

Ltac decide_enumerator :=
  repeat match goal with
         | |- context [?a =? ?b] =>
             first [ rewrite (Z.eqb_refl a)
                   | rewrite (proj2 (Z.eqb_neq a b)) by apart ]
         end.

(** X21: how [lustre_parse_predicate] moves on the command line, when the
    enumerators are distinct. A predicate other than -expired that is the
    last word is a usage error, "missing argument to `<word>'", and no
    builder runs. -expired takes no argument: the index stays on the word.
    -expired-at, -fid, -hsm-state and -ost give the word that follows to
    their own builder and leave the index on that word. *)
Theorem parse_predicate_consumes_its_argument :
  forall (argv : list string) (i : nat),
    (forall p,
        str2lustre (argv_at argv i) = Some p ->
        p <> LPRED_EXPIRED ->
        (List.length argv <= i + 1)%nat ->
        parse_predicate argv i
        = usage _ ("missing argument to `" ++ argv_at argv i ++ "'"))
    /\ (argv_at argv i = "-expired" ->
        parse_predicate argv i
        = match expired2filter with
          | Some f => parsed f i
          | None => exited _
          end)
    /\ (forall name builder,
           In (name, builder)
              [("-expired-at", expired_at2filter); ("-fid", fid2filter);
               ("-hsm-state", hsm_state2filter); ("-ost", ost_index2filter)] ->
           argv_at argv i = name ->
           (i + 1 < List.length argv)%nat ->
           parse_predicate argv i
           = match builder (argv_at argv (i + 1)) with
             | Some f => parsed f (i + 1)
             | None => exited _
             end).
Proof.
  intros argv i. split; [ | split ].
  - intros p Hp Hne Hlen. unfold lustre_parse_predicate.
    rewrite Hp. unfold predicate_has_argument.
    rewrite (proj2 (Z.eqb_neq p LPRED_EXPIRED) Hne).
    rewrite (proj2 (Nat.leb_le _ _) Hlen). reflexivity.
  - intros Htok. unfold lustre_parse_predicate. rewrite Htok.
    change (str2lustre "-expired") with (Some LPRED_EXPIRED).
    cbv iota beta. unfold predicate_has_argument.
    rewrite Z.eqb_refl. reflexivity.
  - intros name builder Hin Htok Hlen. cbn [In] in Hin.
    assert (Hleb : (List.length argv <=? i + 1)%nat = false)
      by (apply Nat.leb_gt; lia).
    unfold lustre_parse_predicate. rewrite Htok.
    repeat (destruct Hin as [Hin | Hin];
            [ injection Hin as <- <-;
              match goal with
              | |- context [str2lustre ?n] =>
                  let v := eval vm_compute in (str2lustre n) in
                  change (str2lustre n) with v
              end;
              cbv iota beta; unfold predicate_has_argument;
              rewrite Hleb, andb_false_r; decide_enumerator; reflexivity
            | ]).
    contradiction.
Qed.

End Parser.
End FindLustreFacts.

(* ------------------------------------------------------------------------ *)
(** ** Scenarios *)

Module Scenarios.
Import Itertools Mongo Samples.
Import ItertoolsFacts MongoFacts.
Local Open Scope Z_scope.
Local Open Scope string_scope.

Lemma over_stream :
  forall (A : Type) (l : list A),
    Z.of_nat (List.length l) < 2 ^ 64 ->
    yields (@array_iter_next A) (over l) l.
Proof.
  intros A l Hl.
  exact (@array_iter_stream A l 8 (List.length l) 0 eq_refl Hl).
Qed.

Lemma quiet_reliable : reliable quiet.
Proof. constructor. Qed.

(** *** Chunkify *)

(** Advancing the outer iterator of chunkify does read the underlying
    stream: before the call the next element of the source is "a", after it
    the next element is "b". *)
Lemma chunkify_advance_reads_the_source :
  let it := over ["a"; "b"; "c"] in
  let after :=
    snd (fst (chunkify_iter_next (@array_iter_next string)
                                 (ChunkifyIterator 2) it quiet)) in
  after <> it
  /\ fst (fst (array_iter_next it quiet)) = Some "a"
  /\ fst (fst (array_iter_next after quiet)) = Some "b".
Proof.
  cbv zeta. split; [ | split ].
  - vm_compute. intros H. discriminate H.
  - vm_compute. reflexivity.
  - vm_compute. reflexivity.
Qed.

Lemma chunkify_shared_cursor_witness :
  0 < 2 < 2 ^ 64
  /\ yields (@array_iter_next string) (over ["a"; "b"; "c"]) ["a"; "b"; "c"]
  /\ reliable quiet
  /\ exists s1 w1,
      chunkify_iter_next (@array_iter_next string) (ChunkifyIterator 2)
                         (over ["a"; "b"; "c"]) quiet
      = (Some (ChunkIterator (Some "a") 1 false), s1, w1)
      /\ yields (@array_iter_next string) s1 ["b"; "c"]
      /\ exists chunk' s2,
          chunk_take (@array_iter_next string) 1
                     (ChunkIterator (Some "a") 1 false) s1 w1
          = ([Some "a"], chunk', s2, w1)
          /\ yields (@array_iter_next string) s2 ["b"; "c"]
          /\ exists s3 w3,
              chunkify_iter_next (@array_iter_next string)
                                 (ChunkifyIterator 2) s2 w1
              = (Some (ChunkIterator (Some "b") 1 false), s3, w3)
              /\ yields (@array_iter_next string) s3 ["c"].
Proof.
  assert (Hk : 0 < 2 < 2 ^ 64) by (split; reflexivity).
  assert (Hs : yields (@array_iter_next string) (over ["a"; "b"; "c"])
                      ["a"; "b"; "c"])
    by (apply over_stream; reflexivity).
  split; [ exact Hk | ]. split; [ exact Hs | ].
  split; [ exact quiet_reliable | ].
  destruct (@chunkify_shared_cursor string _ (@array_iter_next string) 2
              "a" ["b"; "c"] (over ["a"; "b"; "c"]) quiet Hk Hs
              quiet_reliable) as (s1 & w1 & Hadv & Hs1 & _ & Htake).
  exists s1, w1. split; [ exact Hadv | ]. split; [ exact Hs1 | ].
  destruct (Htake 1%nat) as (chunk' & s2 & Ht & Hs2 & Hnew);
    [ vm_compute; lia | simpl; lia | ].
  exists chunk', s2. split; [ exact Ht | ]. split; [ exact Hs2 | ].
  exact (Hnew "b" ["c"] eq_refl).
Defined.

(** Scenario S4: source [a,b,c,d,e], chunk = 2. *)
Lemma chunkify_totality_witness :
  0 < 2 < 2 ^ 64
  /\ yields (@array_iter_next string) (over letters) letters
  /\ reliable quiet
  /\ (List.length letters < 6)%nat
  /\ exists s' w',
      collect_chunks (@array_iter_next string) 6 (ChunkifyIterator 2)
                     (over letters) quiet
      = Some ([["a"; "b"]; ["c"; "d"]; ["e"]], s', w')
      /\ List.concat [["a"; "b"]; ["c"; "d"]; ["e"]] = letters.
Proof.
  assert (Hk : 0 < 2 < 2 ^ 64) by (split; reflexivity).
  assert (Hs : yields (@array_iter_next string) (over letters) letters)
    by (apply over_stream; reflexivity).
  assert (Hf : (List.length letters < 6)%nat) by (simpl; lia).
  split; [ exact Hk | ]. split; [ exact Hs | ].
  split; [ exact quiet_reliable | ]. split; [ exact Hf | ].
  destruct (@chunkify_totality string _ (@array_iter_next string) 2 letters
              (over letters) quiet 6 Hk Hs quiet_reliable Hf)
    as (chunks & s' & w' & Hrun & Hcat & _ & Hchunks & _).
  exists s', w'. subst chunks. split; [ exact Hrun | exact Hcat ].
Defined.

(** *** Tee *)

(** Scenario S5: source [1,2,3]; sibling A reads 1, 2; B reads 1; A reads
    3; B reads 2, 3; then each is told that the stream is over. *)
Lemma tee_equivalence_witness :
  let schedule := [Tee0; Tee0; Tee1; Tee0; Tee1; Tee1; Tee0; Tee1] in
  yields (@array_iter_next Z) (over [1; 2; 3]) [1; 2; 3]
  /\ reliable quiet
  /\ exists h0 w0,
      rbh_iter_tee Z (over [1; 2; 3]) quiet = (0, Some h0, w0)
      /\ observed Tee0
           (fst (fst (tee_run (@array_iter_next Z) schedule h0 w0)))
         = [1; 2; 3]
      /\ observed Tee1
           (fst (fst (tee_run (@array_iter_next Z) schedule h0 w0)))
         = [1; 2; 3].
Proof.
  cbv zeta.
  assert (Hs : yields (@array_iter_next Z) (over [1; 2; 3]) [1; 2; 3])
    by (apply over_stream; reflexivity).
  split; [ exact Hs | ]. split; [ exact quiet_reliable | ].
  destruct (@tee_equivalence Z _ (@array_iter_next Z) [1; 2; 3]
              (over [1; 2; 3]) quiet
              [Tee0; Tee0; Tee1; Tee0; Tee1; Tee1; Tee0; Tee1]
              Hs quiet_reliable) as (h0 & w0 & Hinit & Hrun).
  exists h0, w0. split; [ exact Hinit | ].
  vm_compute in Hinit. injection Hinit as <- <-.
  destruct (tee_run (@array_iter_next Z)
              [Tee0; Tee0; Tee1; Tee0; Tee1; Tee1; Tee0; Tee1]
              (tee_over [1; 2; 3]) quiet) as [[trace h] w'] eqn:Erun.
  destruct (Hrun trace h w' Erun) as (_ & Hall & _).
  vm_compute in Erun. injection Erun as <- <- <-.
  split; [ refine (Hall Tee0 _) | refine (Hall Tee1 _) ]; simpl; auto 10.
Defined.

(** A failed share is not reported to the caller: the sibling that read
    "a" returns it, with errno still 0, and parks it for the other one. *)
Lemma tee_failed_share_returns_the_element :
  let '(p, h, w) :=
    tee_iter_next (@array_iter_next string) Tee0 (tee_over ["a"; "b"])
                  (scripted [false]) in
  p = Some "a" /\ p <> None
  /\ errno w = errno (scripted [false]) /\ errno w = 0
  /\ tee_next (tee_1 h) = Some "a"
  /\ tee_queue (tee_1 h) = [].
Proof. vm_compute. repeat split; intros H; discriminate H. Qed.

(** What the code does when the other sibling is the first to call after a
    failed share: it takes the parked element, and pushes it on the queue of
    the sibling that produced it, which then observes it a second time. *)
Example tee_parked_element_is_shared_back :
  observed Tee0
    (fst (fst (tee_run (@array_iter_next string) [Tee0; Tee1; Tee0; Tee0]
                       (tee_over ["a"; "b"]) (scripted [false]))))
  = ["a"; "a"; "b"].
Proof. vm_compute. reflexivity. Qed.

Lemma tee_deferred_share_witness :
  tee_invariant (@array_iter_next string) ["a"; "b"] (tee_over ["a"; "b"]) []
  /\ (exists h' w',
         tee_iter_next (@array_iter_next string) Tee0 (tee_over ["a"; "b"])
                       (scripted [false])
         = (Some "a", h', w')
         /\ errno w' = 0
         /\ tee_next (tee_1 h') = Some "a")
  /\ exists n : nat,
      forall t,
        (map Some
           (observed t
              (fst (fst (tee_run (@array_iter_next string)
                                 [Tee0; Tee0; Tee0; Tee1; Tee1]
                                 (tee_over ["a"; "b"])
                                 (scripted [false; false; true]))))) ++
         in_store
           (snd (fst (tee_run (@array_iter_next string)
                              [Tee0; Tee0; Tee0; Tee1; Tee1]
                              (tee_over ["a"; "b"])
                              (scripted [false; false; true])))) t)%list
        = map Some (firstn n ["a"; "b"]).
Proof.
  assert (Hs : yields (@array_iter_next string) (over ["a"; "b"]) ["a"; "b"])
    by (apply over_stream; reflexivity).
  assert (Hinv : tee_invariant (@array_iter_next string) ["a"; "b"]
                               (tee_over ["a"; "b"]) []).
  { split; [ split; reflexivity | ].
    split; [ left; reflexivity | ].
    exists 0%nat. split; [ simpl; lia | ]. split; [ exact Hs | ].
    intros [|]; reflexivity. }
  split; [ exact Hinv | ].
  destruct (@tee_deferred_share string _ (@array_iter_next string)
              ["a"; "b"] (tee_over ["a"; "b"]) [] Hinv)
    as (Hfail & _ & _ & _ & _ & Hrun).
  split.
  - destruct (Hfail Tee0 (scripted [false]) "a" ["b"] []
                    eq_refl eq_refl eq_refl Hs eq_refl)
      as (h' & w' & Hcall & He & _ & Hslot & _).
    exists h', w'. split; [ exact Hcall | ]. split; [ exact He | exact Hslot ].
  - destruct (tee_run (@array_iter_next string)
                [Tee0; Tee0; Tee0; Tee1; Tee1] (tee_over ["a"; "b"])
                (scripted [false; false; true])) as [[tr h'] w'] eqn:Erun.
    destruct (Hrun [Tee0; Tee0; Tee0; Tee1; Tee1]
                   (scripted [false; false; true]) tr h' w')
      as (n & _ & _ & Hv).
    + vm_compute. reflexivity.
    + exact Erun.
    + exists n. exact Hv.
Defined.

(** *** The errno contract *)

Lemma next_keeps_errno_contract_witness :
  lawful (@array_wf string) (@array_iter_next string)
  /\ lawful (chunk_wf (@array_wf string))
            (chunk_step (@array_iter_next string))
  /\ (forall t,
         lawful (tee_wf (@array_wf string))
                (tee_iter_next (@array_iter_next string) t))
  (* a chunk whose quota is used up, asked by a caller who holds EINVAL *)
  /\ chunk_wf (@array_wf string)
              (ChunkIterator (Some "a") 0 true, over letters)
  /\ (exists chunk' s' w',
         chunk_iter_next (@array_iter_next string)
                         (ChunkIterator (Some "a") 0 true) (over letters)
                         (set_errno EINVAL quiet)
         = (None, chunk', s', w')
         /\ errno w' = ENODATA)
  (* a sibling of a tee over an array at its end *)
  /\ tee_wf (@array_wf string) (tee_over [])
  /\ (exists h' w',
         tee_iter_next (@array_iter_next string) Tee0 (tee_over [])
                       (set_errno EINVAL quiet)
         = (None, h', w')
         /\ errno w' = ENODATA).
Proof.
  destruct (@next_keeps_errno_contract string _ (@array_iter_next string)
              (@array_wf string) (@array_iter_lawful string))
    as (_ & Harray & _ & _ & Hchunk & _ & Htee & Hquota & _ & Hsibling).
  split; [ exact Harray | ]. split; [ exact Hchunk | ].
  split; [ exact Htee | ].
  assert (Hwf : chunk_wf (@array_wf string)
                         (ChunkIterator (Some "a") 0 true, over letters)).
  { split; [ left; reflexivity | ]. split; cbn; lia. }
  split; [ exact Hwf | ].
  split.
  - destruct (chunk_iter_next (@array_iter_next string)
                (ChunkIterator (Some "a") 0 true) (over letters)
                (set_errno EINVAL quiet)) as [[[p chunk'] s'] w'] eqn:Hrun.
    assert (Hp : p = None)
      by (vm_compute in Hrun; injection Hrun as <- _ _ _; reflexivity).
    subst p. exists chunk', s', w'. split; [ reflexivity | ].
    destruct (Hquota _ _ _ _ _ _ Hwf Hrun)
      as [_ [(_ & He & _) | (Hne & _)]];
      [ exact He | exfalso; apply Hne; reflexivity ].
  - assert (Htwf : tee_wf (@array_wf string) (tee_over [])).
    { split; [ constructor | ]. split; [ constructor | ].
      split; cbn; lia. }
    split; [ exact Htwf | ].
    destruct (tee_iter_next (@array_iter_next string) Tee0 (tee_over [])
                            (set_errno EINVAL quiet))
      as [[p h'] w'] eqn:Hrun.
    assert (Hp : p = None)
      by (vm_compute in Hrun; injection Hrun as <- _ _; reflexivity).
    subst p. exists h', w'. split; [ reflexivity | ].
    destruct (Hsibling Tee0 _ _ _ _ Htwf Hrun)
      as [(_ & _ & Hf & _) | (w0 & _ & Hsrc & _)].
    + discriminate Hf.
    + apply (f_equal snd) in Hsrc. cbn in Hsrc. rewrite <- Hsrc.
      reflexivity.
Defined.

(** *** The mongo backend *)

Lemma link_event_lowering_witness :
  (* nothing fails: the pair is issued *)
  reliable quiet
  /\ mongo_bulk_append_fsevent mongoc_1_17 (Bulk false []) link_X quiet
     = (true,
        Bulk false
             [update_one (id_filter X) (unlink_update P1 "a") false;
              update_one (id_filter X) (fsevent_update link_X) true],
        quiet)
  (* the unlink update cannot be built: nothing is issued *)
  /\ mongo_bulk_append_fsevent mongoc_1_17 (Bulk false []) link_X
                               (scripted [true; false])
     = (false, Bulk false [], quiet)
  (* the driver refuses the unlink: nothing is issued *)
  /\ mongo_bulk_append_fsevent mongoc_1_17 (Bulk false []) link_X
                               (scripted [true; true; true; false])
     = (false, Bulk false [], set_errno EINVAL quiet).
Proof.
  split; [ exact quiet_reliable | ].
  split; [ | split ].
  - destruct (@link_event_lowering mongoc_1_17 unit (Bulk false []) X P1 "a"
                quiet) as (Hout & _ & _ & Hlive).
    destruct (Hlive quiet_reliable) as (bulk' & w' & Hrun).
    destruct (Hout true bulk' w' Hrun) as (Hord & Hops & _).
    pose proof Hrun as Hval. vm_compute in Hval. injection Hval as <- <-.
    exact Hrun.
  - destruct (@link_event_lowering mongoc_1_17 unit (Bulk false []) X P1 "a"
                (scripted [true; false])) as (_ & Hbuild & _ & _).
    exact (Hbuild (id_filter X) (scripted [false]) quiet eq_refl eq_refl).
  - destruct (@link_event_lowering mongoc_1_17 unit (Bulk false []) X P1 "a"
                (scripted [true; true; true; false])) as (_ & _ & Hissue & _).
    exact (Hissue (id_filter X) (scripted [true; true; false])
                  (unlink_update P1 "a") (scripted [true; false])
                  (Bulk false []) quiet eq_refl eq_refl eq_refl).
Defined.

(** Scenario S6: events [link(X, P1, "a"), unlink(X, P1, "a"), delete(X)].
    The server accepts the bulk; it rejects it with a transient transaction
    error; it rejects it with another error; it rejects it with a transient
    transaction error under a driver that has no labels. *)
Lemma update_failure_classification_witness :
  let events := [link_X; unlink_X; delete_X] in
  let transient :=
    exec_error "write conflict" ["TransientTransactionError"] in
  let duplicate := exec_error "duplicate key" [] in
  yields (@array_iter_next (rbh_fsevent unit)) (over events) events
  /\ (exists mongo' s' w',
         mongo_backend_update mongoc_1_17
           (@array_iter_next (rbh_fsevent unit)) 4 (empty_store exec_ok)
           (over events) quiet
         = Some (3, mongo', s', w')
         /\ errno w' = 0)
  /\ (exists mongo' s' w',
         mongo_backend_update mongoc_1_17
           (@array_iter_next (rbh_fsevent unit)) 4 (empty_store transient)
           (over events) quiet
         = Some (-1, mongo', s', w')
         /\ errno w' = EAGAIN
         /\ rbh_backend_error w' = "mongoc: write conflict")
  /\ (exists mongo' s' w',
         mongo_backend_update mongoc_1_17
           (@array_iter_next (rbh_fsevent unit)) 4 (empty_store duplicate)
           (over events) quiet
         = Some (-1, mongo', s', w')
         /\ errno w' = RBH_BACKEND_ERROR
         /\ rbh_backend_error w' = "mongoc: duplicate key")
  /\ (exists mongo' s' w',
         mongo_backend_update mongoc_1_10
           (@array_iter_next (rbh_fsevent unit)) 4 (empty_store transient)
           (over events) quiet
         = Some (-1, mongo', s', w')
         /\ errno w' = RBH_BACKEND_ERROR
         /\ rbh_backend_error w' = "mongoc: write conflict").
Proof.
  cbv zeta.
  assert (Hs : yields (@array_iter_next (rbh_fsevent unit))
                      (over [link_X; unlink_X; delete_X])
                      [link_X; unlink_X; delete_X])
    by (apply over_stream; reflexivity).
  assert (Hfuel : (List.length [link_X; unlink_X; delete_X] < 4)%nat)
    by (simpl; lia).
  assert (Hlen : Z.of_nat (List.length [link_X; unlink_X; delete_X]) < 2 ^ 63)
    by reflexivity.
  assert (Hne : [link_X; unlink_X; delete_X] <> []) by discriminate.
  split; [ exact Hs | ].
  split; [ | split; [ | split ] ].
  - destruct (@update_failure_classification mongoc_1_17 unit _
                (@array_iter_next (rbh_fsevent unit)) (empty_store exec_ok)
                (over [link_X; unlink_X; delete_X])
                [link_X; unlink_X; delete_X] 4 quiet
                (Bulk false []) quiet
                (Bulk false (flat_map (@lowering unit)
                                      [link_X; unlink_X; delete_X]))
                quiet Hs Hfuel Hlen eq_refl eq_refl)
      as (r & mongo' & s' & w' & Hrun & _ & _ & _ & Hok & _).
    destruct (Hok Hne eq_refl) as [-> He].
    exists mongo', s', w'. split; [ exact Hrun | exact He ].
  - destruct (@update_failure_classification mongoc_1_17 unit _
                (@array_iter_next (rbh_fsevent unit))
                (empty_store
                   (exec_error "write conflict"
                               ["TransientTransactionError"]))
                (over [link_X; unlink_X; delete_X])
                [link_X; unlink_X; delete_X] 4 quiet
                (Bulk false []) quiet
                (Bulk false (flat_map (@lowering unit)
                                      [link_X; unlink_X; delete_X]))
                quiet Hs Hfuel Hlen eq_refl eq_refl)
      as (r & mongo' & s' & w' & Hrun & _ & _ & _ & _ & Herr).
    destruct (Herr Hne "write conflict" ["TransientTransactionError"]
                   eq_refl)
      as (-> & _ & Hmsg & Htransient & _ & _).
    exists mongo', s', w'. split; [ exact Hrun | ].
    split; [ apply Htransient; [ reflexivity | left; reflexivity ] | ].
    apply Hmsg. unfold RBH_BACKEND_ERROR_SIZE. cbn. lia.
  - destruct (@update_failure_classification mongoc_1_17 unit _
                (@array_iter_next (rbh_fsevent unit))
                (empty_store (exec_error "duplicate key" []))
                (over [link_X; unlink_X; delete_X])
                [link_X; unlink_X; delete_X] 4 quiet
                (Bulk false []) quiet
                (Bulk false (flat_map (@lowering unit)
                                      [link_X; unlink_X; delete_X]))
                quiet Hs Hfuel Hlen eq_refl eq_refl)
      as (r & mongo' & s' & w' & Hrun & _ & _ & _ & _ & Herr).
    destruct (Herr Hne "duplicate key" [] eq_refl)
      as (-> & _ & Hmsg & _ & Hother & _).
    exists mongo', s', w'. split; [ exact Hrun | ].
    split; [ apply Hother; intros Hin; exact Hin | ].
    apply Hmsg. unfold RBH_BACKEND_ERROR_SIZE. cbn. lia.
  - destruct (@update_failure_classification mongoc_1_10 unit _
                (@array_iter_next (rbh_fsevent unit))
                (empty_store
                   (exec_error "write conflict"
                               ["TransientTransactionError"]))
                (over [link_X; unlink_X; delete_X])
                [link_X; unlink_X; delete_X] 4 quiet
                (Bulk false []) quiet
                (Bulk false (flat_map (@lowering unit)
                                      [link_X; unlink_X; delete_X]))
                quiet Hs Hfuel Hlen eq_refl eq_refl)
      as (r & mongo' & s' & w' & Hrun & _ & _ & _ & _ & Herr).
    destruct (Herr Hne "write conflict" ["TransientTransactionError"]
                   eq_refl)
      as (-> & _ & Hmsg & _ & _ & Hold).
    exists mongo', s', w'. split; [ exact Hrun | ].
    split; [ apply Hold; reflexivity | ].
    apply Hmsg. unfold RBH_BACKEND_ERROR_SIZE. cbn. lia.
Defined.

(** A link event whose unlink update cannot be built: update gives up and
    the store has seen nothing. *)
Lemma update_aborts_on_lowering_failure_witness :
  (* the bulk is created, the delete is lowered, the unlink update of the
     link event cannot be built *)
  let script := [true; true; true; true; true; false] in
  yields (@array_iter_next (rbh_fsevent unit)) (over [delete_X; link_X])
         [delete_X; link_X]
  /\ exists s' w',
      mongo_backend_update mongoc_1_17 (@array_iter_next (rbh_fsevent unit))
                           3 (empty_store exec_ok) (over [delete_X; link_X])
                           (scripted script)
      = Some (-1, empty_store exec_ok, s', w').
Proof.
  cbv zeta.
  assert (Hs : yields (@array_iter_next (rbh_fsevent unit))
                      (over [delete_X; link_X]) [delete_X; link_X])
    by (apply over_stream; reflexivity).
  split; [ exact Hs | ].
  assert (Hfuel : (List.length [delete_X; link_X] < 3)%nat) by (simpl; lia).
  assert (Hlen : Z.of_nat (List.length [delete_X; link_X]) < 2 ^ 63)
    by reflexivity.
  destruct (@update_aborts_on_lowering_failure mongoc_1_17 unit _
              (@array_iter_next (rbh_fsevent unit)) (empty_store exec_ok)
              (over [delete_X; link_X]) [delete_X; link_X] 3
              (scripted [true; true; true; true; true; false])
              (Bulk false []) (scripted [true; true; true; false])
              (Bulk false [remove_one (id_filter X)]) quiet
              Hs Hfuel Hlen eq_refl eq_refl) as (s' & Hrun).
  exists s', quiet. exact Hrun.
Defined.

(** Scenario S7: a store with the root R and one child. *)
Lemma root_returns_the_entry_without_parent_witness :
  (forall w0, accept_all (Some ROOT_FILTER) w0 = (0, w0))
  /\ answers_root_query (entries family)
  /\ server_cursor_errno (entries family) = 0
  /\ reliable quiet
  /\ mongo_root accept_all family 3 0 quiet = (Some (Fsentry R [] ""), quiet).
Proof.
  assert (Hv : forall w0, accept_all (Some ROOT_FILTER) w0 = (0, w0))
    by (intros w0; reflexivity).
  assert (Ha : answers_root_query (entries family)) by reflexivity.
  assert (Hc : server_cursor_errno (entries family) = 0) by reflexivity.
  split; [ exact Hv | ]. split; [ exact Ha | ]. split; [ exact Hc | ].
  split; [ exact quiet_reliable | ].
  destruct (@root_returns_the_entry_without_parent unit accept_all family
              3 0 quiet Hv Ha Hc quiet_reliable) as (_ & w' & Hroot).
  cbn in Hroot. destruct Hroot as (Hrun & _).
  pose proof Hrun as Hval. vm_compute in Hval. injection Hval as <-.
  exact Hrun.
Defined.

(** *** The parser of URIs on a text inside a larger buffer *)

Lemma parse_raw_uri_accepts_exactly_a_scheme_witness :
  Uri.nul_free full_uri = true
  /\ let '(rc, uri, m', w') :=
       Uri.rbh_parse_raw_uri Uri.zero_uri
         (["<"%char] ++ full_uri ++ Uri.NUL :: [">"%char])%list 1 quiet in
     (Uri.scheme_form full_uri /\ rc = 0 /\ w' = quiet
      /\ Uri.scheme uri = Some 1%nat /\ Uri.path uri <> None)
     \/ (~ Uri.scheme_form full_uri /\ rc = -1
         /\ w' = set_errno EINVAL quiet
         /\ m' = (["<"%char] ++ full_uri ++ Uri.NUL :: [">"%char])%list).
Proof.
  split; [ reflexivity | ].
  exact (@UriFacts.parse_raw_uri_accepts_exactly_a_scheme
           Uri.zero_uri ["<"%char] full_uri [">"%char] quiet eq_refl).
Defined.

Lemma parse_raw_uri_stays_inside_the_text_witness :
  Uri.nul_free full_uri = true
  /\ exists s' : list ascii,
      snd (fst (Uri.rbh_parse_raw_uri Uri.zero_uri
                  (["<"%char] ++ full_uri ++ Uri.NUL :: [">"%char])%list
                  1 quiet))
      = (["<"%char] ++ s' ++ Uri.NUL :: [">"%char])%list
      /\ List.length s' = List.length full_uri.
Proof.
  split; [ reflexivity | ].
  exact (@UriFacts.parse_raw_uri_stays_inside_the_text
           Uri.zero_uri ["<"%char] full_uri [">"%char] quiet eq_refl).
Defined.

Lemma parse_raw_uri_round_trip_witness :
  let '(rc, uri, m', w') :=
    Uri.rbh_parse_raw_uri Uri.zero_uri
      (["<"%char] ++ full_uri ++ Uri.NUL :: [">"%char])%list 1 quiet in
  Uri.nul_free full_uri = true
  /\ rc = 0
  /\ Uri.has_authority uri = true
  /\ (Uri.recompose (Uri.has_authority uri) m' uri
      = string_of_list_ascii full_uri
      \/ (Uri.has_authority uri = false
          /\ Uri.recompose true m' uri = string_of_list_ascii full_uri)).
Proof.
  destruct (Uri.rbh_parse_raw_uri Uri.zero_uri
              (["<"%char] ++ full_uri ++ Uri.NUL :: [">"%char])%list 1 quiet)
    as [[[rc uri] m'] w'] eqn:Hrun.
  pose proof Hrun as Hval. vm_compute in Hval.
  injection Hval as <- <- <- <-.
  split; [ reflexivity | ]. split; [ reflexivity | ].
  split; [ reflexivity | ].
  exact (@UriFacts.parse_raw_uri_round_trip
           Uri.zero_uri ["<"%char] full_uri [">"%char] quiet _ _ _
           eq_refl Hrun).
Defined.

(** *** Iterators *)

Lemma array_iter_yields_the_counted_elements_witness :
  0 <= 3 <= Z.of_nat (List.length letters)
  /\ Z.of_nat (List.length letters) < 2 ^ 64
  /\ match rbh_iter_array letters 8 3 quiet with
     | (Some it, w') =>
         errno w' = errno quiet
         /\ yields (@array_iter_next string) it
                   (firstn (Z.to_nat 3) letters)
     | (None, w') => errno w' = ENOMEM
     end.
Proof.
  assert (Hc : 0 <= 3 <= Z.of_nat (List.length letters))
    by (vm_compute; split; discriminate).
  assert (Hl : Z.of_nat (List.length letters) < 2 ^ 64) by reflexivity.
  split; [ exact Hc | ]. split; [ exact Hl | ].
  exact (@array_iter_yields_the_counted_elements string letters 8 3 quiet
           Hc Hl).
Defined.

Lemma chunk_never_exceeds_its_size_witness :
  0 < chunkify_chunk (ChunkifyIterator 2) < 2 ^ 64
  /\ exists chunk s1 w1,
      chunkify_iter_next (@array_iter_next string) (ChunkifyIterator 2)
                         (over letters) quiet
      = (Some chunk, s1, w1)
      /\ (elements (fst (fst (fst (chunk_take (@array_iter_next string) 5
                                              chunk s1 w1))))
          <= Z.to_nat (chunkify_chunk (ChunkifyIterator 2)))%nat.
Proof.
  assert (Hk : 0 < chunkify_chunk (ChunkifyIterator 2) < 2 ^ 64)
    by (split; reflexivity).
  split; [ exact Hk | ].
  destruct (chunkify_iter_next (@array_iter_next string) (ChunkifyIterator 2)
                               (over letters) quiet)
    as [[[chunk|] s1] w1] eqn:Hnext; [ | vm_compute in Hnext; discriminate ].
  exists chunk, s1, w1. split; [ reflexivity | ].
  exact (@chunk_never_exceeds_its_size string _ (@array_iter_next string)
           (ChunkifyIterator 2) (over letters) quiet chunk s1 w1 5%nat
           Hk Hnext).
Defined.

Lemma chunkify_drops_the_element_read_when_allocation_fails_witness :
  0 < 2 < 2 ^ 64
  /\ yields (@array_iter_next string) (over ["a"; "b"; "c"]) ["a"; "b"; "c"]
  /\ faults (scripted [false]) = [false]
  /\ exists s' w',
      chunkify_iter_next (@array_iter_next string) (ChunkifyIterator 2)
                         (over ["a"; "b"; "c"]) (scripted [false])
      = (None, s', w')
      /\ errno w' = ENOMEM
      /\ yields (@array_iter_next string) s' ["b"; "c"].
Proof.
  assert (Hk : 0 < 2 < 2 ^ 64) by (split; reflexivity).
  assert (Hs : yields (@array_iter_next string) (over ["a"; "b"; "c"])
                      ["a"; "b"; "c"])
    by (apply over_stream; reflexivity).
  split; [ exact Hk | ]. split; [ exact Hs | ]. split; [ reflexivity | ].
  destruct (@chunkify_drops_the_element_read_when_allocation_fails
              string _ (@array_iter_next string) 2 "a" ["b"; "c"]
              (over ["a"; "b"; "c"]) (scripted [false]) [] Hk Hs eq_refl)
    as (s' & w' & Hnext & He & _ & Hs' & _).
  exists s', w'. split; [ exact Hnext | ]. split; [ exact He | exact Hs' ].
Defined.

(** The parked heap is the one the code builds, and it keeps the
    invariant of a tee over ["a"; "b"] after the call of sibling 0. *)
Lemma tee_parked_invariant :
  snd (fst (tee_iter_next (@array_iter_next string) Tee0
                          (tee_over ["a"; "b"]) (scripted [false])))
  = tee_parked
  /\ tee_invariant (@array_iter_next string) ["a"; "b"] tee_parked
                   [(Tee0, Some "a")].
Proof.
  split; [ reflexivity | ].
  split; [ split; reflexivity | ].
  split; [ left; reflexivity | ].
  exists 1%nat. split; [ simpl; lia | ].
  split.
  - exact (@array_iter_stream string ["a"; "b"] 8 1 1 eq_refl eq_refl).
  - intros [|]; reflexivity.
Qed.

Lemma tee_survivor_yields_the_rest_of_the_stream_witness :
  (* the parked heap: sibling 1 stays *)
  linked tee_parked
  /\ in_store tee_parked Tee1 = map Some ["a"]
  /\ yields (@array_iter_next string) (tee_subiter tee_parked) ["b"]
  /\ (let '(h1, destroyed1) := tee_iter_destroy Tee0 tee_parked in
      destroyed1 = false
      /\ tee_subiter h1 = tee_subiter tee_parked
      /\ yields (tee_iter_next (@array_iter_next string) Tee1) h1
                (["a"] ++ ["b"])
      /\ tee_iter_destroy Tee1 h1 = (h1, true))
  (* the heap after sibling 1 took the parked element and shared it back:
     sibling 0, which has observed "a", stays and is given "a" again *)
  /\ (let back :=
        snd (fst (tee_iter_next (@array_iter_next string) Tee1 tee_parked
                                quiet)) in
      linked back
      /\ in_store back Tee0 = map Some ["a"]
      /\ yields (tee_iter_next (@array_iter_next string) Tee0)
                (fst (tee_iter_destroy Tee1 back)) (["a"] ++ ["b"])).
Proof.
  assert (Hl : linked tee_parked) by (split; reflexivity).
  assert (Hs : yields (@array_iter_next string) (tee_subiter tee_parked)
                      ["b"])
    by exact (@array_iter_stream string ["a"; "b"] 8 1 1 eq_refl eq_refl).
  split; [ exact Hl | ]. split; [ reflexivity | ]. split; [ exact Hs | ].
  split.
  - pose proof (@tee_survivor_yields_the_rest_of_the_stream
                  string _ (@array_iter_next string) tee_parked Tee1
                  ["a"] ["b"] Hl eq_refl Hs) as H.
    cbn [other] in H.
    destruct (tee_iter_destroy Tee0 tee_parked) as [h1 destroyed1].
    destruct H as (Hd & Hsub & Hy & Hlast & _).
    repeat split; assumption.
  - cbv zeta.
    assert (Hlb : linked (snd (fst (tee_iter_next (@array_iter_next string)
                                      Tee1 tee_parked quiet))))
      by (split; reflexivity).
    split; [ exact Hlb | ]. split; [ reflexivity | ].
    pose proof (@tee_survivor_yields_the_rest_of_the_stream
                  string _ (@array_iter_next string)
                  (snd (fst (tee_iter_next (@array_iter_next string) Tee1
                                           tee_parked quiet)))
                  Tee0 ["a"] ["b"] Hlb eq_refl Hs) as H.
    cbn [other] in H.
    destruct (tee_iter_destroy Tee1
                (snd (fst (tee_iter_next (@array_iter_next string) Tee1
                                         tee_parked quiet))))
      as [h1 destroyed1].
    destruct H as (_ & _ & Hy & _). exact Hy.
Defined.

Lemma tee_parked_element_returns_to_its_producer_witness :
  tee_invariant (@array_iter_next string) ["a"; "b"] tee_parked
                [(Tee0, Some "a")]
  /\ takes_own_slot tee_parked Tee1 = true
  /\ exists h' w',
      tee_iter_next (@array_iter_next string) Tee1 tee_parked quiet
      = (Some "a", h', w')
      /\ fst (fst (tee_iter_next (@array_iter_next string) Tee0 h' quiet))
         = Some "a".
Proof.
  split; [ exact (proj2 tee_parked_invariant) | ].
  split; [ reflexivity | ].
  destruct (@tee_parked_element_returns_to_its_producer
              string _ (@array_iter_next string) ["a"; "b"] tee_parked
              [(Tee0, Some "a")] Tee1 quiet (proj2 tee_parked_invariant)
              eq_refl)
    as (x & h' & w' & Hnext & _ & Hseen & _ & Hagain).
  injection Hseen as <-.
  exists h', w'. split; [ exact Hnext | exact (Hagain quiet) ].
Defined.

(** *** The mongo backend *)

Lemma fsevent_lowering_by_kind_witness :
  mongo_bulk_append_fsevent mongoc_1_17 (Bulk false []) delete_X quiet
  = (true, Bulk false [remove_one (id_filter X)], quiet)
  /\ bulk_ops (Bulk false [@remove_one unit (id_filter X)])
     = ([] ++ [remove_one (id_filter X)])%list
  /\ mongo_bulk_append_fsevent mongoc_1_17 (Bulk false []) link_X
                               (scripted [true; true; true; true; false])
     = (false,
        Bulk false [update_one (id_filter X) (unlink_update P1 "a") false],
        quiet).
Proof.
  assert (Hdel : mongo_bulk_append_fsevent mongoc_1_17 (Bulk false [])
                                           delete_X quiet
                 = (true, Bulk false [remove_one (id_filter X)], quiet))
    by reflexivity.
  split; [ exact Hdel | ].
  split.
  - exact (proj1 (proj2 (@fsevent_lowering_by_kind
                           mongoc_1_17 unit (Bulk false []) _ delete_X
                           true quiet _ Hdel))).
  - reflexivity.
Defined.

Lemma update_never_executes_an_empty_bulk_witness :
  exists mongo' s' w',
    mongo_backend_update mongoc_1_17 (@array_iter_next (rbh_fsevent unit)) 3
                         (empty_store exec_ok) (over [delete_X]) quiet
    = Some (1, mongo', s', w')
    /\ exists ops,
        ops <> []
        /\ journal (entries mongo')
           = (journal (entries (empty_store exec_ok)) ++ [ops])%list.
Proof.
  destruct (mongo_backend_update mongoc_1_17
              (@array_iter_next (rbh_fsevent unit)) 3 (empty_store exec_ok)
              (over [delete_X]) quiet)
    as [[[[r mongo'] s'] w']|] eqn:Hrun;
    [ | vm_compute in Hrun; discriminate ].
  assert (Hr : r = 1)
    by (vm_compute in Hrun; injection Hrun as <- _ _ _; reflexivity).
  subst r.
  exists mongo', s', w'. split; [ reflexivity | ].
  destruct (@update_never_executes_an_empty_bulk
              mongoc_1_17 unit _ (@array_iter_next (rbh_fsevent unit)) 3
              (empty_store exec_ok) mongo' (over [delete_X]) s' quiet w' 1
              Hrun)
    as [[Hle _] | (ops & Hne & Hj & _)]; [ lia | ].
  exists ops. split; [ exact Hne | exact Hj ].
Defined.

Lemma update_aborts_when_the_iterator_fails_witness :
  fails_after (@failing (rbh_fsevent unit) ENOMEM) [delete_X] [delete_X]
              ENOMEM
  /\ ENOMEM <> 0 /\ ENOMEM <> ENODATA
  /\ exists s' w',
      mongo_backend_update mongoc_1_17 (@failing (rbh_fsevent unit) ENOMEM)
                           3 (empty_store exec_ok) [delete_X] quiet
      = Some (-1, empty_store exec_ok, s', w')
      /\ errno w' = ENOMEM.
Proof.
  assert (Hs : fails_after (@failing (rbh_fsevent unit) ENOMEM) [delete_X]
                           [delete_X] ENOMEM).
  { exists []. split; intros w; reflexivity. }
  assert (He0 : ENOMEM <> 0) by discriminate.
  assert (He1 : ENOMEM <> ENODATA) by discriminate.
  split; [ exact Hs | ]. split; [ exact He0 | ]. split; [ exact He1 | ].
  assert (Hfuel : (List.length [delete_X] < 3)%nat) by (simpl; lia).
  assert (Hlen : Z.of_nat (List.length [delete_X]) < 2 ^ 63) by reflexivity.
  exact (@update_aborts_when_the_iterator_fails
           mongoc_1_17 unit _ (@failing (rbh_fsevent unit) ENOMEM)
           (empty_store exec_ok) [delete_X] [delete_X] ENOMEM 3 quiet
           (Bulk false []) quiet (Bulk false [remove_one (id_filter X)])
           quiet Hs He0 He1 Hfuel Hlen eq_refl eq_refl).
Defined.

(** *** rbh-find-lustre *)

Lemma lpred_distinct :
  NoDup [LPRED_EXPIRED; LPRED_EXPIRED_AT; LPRED_EXPIRED_ABS;
         LPRED_EXPIRED_REL; LPRED_FID; LPRED_HSM_STATE; LPRED_OST_INDEX].
Proof.
  repeat constructor; cbn [In]; intros H;
    repeat (destruct H as [H | H]; [ discriminate H | ]); exact H.
Qed.

Lemma lpred_in_range :
  Forall (fun p => LPRED_MIN <= p < LPRED_MAX)
         [LPRED_EXPIRED; LPRED_EXPIRED_AT; LPRED_EXPIRED_ABS;
          LPRED_EXPIRED_REL; LPRED_FID; LPRED_HSM_STATE; LPRED_OST_INDEX].
Proof. repeat constructor; discriminate. Qed.

Lemma str2lustre_predicate_exact_witness :
  FindLustre.c_string "-fid" = true
  /\ FindLustre.c_string "-fidx" = true
  /\ FindLustre.str2lustre_predicate
       LPRED_EXPIRED LPRED_EXPIRED_AT LPRED_FID LPRED_HSM_STATE
       LPRED_OST_INDEX str2predicate "-fid"
     = Some LPRED_FID
  /\ FindLustre.str2lustre_predicate
       LPRED_EXPIRED LPRED_EXPIRED_AT LPRED_FID LPRED_HSM_STATE
       LPRED_OST_INDEX str2predicate "-fidx"
     = Some PRED_NAME.
Proof.
  split; [ reflexivity | ]. split; [ reflexivity | ].
  split.
  - exact (@FindLustreFacts.str2lustre_predicate_exact
             LPRED_EXPIRED LPRED_EXPIRED_AT LPRED_FID LPRED_HSM_STATE
             LPRED_OST_INDEX str2predicate "-fid" eq_refl).
  - exact (@FindLustreFacts.str2lustre_predicate_exact
             LPRED_EXPIRED LPRED_EXPIRED_AT LPRED_FID LPRED_HSM_STATE
             LPRED_OST_INDEX str2predicate "-fidx" eq_refl).
Defined.

Lemma tokenizer_agrees_with_parser_witness :
  FindLustre.c_string "-ost" = true
  /\ FindLustre.lustre_predicate_or_action CLT_PREDICATE
                                           find_predicate_or_action "-ost"
     = CLT_PREDICATE
  /\ FindLustre.c_string "-print" = true
  /\ FindLustre.lustre_predicate_or_action CLT_PREDICATE
                                           find_predicate_or_action "-print"
     = find_predicate_or_action "-print".
Proof.
  split; [ reflexivity | ].
  split.
  - exact (proj1 (@FindLustreFacts.tokenizer_agrees_with_parser
                    LPRED_EXPIRED LPRED_EXPIRED_AT LPRED_FID LPRED_HSM_STATE
                    LPRED_OST_INDEX str2predicate _ CLT_PREDICATE
                    find_predicate_or_action "-ost" eq_refl)).
  - split; [ reflexivity | ].
    exact (proj1 (@FindLustreFacts.tokenizer_agrees_with_parser
                    LPRED_EXPIRED LPRED_EXPIRED_AT LPRED_FID LPRED_HSM_STATE
                    LPRED_OST_INDEX str2predicate _ CLT_PREDICATE
                    find_predicate_or_action "-print" eq_refl)).
Defined.

Lemma lustre_predicate_names_round_trip_witness :
  NoDup [LPRED_EXPIRED; LPRED_EXPIRED_AT; LPRED_EXPIRED_ABS;
         LPRED_EXPIRED_REL; LPRED_FID; LPRED_HSM_STATE; LPRED_OST_INDEX]
  /\ Forall (fun p => LPRED_MIN <= p < LPRED_MAX)
            [LPRED_EXPIRED; LPRED_EXPIRED_AT; LPRED_EXPIRED_ABS;
             LPRED_EXPIRED_REL; LPRED_FID; LPRED_HSM_STATE; LPRED_OST_INDEX]
  /\ FindLustre.lustre_predicate2str
       LPRED_EXPIRED LPRED_EXPIRED_AT LPRED_EXPIRED_ABS LPRED_EXPIRED_REL
       LPRED_FID LPRED_HSM_STATE LPRED_OST_INDEX LPRED_MIN LPRED_MAX
       predicate2str LPRED_HSM_STATE
     = Some "hsm-state"
  /\ FindLustre.str2lustre_predicate
       LPRED_EXPIRED LPRED_EXPIRED_AT LPRED_FID LPRED_HSM_STATE
       LPRED_OST_INDEX str2predicate "-hsm-state"
     = Some LPRED_HSM_STATE
  /\ FindLustre.lustre_predicate2str
       LPRED_EXPIRED LPRED_EXPIRED_AT LPRED_EXPIRED_ABS LPRED_EXPIRED_REL
       LPRED_FID LPRED_HSM_STATE LPRED_OST_INDEX LPRED_MIN LPRED_MAX
       predicate2str LPRED_EXPIRED_REL
     = Some "expired".
Proof.
  split; [ exact lpred_distinct | ]. split; [ exact lpred_in_range | ].
  destruct (@FindLustreFacts.lustre_predicate_names_round_trip
              LPRED_EXPIRED LPRED_EXPIRED_AT LPRED_EXPIRED_ABS
              LPRED_EXPIRED_REL LPRED_FID LPRED_HSM_STATE LPRED_OST_INDEX
              LPRED_MIN LPRED_MAX str2predicate predicate2str
              lpred_distinct lpred_in_range) as [Hnamed Hother].
  destruct (Hnamed LPRED_HSM_STATE "hsm-state") as [Hname Hback];
    [ cbn [In]; auto 6 | ].
  destruct (Hother LPRED_EXPIRED_REL) as [Hrel _]; [ cbn [In]; auto | ].
  split; [ exact Hname | ]. split; [ exact Hback | exact Hrel ].
Defined.

Lemma parse_predicate_consumes_its_argument_witness :
  let parse :=
    FindLustre.lustre_parse_predicate
      LPRED_EXPIRED LPRED_EXPIRED_AT LPRED_FID LPRED_HSM_STATE
      LPRED_OST_INDEX str2predicate (built "expired" "")
      (built "expired-at") (built "fid") (built "hsm-state") (built "ost")
      find_parse_predicate in
  NoDup [LPRED_EXPIRED; LPRED_EXPIRED_AT; LPRED_EXPIRED_ABS;
         LPRED_EXPIRED_REL; LPRED_FID; LPRED_HSM_STATE; LPRED_OST_INDEX]
  /\ parse ["rbh-lfind"; "-fid"; "0x1:0x2:0x3"] 1%nat
     = FindLustre.parsed "fid 0x1:0x2:0x3" 2
  /\ parse ["rbh-lfind"; "-fid"] 1%nat
     = FindLustre.usage string "missing argument to `-fid'"
  /\ parse ["rbh-lfind"; "-expired"; "-fid"] 1%nat
     = FindLustre.parsed "expired " 1.
Proof.
  cbv zeta.
  split; [ exact lpred_distinct | ].
  split; [ | split ].
  - destruct (@FindLustreFacts.parse_predicate_consumes_its_argument
                LPRED_EXPIRED LPRED_EXPIRED_AT LPRED_EXPIRED_ABS
                LPRED_EXPIRED_REL LPRED_FID LPRED_HSM_STATE LPRED_OST_INDEX
                str2predicate lpred_distinct string (built "expired" "")
                (built "expired-at") (built "fid") (built "hsm-state")
                (built "ost") find_parse_predicate
                ["rbh-lfind"; "-fid"; "0x1:0x2:0x3"] 1%nat)
      as (_ & _ & Hargument).
    exact (Hargument "-fid" (built "fid")
                     (or_intror (or_introl eq_refl)) eq_refl
                     ltac:(simpl; lia)).
  - destruct (@FindLustreFacts.parse_predicate_consumes_its_argument
                LPRED_EXPIRED LPRED_EXPIRED_AT LPRED_EXPIRED_ABS
                LPRED_EXPIRED_REL LPRED_FID LPRED_HSM_STATE LPRED_OST_INDEX
                str2predicate lpred_distinct string (built "expired" "")
                (built "expired-at") (built "fid") (built "hsm-state")
                (built "ost") find_parse_predicate
                ["rbh-lfind"; "-fid"] 1%nat)
      as (Hmissing & _ & _).
    exact (Hmissing LPRED_FID eq_refl ltac:(discriminate)
                    ltac:(simpl; lia)).
  - destruct (@FindLustreFacts.parse_predicate_consumes_its_argument
                LPRED_EXPIRED LPRED_EXPIRED_AT LPRED_EXPIRED_ABS
                LPRED_EXPIRED_REL LPRED_FID LPRED_HSM_STATE LPRED_OST_INDEX
                str2predicate lpred_distinct string (built "expired" "")
                (built "expired-at") (built "fid") (built "hsm-state")
                (built "ost") find_parse_predicate
                ["rbh-lfind"; "-expired"; "-fid"] 1%nat)
      as (_ & Hexpired & _).
    exact (Hexpired eq_refl).
Defined.

End Scenarios.
